(** * Book-spine detection (AdvancedOCR): a shallow embedding and its properties

    The development follows the class [AdvancedOCR] of the library
    management system: [determineOrientation], [groupWordsIntoRegions],
    [detectBookSpines] and [cleanBookTitle].

    Modelling conventions.
    - A JavaScript [number] is embedded twice.  In the main development
      it is an exact rational ([Q]): coordinates and confidences are
      finite, arithmetic does not round and comparisons are the boolean
      tests of [QArith].  The results stated there are about order,
      bounds and the structure of the groups; none of them turns on how
      a comparison at its threshold rounds.  The decisions at the
      thresholds themselves (the aspect tests and scores of
      [determineOrientation], the distance test of
      [groupWordsIntoRegions], the alignment test of [detectBookSpines])
      are embedded again in module [B64], where a [number] is a binary64
      float and every operation rounds as in the engine.
    - A JavaScript [string] is the list of its UTF-16 code units ([N]);
      the regular expressions of [cleanBookTitle] have no [u] flag and
      work on code units.
    - The [Set<number>] of consumed indices is a [gset nat].
    - The two nested [for] loops run over the indices [i] and [j > i];
      they are written by recursion on the remaining suffix of the array,
      with the index carried along. *)

From Stdlib Require Import Floats.
From Stdlib Require Import Reals Qreals Lra.
From Stdlib Require Import QArith Qabs Lqa List Permutation Sorted.
From Stdlib Require Import NArith Ascii String.
From stdpp Require Import base gmap sets list.
Import ListNotations.

Set Warnings "-inexact-float".

(** ** Numbers *)

Module Num.

Definition ltb (x y : Q) : bool := negb (Qle_bool y x).
Definition gtb (x y : Q) : bool := ltb y x.

(** [Math.min] and [Math.max]. *)
Definition min (x y : Q) : Q := if Qle_bool x y then x else y.
Definition max (x y : Q) : Q := if Qle_bool x y then y else x.

(** [Math.abs]. *)
Definition abs (x : Q) : Q := if Qle_bool 0 x then x else - x.

(** [Math.pow(x, 2)]. *)
Definition sq (x : Q) : Q := x * x.

(** [Math.sqrt(s) < t] without leaving the rationals: the square root of
    a non-negative [s] is below [t] exactly when [t] is positive and
    [s < t * t]; lemma [sqrt_ltb_real] relates the test to the real
    square root. *)
Definition sqrt_ltb (s t : Q) : bool := ltb 0 t && ltb s (t * t).

End Num.

(** ** Strings as lists of UTF-16 code units *)

Module Str.

Abbreviation jsstring := (list N).

Definition of_string (s : string) : jsstring :=
  List.map N_of_ascii (list_ascii_of_string s).

Definition space : N := 32.

Definition between (lo hi c : N) : bool := ((lo <=? c) && (c <=? hi))%N.

(** The class [\s] of ECMAScript (WhiteSpace and LineTerminator), which is
    also what [trim] removes. *)
Definition isWhite (c : N) : bool :=
  between 9 13 c || (c =? 32)%N || (c =? 160)%N || (c =? 5760)%N
  || between 8192 8202 c || (c =? 8232)%N || (c =? 8233)%N
  || (c =? 8239)%N || (c =? 8287)%N || (c =? 12288)%N || (c =? 65279)%N.

(** The class [\d]. *)
Definition isDigit (c : N) : bool := between 48 57 c.

(** The class [\w]: [A-Za-z0-9_]. *)
Definition isWordChar (c : N) : bool :=
  between 65 90 c || between 97 122 c || isDigit c || (c =? 95)%N.

(** The literal members of the class in [/[^\w\s\-:&'.,]/]:
    hyphen, colon, ampersand, apostrophe, period, comma. *)
Definition isTitlePunct (c : N) : bool :=
  (c =? 45)%N || (c =? 58)%N || (c =? 38)%N || (c =? 39)%N
  || (c =? 46)%N || (c =? 44)%N.

Definition keepChar (c : N) : bool := isWordChar c || isWhite c || isTitlePunct c.

(** [.replace(/\s+/g, ' ')]: every maximal run of white space becomes one
    space; [inRun] tells that the previous unit was white. *)
Fixpoint collapseFrom (inRun : bool) (s : jsstring) : jsstring :=
  match s with
  | [] => []
  | c :: s' =>
      if isWhite c
      then (if inRun then collapseFrom true s' else space :: collapseFrom true s')
      else c :: collapseFrom false s'
  end.

Definition collapseWhitespace (s : jsstring) : jsstring := collapseFrom false s.

(** [.replace(/[^\w\s\-:&'.,]/g, '')]. *)
Definition stripSpecial (s : jsstring) : jsstring := List.filter keepChar s.

Fixpoint dropWhile (p : N -> bool) (s : jsstring) : jsstring :=
  match s with
  | [] => []
  | c :: s' => if p c then dropWhile p s' else s
  end.

(** [.replace(/^\d+\s*/, '')]: the pattern needs one digit at least; both
    quantifiers are greedy and nothing follows them. *)
Definition stripLeadingNumber (s : jsstring) : jsstring :=
  match s with
  | c :: _ => if isDigit c then dropWhile isWhite (dropWhile isDigit s) else s
  | [] => []
  end.

(** [.trim()]. *)
Definition trim (s : jsstring) : jsstring :=
  rev (dropWhile isWhite (rev (dropWhile isWhite s))).

(** [.split(sep)] for a separator of one unit; the result is never empty
    (["".split(' ')] is [[""]]). *)
Fixpoint split (sep : N) (s : jsstring) : list jsstring :=
  match s with
  | [] => [[]]
  | c :: s' =>
      if (c =? sep)%N then [] :: split sep s'
      else match split sep s' with
           | t :: ts => (c :: t) :: ts
           | [] => [[c]]
           end
  end.

(** [.join(sep)]. *)
Fixpoint join (sep : N) (ts : list jsstring) : jsstring :=
  match ts with
  | [] => []
  | [t] => t
  | t :: ts' => t ++ sep :: join sep ts'
  end.

(** [a + ' ' + b]. *)
Definition spaced (a b : jsstring) : jsstring := a ++ space :: b.

End Str.

Import Str.

(** [cleanBookTitle]. *)
Definition cleanBookTitle (title : jsstring) : jsstring :=
  join space
    (List.filter (fun word => (1 <? length word)%nat)
       (split space
          (trim (stripLeadingNumber (stripSpecial (collapseWhitespace title)))))).

(** ** Data model *)

Local Open Scope Q_scope.

Record BBox : Type := mkBBox { x0 : Q; y0 : Q; x1 : Q; y1 : Q }.

Inductive Orientation : Type := horizontal | vertical.

Module Word.
Record t : Type := mk { text : jsstring; confidence : Q; bbox : BBox }.
End Word.

Module Region.
Record t : Type := mk {
  text : jsstring;
  confidence : Q;
  bbox : BBox;
  orientation : Orientation;
  words : list Word.t
}.
End Region.

Module Spine.
Record t : Type := mk {
  title : jsstring;
  confidence : Q;
  bbox : BBox;
  orientation : Orientation;
  textRegions : list Region.t
}.
End Spine.

Definition centerX (b : BBox) : Q := (x0 b + x1 b) / 2.
Definition centerY (b : BBox) : Q := (y0 b + y1 b) / 2.
Definition height (b : BBox) : Q := y1 b - y0 b.
Definition width (b : BBox) : Q := x1 b - x0 b.

(** The four [Math.min]/[Math.max] assignments that expand a box. *)
Definition expand (b b2 : BBox) : BBox :=
  {| x0 := Num.min (x0 b) (x0 b2);
     y0 := Num.min (y0 b) (y0 b2);
     x1 := Num.max (x1 b) (x1 b2);
     y1 := Num.max (y1 b) (y1 b2) |}.

(** ** [determineOrientation] *)

(** One iteration of the [for (const word of words)] loop on the pair
    [(horizontalScore, verticalScore)]. *)
Definition scoreWord (scores : Q * Q) (word : Word.t) : Q * Q :=
  let width := width (Word.bbox word) in
  let height := height (Word.bbox word) in
  if Num.gtb width (height * (3 # 2))
  then (fst scores + Word.confidence word, snd scores)
  else if Num.gtb height (width * (3 # 2))
  then (fst scores, snd scores + Word.confidence word)
  else scores.

Definition determineOrientation (words : list Word.t) : Orientation :=
  if (length words =? 0)%nat then horizontal
  else
    let scores := fold_left scoreWord words (0, 0) in
    if Num.gtb (fst scores) (snd scores) then horizontal else vertical.

(** ** [groupWordsIntoRegions] *)

(** The square of [distance] for two words (the argument of [Math.sqrt]). *)
Definition centerDistSq (word1 word2 : Word.t) : Q :=
  let centerX1 := centerX (Word.bbox word1) in
  let centerY1 := centerY (Word.bbox word1) in
  let centerX2 := centerX (Word.bbox word2) in
  let centerY2 := centerY (Word.bbox word2) in
  Num.sq (centerX2 - centerX1) + Num.sq (centerY2 - centerY1).

Definition avgHeight (b1 b2 : BBox) : Q := (height b1 + height b2) / 2.

(** The test [distance < avgHeight * 2]. *)
Definition wordsClose (word1 word2 : Word.t) : bool :=
  Num.sqrt_ltb (centerDistSq word1 word2)
    (avgHeight (Word.bbox word1) (Word.bbox word2) * 2).

(** The region object created for the seed [words[i]]. *)
Definition seedRegion (word : Word.t) : Region.t :=
  {| Region.text := Word.text word;
     Region.confidence := Word.confidence word;
     Region.bbox := Word.bbox word;
     Region.orientation := determineOrientation [word];
     Region.words := [word] |}.

(** The body of the [if (distance < avgHeight * 2)] branch. *)
Definition absorbWord (region : Region.t) (word2 : Word.t) : Region.t :=
  {| Region.text := spaced (Region.text region) (Word.text word2);
     Region.confidence := (Region.confidence region + Word.confidence word2) / 2;
     Region.bbox := expand (Region.bbox region) (Word.bbox word2);
     Region.orientation := Region.orientation region;
     Region.words := Region.words region ++ [word2] |}.

(** The inner loop [for (let j = i + 1; ...)]: [rest] is [words.slice(j)]. *)
Fixpoint regionScan (word1 : Word.t) (j : nat) (rest : list Word.t)
    (used : gset nat) (region : Region.t) : gset nat * Region.t :=
  match rest with
  | [] => (used, region)
  | word2 :: rest' =>
      if bool_decide (j ∈ used) then regionScan word1 (S j) rest' used region
      else if wordsClose word1 word2
      then regionScan word1 (S j) rest' ({[j]} ∪ used) (absorbWord region word2)
      else regionScan word1 (S j) rest' used region
  end.

Definition setOrientation (region : Region.t) (o : Orientation) : Region.t :=
  {| Region.text := Region.text region;
     Region.confidence := Region.confidence region;
     Region.bbox := Region.bbox region;
     Region.orientation := o;
     Region.words := Region.words region |}.

(** The outer loop [for (let i = 0; ...)]: [rest] is [words.slice(i)]. *)
Fixpoint regionLoop (i : nat) (rest : list Word.t) (used : gset nat)
    (regions : list Region.t) : list Region.t :=
  match rest with
  | [] => regions
  | word :: rest' =>
      if bool_decide (i ∈ used) then regionLoop (S i) rest' used regions
      else
        let scanned := regionScan word (S i) rest' ({[i]} ∪ used) (seedRegion word) in
        let region := snd scanned in
        regionLoop (S i) rest' (fst scanned)
          (regions ++ [setOrientation region (determineOrientation (Region.words region))])
  end.

Definition groupWordsIntoRegions (words : list Word.t) : list Region.t :=
  if (length words =? 0)%nat then [] else regionLoop 0 words ∅ [].

(** ** [detectBookSpines] *)

Definition isVerticallyAligned (region1 region2 : Region.t) : bool :=
  Num.ltb (Num.abs (centerX (Region.bbox region1) - centerX (Region.bbox region2))) 50.

Definition isHorizontallyAligned (region1 region2 : Region.t) : bool :=
  Num.ltb (Num.abs (centerY (Region.bbox region1) - centerY (Region.bbox region2))) 30.

Definition verticalDistance (region1 region2 : Region.t) : Q :=
  let centerY1 := centerY (Region.bbox region1) in
  let centerY2 := centerY (Region.bbox region2) in
  Num.abs (centerY2 - centerY1).

(** The condition of [if (isVerticallyAligned && verticalDistance < avgHeight * 3)];
    [isHorizontallyAligned] is bound before it, as in the source. *)
Definition sameSpine (region1 region2 : Region.t) : bool :=
  let isVerticallyAligned := isVerticallyAligned region1 region2 in
  let isHorizontallyAligned := isHorizontallyAligned region1 region2 in
  let verticalDistance := verticalDistance region1 region2 in
  let avgHeight := avgHeight (Region.bbox region1) (Region.bbox region2) in
  isVerticallyAligned && Num.ltb verticalDistance (avgHeight * 3).

Definition seedSpine (region : Region.t) : Spine.t :=
  {| Spine.title := Region.text region;
     Spine.confidence := Region.confidence region;
     Spine.bbox := Region.bbox region;
     Spine.orientation := Region.orientation region;
     Spine.textRegions := [region] |}.

(** The body of the merge branch; [region1] is the seed [regions[i]]. *)
Definition absorbRegion (region1 : Region.t) (spine : Spine.t) (region2 : Region.t) : Spine.t :=
  {| Spine.title :=
       if Num.ltb (y0 (Region.bbox region2)) (y0 (Region.bbox region1))
       then spaced (Region.text region2) (Spine.title spine)
       else spaced (Spine.title spine) (Region.text region2);
     Spine.confidence := (Spine.confidence spine + Region.confidence region2) / 2;
     Spine.bbox := expand (Spine.bbox spine) (Region.bbox region2);
     Spine.orientation := Spine.orientation spine;
     Spine.textRegions := Spine.textRegions spine ++ [region2] |}.

Fixpoint spineScan (region1 : Region.t) (j : nat) (rest : list Region.t)
    (used : gset nat) (spine : Spine.t) : gset nat * Spine.t :=
  match rest with
  | [] => (used, spine)
  | region2 :: rest' =>
      if bool_decide (j ∈ used) then spineScan region1 (S j) rest' used spine
      else if sameSpine region1 region2
      then spineScan region1 (S j) rest' ({[j]} ∪ used) (absorbRegion region1 spine region2)
      else spineScan region1 (S j) rest' used spine
  end.

(** [spine.title = this.cleanBookTitle(spine.title)]. *)
Definition cleanSpine (spine : Spine.t) : Spine.t :=
  {| Spine.title := cleanBookTitle (Spine.title spine);
     Spine.confidence := Spine.confidence spine;
     Spine.bbox := Spine.bbox spine;
     Spine.orientation := Spine.orientation spine;
     Spine.textRegions := Spine.textRegions spine |}.

(** [spine.title.length >= 3 && spine.confidence > 30]. *)
Definition accepted (spine : Spine.t) : bool :=
  (3 <=? length (Spine.title spine))%nat && Num.gtb (Spine.confidence spine) 30.

Fixpoint spineLoop (i : nat) (rest : list Region.t) (used : gset nat)
    (spines : list Spine.t) : list Spine.t :=
  match rest with
  | [] => spines
  | region :: rest' =>
      if bool_decide (i ∈ used) then spineLoop (S i) rest' used spines
      else
        let scanned := spineScan region (S i) rest' ({[i]} ∪ used) (seedSpine region) in
        let spine := cleanSpine (snd scanned) in
        spineLoop (S i) rest' (fst scanned)
          (if accepted spine then spines ++ [spine] else spines)
  end.

(** [spines.sort((a, b) => centerYA - centerYB)]: the sort of an array is
    stable, and for a comparator that is a total preorder the stable
    result is unique; it is computed here by insertion. *)
Fixpoint insertSpine (a : Spine.t) (sorted : list Spine.t) : list Spine.t :=
  match sorted with
  | [] => [a]
  | b :: sorted' =>
      if Num.gtb (centerY (Spine.bbox a) - centerY (Spine.bbox b)) 0
      then b :: insertSpine a sorted'
      else a :: sorted
  end.

Definition sortSpines (spines : list Spine.t) : list Spine.t :=
  fold_right insertSpine [] spines.

Definition detectBookSpines (regions : list Region.t) : list Spine.t :=
  sortSpines (spineLoop 0 regions ∅ []).

(** The same outer loop, keeping every spine as it stands when the inner
    loop ends, before the title is cleaned and the candidate is accepted
    or dropped.  [spineLoop_candidates] shows that [spineLoop] is this
    list, cleaned and filtered. *)
Fixpoint candidateLoop (i : nat) (rest : list Region.t) (used : gset nat)
    (spines : list Spine.t) : list Spine.t :=
  match rest with
  | [] => spines
  | region :: rest' =>
      if bool_decide (i ∈ used) then candidateLoop (S i) rest' used spines
      else
        let scanned := spineScan region (S i) rest' ({[i]} ∪ used) (seedSpine region) in
        candidateLoop (S i) rest' (fst scanned) (spines ++ [snd scanned])
  end.

Definition spineCandidates (regions : list Region.t) : list Spine.t :=
  candidateLoop 0 regions ∅ [].

(** ** The numeric decisions in binary64

    Three decisions of the source compare numbers that the engine has
    rounded: the aspect tests and the score comparison of
    [determineOrientation], the distance test of [groupWordsIntoRegions]
    and the alignment test of [detectBookSpines].  Near a threshold the
    rounded comparison and the exact one can disagree, so these
    decisions are embedded a second time with the numbers of the engine:
    a [number] is a binary64 float ([float], the primitive type of
    [Floats]), and [+], [-], [*], [/], [Math.sqrt] and [Math.abs] are
    the IEEE 754 operations, each rounding to nearest with ties to even.
    [Math.pow(x, 2)] is the product [x * x], the value the engines
    return for the exponent 2.  The definitions carry the names of the
    source, as above; outside the module they are qualified by [B64]. *)

Module B64.

Local Open Scope float_scope.

(** [x > y]. *)
Definition gtb (x y : float) : bool := y <? x.

(** [Math.min] and [Math.max]: [NaN] if an argument is [NaN], and [-0]
    below [+0]. *)
Definition min (x y : float) : float :=
  if is_nan x || is_nan y then nan
  else if x <? y then x
  else if y <? x then y
  else if get_sign x then x else y.

Definition max (x y : float) : float :=
  if is_nan x || is_nan y then nan
  else if x <? y then y
  else if y <? x then x
  else if get_sign x then y else x.

(** [Math.pow(x, 2)]. *)
Definition sq (x : float) : float := x * x.

Record BBox : Type := mkBBox { x0 : float; y0 : float; x1 : float; y1 : float }.

Module Word.
Record t : Type := mk { text : jsstring; confidence : float; bbox : BBox }.
End Word.

Module Region.
Record t : Type := mk {
  text : jsstring;
  confidence : float;
  bbox : BBox;
  orientation : Orientation;
  words : list Word.t
}.
End Region.

Module Spine.
Record t : Type := mk {
  title : jsstring;
  confidence : float;
  bbox : BBox;
  orientation : Orientation;
  textRegions : list Region.t
}.
End Spine.

Definition centerX (b : BBox) : float := (x0 b + x1 b) / 2.
Definition centerY (b : BBox) : float := (y0 b + y1 b) / 2.
Definition height (b : BBox) : float := y1 b - y0 b.
Definition width (b : BBox) : float := x1 b - x0 b.

Definition expand (b b2 : BBox) : BBox :=
  {| x0 := min (x0 b) (x0 b2);
     y0 := min (y0 b) (y0 b2);
     x1 := max (x1 b) (x1 b2);
     y1 := max (y1 b) (y1 b2) |}.

(** [determineOrientation], l.439-457. *)
Definition scoreWord (scores : float * float) (word : Word.t) : float * float :=
  let width := width (Word.bbox word) in
  let height := height (Word.bbox word) in
  if gtb width (height * 1.5)
  then (fst scores + Word.confidence word, snd scores)
  else if gtb height (width * 1.5)
  then (fst scores, snd scores + Word.confidence word)
  else scores.

Definition determineOrientation (words : list Word.t) : Orientation :=
  if (length words =? 0)%nat then horizontal
  else
    let scores := fold_left scoreWord words (0, 0) in
    if gtb (fst scores) (snd scores) then horizontal else vertical.

(** [groupWordsIntoRegions], l.460-522: [distance] and [avgHeight] are
    the constants of l.487-496. *)
Definition distance (word1 word2 : Word.t) : float :=
  let centerX1 := centerX (Word.bbox word1) in
  let centerY1 := centerY (Word.bbox word1) in
  let centerX2 := centerX (Word.bbox word2) in
  let centerY2 := centerY (Word.bbox word2) in
  PrimFloat.sqrt (sq (centerX2 - centerX1) + sq (centerY2 - centerY1)).

Definition avgHeight (b1 b2 : BBox) : float := (height b1 + height b2) / 2.

(** The test [distance < avgHeight * 2]. *)
Definition wordsClose (word1 word2 : Word.t) : bool :=
  distance word1 word2 <? avgHeight (Word.bbox word1) (Word.bbox word2) * 2.

Definition seedRegion (word : Word.t) : Region.t :=
  {| Region.text := Word.text word;
     Region.confidence := Word.confidence word;
     Region.bbox := Word.bbox word;
     Region.orientation := determineOrientation [word];
     Region.words := [word] |}.

Definition absorbWord (region : Region.t) (word2 : Word.t) : Region.t :=
  {| Region.text := spaced (Region.text region) (Word.text word2);
     Region.confidence := (Region.confidence region + Word.confidence word2) / 2;
     Region.bbox := expand (Region.bbox region) (Word.bbox word2);
     Region.orientation := Region.orientation region;
     Region.words := Region.words region ++ [word2] |}.

Fixpoint regionScan (word1 : Word.t) (j : nat) (rest : list Word.t)
    (used : gset nat) (region : Region.t) : gset nat * Region.t :=
  match rest with
  | [] => (used, region)
  | word2 :: rest' =>
      if bool_decide (j ∈ used) then regionScan word1 (S j) rest' used region
      else if wordsClose word1 word2
      then regionScan word1 (S j) rest' ({[j]} ∪ used) (absorbWord region word2)
      else regionScan word1 (S j) rest' used region
  end.

Definition setOrientation (region : Region.t) (o : Orientation) : Region.t :=
  {| Region.text := Region.text region;
     Region.confidence := Region.confidence region;
     Region.bbox := Region.bbox region;
     Region.orientation := o;
     Region.words := Region.words region |}.

Fixpoint regionLoop (i : nat) (rest : list Word.t) (used : gset nat)
    (regions : list Region.t) : list Region.t :=
  match rest with
  | [] => regions
  | word :: rest' =>
      if bool_decide (i ∈ used) then regionLoop (S i) rest' used regions
      else
        let scanned := regionScan word (S i) rest' ({[i]} ∪ used) (seedRegion word) in
        let region := snd scanned in
        regionLoop (S i) rest' (fst scanned)
          (regions ++ [setOrientation region (determineOrientation (Region.words region))])
  end.

Definition groupWordsIntoRegions (words : list Word.t) : list Region.t :=
  if (length words =? 0)%nat then [] else regionLoop 0 words ∅ [].

(** [detectBookSpines], the inner loop of l.546-586. *)
Definition isVerticallyAligned (region1 region2 : Region.t) : bool :=
  PrimFloat.abs (centerX (Region.bbox region1) - centerX (Region.bbox region2)) <? 50.

Definition isHorizontallyAligned (region1 region2 : Region.t) : bool :=
  PrimFloat.abs (centerY (Region.bbox region1) - centerY (Region.bbox region2)) <? 30.

Definition verticalDistance (region1 region2 : Region.t) : float :=
  let centerY1 := centerY (Region.bbox region1) in
  let centerY2 := centerY (Region.bbox region2) in
  PrimFloat.abs (centerY2 - centerY1).

Definition sameSpine (region1 region2 : Region.t) : bool :=
  let isVerticallyAligned := isVerticallyAligned region1 region2 in
  let isHorizontallyAligned := isHorizontallyAligned region1 region2 in
  let verticalDistance := verticalDistance region1 region2 in
  let avgHeight := avgHeight (Region.bbox region1) (Region.bbox region2) in
  isVerticallyAligned && (verticalDistance <? avgHeight * 3).

Definition seedSpine (region : Region.t) : Spine.t :=
  {| Spine.title := Region.text region;
     Spine.confidence := Region.confidence region;
     Spine.bbox := Region.bbox region;
     Spine.orientation := Region.orientation region;
     Spine.textRegions := [region] |}.

Definition absorbRegion (region1 : Region.t) (spine : Spine.t) (region2 : Region.t) : Spine.t :=
  {| Spine.title :=
       if y0 (Region.bbox region2) <? y0 (Region.bbox region1)
       then spaced (Region.text region2) (Spine.title spine)
       else spaced (Spine.title spine) (Region.text region2);
     Spine.confidence := (Spine.confidence spine + Region.confidence region2) / 2;
     Spine.bbox := expand (Spine.bbox spine) (Region.bbox region2);
     Spine.orientation := Spine.orientation spine;
     Spine.textRegions := Spine.textRegions spine ++ [region2] |}.

Fixpoint spineScan (region1 : Region.t) (j : nat) (rest : list Region.t)
    (used : gset nat) (spine : Spine.t) : gset nat * Spine.t :=
  match rest with
  | [] => (used, spine)
  | region2 :: rest' =>
      if bool_decide (j ∈ used) then spineScan region1 (S j) rest' used spine
      else if sameSpine region1 region2
      then spineScan region1 (S j) rest' ({[j]} ∪ used) (absorbRegion region1 spine region2)
      else spineScan region1 (S j) rest' used spine
  end.

(** *** Definitions used to state the properties *)

Definition isWide (word : Word.t) : bool :=
  gtb (width (Word.bbox word)) (height (Word.bbox word) * 1.5).

Definition isTall (word : Word.t) : bool :=
  gtb (height (Word.bbox word)) (width (Word.bbox word) * 1.5).

(** The confidences of [words] added to [score] one after the other, in
    the order of the list, each sum rounded. *)
Definition addConfidences (score : float) (words : list Word.t) : float :=
  fold_left (fun score word => score + Word.confidence word) words score.

(** The orientation as the specification words it: every wide word adds
    to one score, every tall word to the other. *)
Definition independentOrientation (words : list Word.t) : Orientation :=
  match words with
  | [] => horizontal
  | _ =>
      if gtb (addConfidences 0 (List.filter isWide words))
             (addConfidences 0 (List.filter isTall words))
      then horizontal else vertical
  end.

(** The same with the second test applied to the words that fail the
    first. *)
Definition referenceOrientation (words : list Word.t) : Orientation :=
  match words with
  | [] => horizontal
  | _ =>
      if gtb (addConfidences 0 (List.filter isWide words))
             (addConfidences 0
                (List.filter (fun word => negb (isWide word) && isTall word) words))
      then horizontal else vertical
  end.

(** *** Sample inputs *)

Definition box (a b c d : float) : BBox := mkBBox a b c d.

Definition harry : Word.t := Word.mk (of_string "Harry") 90 (box 0 0 50 20).
Definition potter : Word.t := Word.mk (of_string "Potter") 90 (box 55 0 110 20).
Definition harry30 : Word.t := Word.mk (of_string "Harry") 90 (box 0 0 30 20).
Definition potter62 : Word.t := Word.mk (of_string "Potter") 90 (box 32 0 62 20).

(** Three words in a row: the middle one is near both ends, the ends are
    not near each other. *)
Definition leftWord : Word.t := Word.mk (of_string "Left") 90 (box 0 0 30 20).
Definition rightWord : Word.t := Word.mk (of_string "Right") 90 (box 64 0 94 20).
Definition centreWord : Word.t := Word.mk (of_string "Centre") 90 (box 32 0 62 20).

(** Two words whose centres are exactly 3 apart, with heights a little
    above 1.5 that round to 1.5. *)
Definition lowWord : Word.t := Word.mk (of_string "ab") 90 (box 0 0.1 2 1.6).
Definition lowNeighbour : Word.t := Word.mk (of_string "cd") 90 (box 3 0.1 5 1.6).

(** Two words whose distance rounds below twice their mean height. *)
Definition cornerWord : Word.t := Word.mk (of_string "ab") 90 (box 0 0 1 1.7).
Definition farWord : Word.t := Word.mk (of_string "cd") 90 (box 1.6 3 2.6 4.7).

(** Two regions, one above the other, whose vertical distance is exactly
    3 times their mean height. *)
Definition upperRegion : Region.t :=
  seedRegion (Word.mk (of_string "Upper") 90 (box 0 0 10 0.6)).
Definition lowerRegion : Region.t :=
  seedRegion (Word.mk (of_string "Lower") 90 (box 0 1.5 10 1.8)).

(** Two regions of one spine, one well above the other. *)
Definition bottomRegion : Region.t :=
  seedRegion (Word.mk (of_string "Bottom") 90 (box 100 100 150 130)).
Definition topRegion : Region.t :=
  seedRegion (Word.mk (of_string "Top") 80 (box 52 20 102 50)).

(** Three regions in a row: the x-centre of the middle one is within 50
    of both ends, the ends are 80 apart. *)
Definition leftRegion : Region.t := seedRegion (Word.mk (of_string "Left") 90 (box 0 0 20 20)).
Definition rightRegion : Region.t := seedRegion (Word.mk (of_string "Right") 90 (box 80 0 100 20)).
Definition centreRegion : Region.t := seedRegion (Word.mk (of_string "Centre") 90 (box 40 0 60 20)).

(** A box with negative width and height, and a box whose width is 1.8
    and whose height rounds to 1.2. *)
Definition malformedWord : Word.t := Word.mk (of_string "ab") 10 (box 1 1 0 0).
Definition roundedWord : Word.t := Word.mk (of_string "ab") 90 (box 0 0.1 1.8 1.3).

(** A near-square box. *)
Definition squareWord : Word.t := Word.mk (of_string "ab") 90 (box 0 0 20 20).

(** Three wide and three tall words whose confidences are the same three
    numbers in opposite orders. *)
Definition wideWord (confidence : float) : Word.t :=
  Word.mk (of_string "ab") confidence (box 0 0 40 10).
Definition tallWord (confidence : float) : Word.t :=
  Word.mk (of_string "ab") confidence (box 0 0 10 40).
Definition tiedWords : list Word.t :=
  [wideWord 0.1; wideWord 0.2; wideWord 0.3; tallWord 0.3; tallWord 0.2; tallWord 0.1].

End B64.

(** The exact value of a finite binary64 number; the inputs of the
    examples are finite. *)
Definition exact (x : float) : Q :=
  match Prim2SF x with
  | S754_finite s m e =>
      let v := if s then Z.neg m else Z.pos m in
      if (0 <=? e)%Z then inject_Z (v * 2 ^ e) else Qmake v (2 ^ Z.to_pos (- e))
  | _ => 0
  end.

Definition exactBox (b : B64.BBox) : BBox :=
  {| x0 := exact (B64.x0 b); y0 := exact (B64.y0 b);
     x1 := exact (B64.x1 b); y1 := exact (B64.y1 b) |}.

Definition exactWord (word : B64.Word.t) : Word.t :=
  {| Word.text := B64.Word.text word;
     Word.confidence := exact (B64.Word.confidence word);
     Word.bbox := exactBox (B64.Word.bbox word) |}.

(** ** Sample inputs *)

Definition box (a b c d : Q) : BBox := mkBBox a b c d.

Definition harry : Word.t := Word.mk (of_string "Harry") 90 (box 0 0 50 20).
Definition potter : Word.t := Word.mk (of_string "Potter") 90 (box 55 0 110 20).
Definition harry30 : Word.t := Word.mk (of_string "Harry") 90 (box 0 0 30 20).
Definition potter62 : Word.t := Word.mk (of_string "Potter") 90 (box 32 0 62 20).

(** A point (zero width, zero height) and a flat box (zero height only). *)
Definition pointWord : Word.t := Word.mk (of_string "ab") 90 (box 10 10 10 10).
Definition flatWord : Word.t := Word.mk (of_string "ab") 90 (box 0 10 40 10).

(** Three words of one spine, given bottom first: they are too far apart
    to share a region, and their regions are aligned with the first. *)
Definition bottomWord : Word.t := Word.mk (of_string "Bottom") 90 (box 100 100 150 130).
Definition topWord : Word.t := Word.mk (of_string "Top") 80 (box 52 20 102 50).
Definition middleWord : Word.t := Word.mk (of_string "Middle") 70 (box 148 35 198 65).
Definition shelfWords : list Word.t := [bottomWord; topWord; middleWord].
Definition shelfRegions : list Region.t := groupWordsIntoRegions shelfWords.
Definition shelfSpine : Spine.t :=
  hd (seedSpine (seedRegion bottomWord)) (spineCandidates shelfRegions).

(** Three words in a row: the middle one is near both ends, the ends are
    not near each other. *)
Definition leftWord : Word.t := Word.mk (of_string "Left") 90 (box 0 0 30 20).
Definition rightWord : Word.t := Word.mk (of_string "Right") 90 (box 64 0 94 20).
Definition centreWord : Word.t := Word.mk (of_string "Centre") 90 (box 32 0 62 20).

(** ** Definitions used to state the properties *)

(** The invariant of a bounding box in the data model. *)
Definition wellFormed (b : BBox) : Prop := x0 b <= x1 b /\ y0 b <= y1 b.

Definition isWide (word : Word.t) : bool :=
  Num.gtb (width (Word.bbox word)) (height (Word.bbox word) * (3 # 2)).

Definition isTall (word : Word.t) : bool :=
  Num.gtb (height (Word.bbox word)) (width (Word.bbox word) * (3 # 2)).

Definition sumConfidence (words : list Word.t) : Q :=
  fold_right (fun word acc => Word.confidence word + acc) 0 words.

(** The smallest and the largest number of a list (0 for the empty list,
    which no region and no spine has). *)
Definition minimum (l : list Q) : Q :=
  match l with
  | [] => 0
  | c :: l' => fold_left Num.min l' c
  end.

Definition maximum (l : list Q) : Q :=
  match l with
  | [] => 0
  | c :: l' => fold_left Num.max l' c
  end.

(** The invariant of the running average: whatever interval holds the
    confidences of the members holds the confidence of the aggregate. *)
Definition averaged {A : Type} (conf : A -> Q) (members : list A) (c : Q) : Prop :=
  members <> [] /\
  forall lo hi, Forall (fun a => lo <= conf a <= hi) members -> lo <= c <= hi.

Definition wordConfidences (region : Region.t) : list Q :=
  List.map Word.confidence (Region.words region).

Definition regionConfidences (spine : Spine.t) : list Q :=
  List.map Region.confidence (Spine.textRegions spine).

(** [region] starts above the seed: the test of the title branch. *)
Definition above (seed region : Region.t) : bool :=
  Num.ltb (y0 (Region.bbox region)) (y0 (Region.bbox seed)).

(** The order of the region texts in the title of a spine: the merged
    regions that start above the seed, last merged first, then the seed,
    then the other merged regions in merge order. *)
Definition titleOrder (seed : Region.t) (merged : list Region.t) : list Region.t :=
  rev (List.filter (above seed) merged)
  ++ seed :: List.filter (fun region => negb (above seed region)) merged.

(** The texts of the regions of a spine stand in its title from top to
    bottom: the title is the texts of the regions, joined in some order
    in which [y0] never decreases. *)
Definition textsTopToBottom (spine : Spine.t) : Prop :=
  exists order : list Region.t,
    Permutation order (Spine.textRegions spine) /\
    Sorted (fun a b => y0 (Region.bbox a) <= y0 (Region.bbox b)) order /\
    Spine.title spine = join space (List.map Region.text order).

(** The characters the specification lists for a cleaned title: ASCII
    letters, digits, space, hyphen, colon, ampersand, apostrophe, period
    and comma. *)
Definition listedChar (c : N) : bool :=
  between 65 90 c || between 97 122 c || isDigit c || (c =? space)%N || isTitlePunct c.

(** The characters a cleaned title is made of: the listed ones and the
    underscore, which [\w] contains. *)
Definition titleChar (c : N) : bool := listedChar c || (c =? 95)%N.

(** A token of a cleaned title: longer than one unit, made of kept
    characters, none of them white. *)
Definition goodToken (token : jsstring) : Prop :=
  (1 < length token)%nat /\
  Forall (fun c => keepChar c = true /\ isWhite c = false) token.

Definition startsWithDigit (s : jsstring) : bool :=
  match s with
  | c :: _ => isDigit c
  | [] => false
  end.

(** The two grouping passes share one shape: an outer loop over seeds
    and an inner scan over the later, not yet consumed elements.  The
    shape is written once here, for an arbitrary closeness test and
    merge step; [regionScan_scan], [spineScan_scan], [regionLoop_loop]
    and [candidateLoop_loop] show that the loops of the source are
    instances of it. *)
Section ScanShape.
Context {A T : Type}.
Variable close : A -> bool.
Variable absorb : T -> A -> T.

Fixpoint scan (j : nat) (rest : list A) (used : gset nat) (st : T) : gset nat * T :=
  match rest with
  | [] => (used, st)
  | a :: rest' =>
      if bool_decide (j ∈ used) then scan (S j) rest' used st
      else if close a then scan (S j) rest' ({[j]} ∪ used) (absorb st a)
      else scan (S j) rest' used st
  end.

(** The elements a scan merges: not consumed before and close to the seed. *)
Fixpoint picks (j : nat) (rest : list A) (used : gset nat) : list A :=
  match rest with
  | [] => []
  | a :: rest' =>
      if bool_decide (j ∈ used) then picks (S j) rest' used
      else if close a then a :: picks (S j) rest' used
      else picks (S j) rest' used
  end.

End ScanShape.

(** The elements of [rest] (which starts at index [j]) that are not
    consumed. *)
Fixpoint unused {A : Type} (j : nat) (rest : list A) (used : gset nat) : list A :=
  match rest with
  | [] => []
  | a :: rest' =>
      if bool_decide (j ∈ used) then unused (S j) rest' used
      else a :: unused (S j) rest' used
  end.

Section LoopShape.
Context {A T : Type}.
Variable close : A -> A -> bool.
Variable absorb : A -> T -> A -> T.
Variable seed : A -> T.
Variable finish : T -> T.

Fixpoint loop (i : nat) (rest : list A) (used : gset nat) (out : list T) : list T :=
  match rest with
  | [] => out
  | a :: rest' =>
      if bool_decide (i ∈ used) then loop (S i) rest' used out
      else
        let scanned := scan (close a) (absorb a) (S i) rest' ({[i]} ∪ used) (seed a) in
        loop (S i) rest' (fst scanned) (out ++ [finish (snd scanned)])
  end.

End LoopShape.

(** The region as it is pushed: orientation recomputed from its words. *)
Definition finishRegion (region : Region.t) : Region.t :=
  setOrientation region (determineOrientation (Region.words region)).

(** The indices a scan has marked when it ends, and the groups the outer
    loop forms: each seed with the elements its scan merges.  Both depend
    on the closeness test only. *)
Section GroupShape.
Context {A : Type}.

Fixpoint marks (close : A -> bool) (j : nat) (rest : list A) (used : gset nat) : gset nat :=
  match rest with
  | [] => used
  | a :: rest' =>
      if bool_decide (j ∈ used) then marks close (S j) rest' used
      else if close a then marks close (S j) rest' ({[j]} ∪ used)
      else marks close (S j) rest' used
  end.

Fixpoint groups (close : A -> A -> bool) (i : nat) (rest : list A) (used : gset nat)
    : list (A * list A) :=
  match rest with
  | [] => []
  | a :: rest' =>
      if bool_decide (i ∈ used) then groups close (S i) rest' used
      else (a, picks (close a) (S i) rest' ({[i]} ∪ used))
           :: groups close (S i) rest' (marks (close a) (S i) rest' ({[i]} ∪ used))
  end.

End GroupShape.

(** The region and the spine candidate built from a seed and the
    elements merged into it. *)
Definition buildRegion (group : Word.t * list Word.t) : Region.t :=
  finishRegion (fold_left absorbWord (snd group) (seedRegion (fst group))).

Definition buildSpine (group : Region.t * list Region.t) : Spine.t :=
  fold_left (absorbRegion (fst group)) (snd group) (seedSpine (fst group)).

(** [inner] lies inside [outer]. *)
Definition contains (outer inner : BBox) : Prop :=
  x0 outer <= x0 inner /\ y0 outer <= y0 inner /\
  x1 inner <= x1 outer /\ y1 inner <= y1 outer.

(** The smallest box around a list of boxes. *)
Definition boundingBox (boxes : list BBox) : BBox :=
  {| x0 := minimum (List.map x0 boxes);
     y0 := minimum (List.map y0 boxes);
     x1 := maximum (List.map x1 boxes);
     y1 := maximum (List.map y1 boxes) |}.

(** ** The words [processBookshelfImage] hands to the grouping passes

    After the recognition call the method does not read word boxes from
    the engine: it splits the recognised text into lines and words and
    places the words on a grid of cells 50 wide and 30 high. *)

(** [s.split(/\s+/)]: the pieces between the maximal runs of white
    space; a run at either end leaves an empty piece there. *)
Fixpoint splitWhiteFrom (inRun : bool) (s : jsstring) : list jsstring :=
  match s with
  | [] => [[]]
  | c :: s' =>
      if isWhite c
      then (if inRun then splitWhiteFrom true s' else [] :: splitWhiteFrom true s')
      else match splitWhiteFrom false s' with
           | t :: ts => (c :: t) :: ts
           | [] => [[c]]
           end
  end.

Definition splitWhite (s : jsstring) : list jsstring := splitWhiteFrom false s.

Definition newline : N := 10.

(** [text.split('\n').filter(line => line.trim().length > 0)]. *)
Definition textLines (text : jsstring) : list jsstring :=
  List.filter (fun line => (0 <? length (trim line))%nat) (split newline text).

(** An array index as a number. *)
Definition num (n : nat) : Q := inject_Z (Z.of_nat n).

(** The object pushed for [word] at [wordIndex] in line [lineIndex].
    Its confidence is [Math.max(60, Math.random() * 40 + 60)]; [random]
    is the number the second argument evaluates to, product and sum
    rounded by the engine.  It depends on the value [Math.random]
    returns and on nothing else, and the embedding assumes nothing
    about it. *)
Definition mockWord (random : Q) (word : jsstring) (lineIndex wordIndex : nat) : Word.t :=
  {| Word.text := word;
     Word.confidence := Num.max 60 random;
     Word.bbox := {| x0 := num wordIndex * 50;
                     y0 := num lineIndex * 30;
                     x1 := (num wordIndex + 1) * 50;
                     y1 := (num lineIndex + 1) * 30 |} |}.

(** [lineWords.forEach((word, wordIndex) => ...)], from [wordIndex] on.
    [Math.random] is called once for each word pushed and nowhere else,
    so the call for the next word is call number [words.length]:
    [random k] stands for the value of [Math.random() * 40 + 60] at
    call [k]. *)
Fixpoint pushLineWords (random : nat -> Q) (lineIndex wordIndex : nat)
    (lineWords : list jsstring) (words : list Word.t) : list Word.t :=
  match lineWords with
  | [] => words
  | word :: lineWords' =>
      pushLineWords random lineIndex (S wordIndex) lineWords'
        (if (1 <? length word)%nat
         then words ++ [mockWord (random (length words)) word lineIndex wordIndex]
         else words)
  end.

(** [textLines.forEach((line, lineIndex) => ...)], from [lineIndex] on. *)
Fixpoint pushLines (random : nat -> Q) (lineIndex : nat)
    (lines : list jsstring) (words : list Word.t) : list Word.t :=
  match lines with
  | [] => words
  | line :: lines' =>
      pushLines random (S lineIndex) lines'
        (pushLineWords random lineIndex 0 (splitWhite (trim line)) words)
  end.

Definition mockWords (random : nat -> Q) (text : jsstring) : list Word.t :=
  pushLines random 0 (textLines text) [].

(** What [processBookshelfImage] computes from the recognised text:
    [bookSpines] and [textRegions]. *)
Definition processText (random : nat -> Q) (text : jsstring)
    : list Spine.t * list Region.t :=
  let words := mockWords random text in
  let textRegions := groupWordsIntoRegions words in
  let bookSpines := detectBookSpines textRegions in
  (bookSpines, textRegions).

(** The tokens of a line that are pushed, those of more than one code
    unit, each with the index of the line and its own index among the
    tokens of the line. *)
Definition lineCells (lineIndex : nat) (line : jsstring) : list (jsstring * nat * nat) :=
  List.filter (fun '(word, _, _) => (1 <? length word)%nat)
    (imap (fun wordIndex word => (word, lineIndex, wordIndex)) (splitWhite (trim line))).

Definition cells (text : jsstring) : list (jsstring * nat * nat) :=
  concat (imap lineCells (textLines text)).

(** The word pushed at call [k] for a token. *)
Definition cellWord (random : nat -> Q) (k : nat) (cell : jsstring * nat * nat) : Word.t :=
  let '(word, lineIndex, wordIndex) := cell in
  mockWord (random k) word lineIndex wordIndex.

(** A word that sits in the grid cell of column [column] and line [line]. *)
Definition inCell (word : Word.t) (line column : nat) : Prop :=
  Word.bbox word
  = {| x0 := num column * 50; y0 := num line * 30;
       x1 := (num column + 1) * 50; y1 := (num line + 1) * 30 |}.

(** The property every synthesized word has. *)
Definition synthesized (random : nat -> Q) (word : Word.t) : Prop :=
  (exists line column, inCell word line column) /\
  (exists k, Word.confidence word = Num.max 60 (random k)) /\
  (1 < length (Word.text word))%nat /\
  Forall (fun c => isWhite c = false) (Word.text word).

(** The words pushed so far are in line order and none lies below the
    current line. *)
Definition inLineOrder (lineIndex : nat) (words : list Word.t) : Prop :=
  StronglySorted (fun a b => y0 (Word.bbox a) <= y0 (Word.bbox b)) words /\
  Forall (fun word => y0 (Word.bbox word) <= num lineIndex * 30) words.

(** ** The colours of [createVisualization] *)

(** The integer part of a number (rounding towards zero). *)
Definition trunc (x : Q) : Z := Z.quot (Qnum x) (Z.pos (Qden x)).

(** [x % m] on numbers: the remainder has the sign of [x]. *)
Definition remainder (x m : Q) : Q := x - m * inject_Z (trunc (x / m)).

(** The hue of the spine drawn at [index]: [(index * 137.5) % 360]. *)
Definition hue (index : nat) : Q := remainder (num index * (275 # 2)) 360.

(** ** Spreadsheet import and export (excelService)

    The rows of a sheet are the objects [XLSX.utils.sheet_to_json]
    returns: their cells are strings, numbers or booleans, typed [any].
    A row is the list of its properties; reading a property that is not
    there gives [undefined] ([None]). *)

Module Excel.

Inductive Cell : Type :=
  | CStr (s : jsstring)
  | CNum (q : Q)
  | CBool (b : bool).

(** A JavaScript value of the kinds that occur here; [None] is
    [undefined]. *)
Abbreviation Value := (option Cell).

Abbreviation Row := (list (string * Value)).

Fixpoint get (row : Row) (key : string) : Value :=
  match row with
  | [] => None
  | (k, v) :: row' => if String.eqb k key then v else get row' key
  end.

(** Truthiness: [undefined], the empty string, [0] and [false] are falsy. *)
Definition truthy (v : Value) : bool :=
  match v with
  | None => false
  | Some (CStr s) => negb (length s =? 0)%nat
  | Some (CNum q) => negb (Qeq_bool q 0)
  | Some (CBool b) => b
  end.

(** [a || b]. *)
Definition orElse (a b : Value) : Value := if truthy a then a else b.

Definition str (s : string) : Value := Some (CStr (of_string s)).

Module Book.
Record t : Type := mk {
  id : Value; title : Value; author : Value; description : Value;
  imageUrl : Value; isbn : Value; publishedDate : Value; genre : Value;
  isAvailable : bool;
  borrowedBy : Value; borrowedDate : Value; sourceUrl : Value
}.
End Book.

Module User.
Record t : Type := mk {
  id : Value; name : Value; email : Value; phone : Value;
  registrationDate : Value; borrowedBooks : list jsstring
}.
End User.

(** The messages pushed on [result.errors]: "Books sheet not found in
    Excel file", "Users sheet not found in Excel file", "Invalid book
    data: Missing title or author in row", "Invalid user data: Missing
    name or email in row", and the two "Error processing ... row: ..."
    messages of the [catch] blocks, whose tail is the text of the thrown
    error. *)
Inductive ImportError : Type :=
  | BooksSheetNotFound
  | UsersSheetNotFound
  | InvalidBook
  | InvalidUser
  | BookRowThrew
  | UserRowThrew.

Module Result.
Record t : Type := mk {
  books : list Book.t; users : list User.t; errors : list ImportError
}.
End Result.

(** Strict equality of two strings: the same code units. *)
Fixpoint sameString (a b : jsstring) : bool :=
  match a, b with
  | [], [] => true
  | x :: a', y :: b' => (x =? y)%N && sameString a' b'
  | _, _ => false
  end.

(** [value === 'Yes']. *)
Definition isYes (v : Value) : bool :=
  match v with
  | Some (CStr s) => sameString s (of_string "Yes")
  | _ => false
  end.

(** The object literal built for a row of the Books sheet; [newId] is
    what [generateId()] returns if it is called for this row. *)
Definition bookOfRow (newId : jsstring) (row : Row) : Book.t :=
  {| Book.id := orElse (get row "ID") (Some (CStr newId));
     Book.title := orElse (get row "Title") (str "Unknown Title");
     Book.author := orElse (get row "Author") (str "Unknown Author");
     Book.description := orElse (get row "Description") (str "");
     Book.imageUrl := orElse (get row "Image URL") (str "");
     Book.isbn := orElse (get row "ISBN") (str "");
     Book.publishedDate := orElse (get row "Published Date") (str "");
     Book.genre := orElse (get row "Genre") (str "");
     Book.isAvailable := isYes (get row "Is Available");
     Book.borrowedBy := orElse (get row "Borrowed By") None;
     Book.borrowedDate := orElse (get row "Borrowed Date") None;
     Book.sourceUrl := orElse (get row "Source URL") None |}.

(** One turn of [for (const row of booksData)]: no expression of the
    [try] block can throw, so the [catch] is not reached. *)
Definition importBookRow (newId : jsstring) (result : Result.t) (row : Row) : Result.t :=
  let book := bookOfRow newId row in
  if negb (truthy (Book.title book)) || negb (truthy (Book.author book))
  then {| Result.books := Result.books result;
          Result.users := Result.users result;
          Result.errors := Result.errors result ++ [InvalidBook] |}
  else {| Result.books := Result.books result ++ [book];
          Result.users := Result.users result;
          Result.errors := Result.errors result |}.

Definition prepend (c : N) (pieces : list jsstring) : list jsstring :=
  match pieces with
  | t :: ts => (c :: t) :: ts
  | [] => [[c]]
  end.

(** [s.split(', ')]: cut at each comma followed by a space, leftmost
    first. *)
Fixpoint splitCommaSpace (s : jsstring) : list jsstring :=
  match s with
  | [] => [[]]
  | c :: s' =>
      match s' with
      | d :: s'' =>
          if ((c =? 44) && (d =? 32))%N then [] :: splitCommaSpace s''
          else prepend c (splitCommaSpace s')
      | [] => [[c]]
      end
  end.

(** [ids.join(', ')]. *)
Fixpoint joinCommaSpace (ids : list jsstring) : jsstring :=
  match ids with
  | [] => []
  | [id] => id
  | id :: ids' => id ++ 44%N :: 32%N :: joinCommaSpace ids'
  end.

(** [id => id.trim()] as a filter: the trimmed string is not empty. *)
Definition notBlank (id : jsstring) : bool := negb (length (trim id) =? 0)%nat.

(** [cell ? cell.split(', ').filter(id => id.trim()) : []]; a truthy cell
    that is not a string has no [split] method and the call throws a
    [TypeError] ([None]). *)
Definition borrowedBooksOf (cell : Value) : option (list jsstring) :=
  if truthy cell
  then match cell with
       | Some (CStr s) => Some (List.filter notBlank (splitCommaSpace s))
       | _ => None
       end
  else Some [].

(** The object literal built for a row of the Users sheet, when no
    property throws; [newId] and [now] are what [generateId()] and
    [new Date().toISOString()] return if they are called for this row. *)
Definition userOfRow (newId now : jsstring) (row : Row) : option User.t :=
  match borrowedBooksOf (get row "Borrowed Book IDs") with
  | Some ids =>
      Some {| User.id := orElse (get row "ID") (Some (CStr newId));
              User.name := orElse (get row "Name") (str "Unknown User");
              User.email := orElse (get row "Email") (str "");
              User.phone := orElse (get row "Phone") (str "");
              User.registrationDate := orElse (get row "Registration Date") (Some (CStr now));
              User.borrowedBooks := ids |}
  | None => None
  end.

(** One turn of [for (const row of usersData)]. *)
Definition importUserRow (newId now : jsstring) (result : Result.t) (row : Row) : Result.t :=
  match userOfRow newId now row with
  | Some user =>
      if negb (truthy (User.name user)) || negb (truthy (User.email user))
      then {| Result.books := Result.books result;
              Result.users := Result.users result;
              Result.errors := Result.errors result ++ [InvalidUser] |}
      else {| Result.books := Result.books result;
              Result.users := Result.users result ++ [user];
              Result.errors := Result.errors result |}
  | None =>
      {| Result.books := Result.books result;
         Result.users := Result.users result;
         Result.errors := Result.errors result ++ [UserRowThrew] |}
  end.

(** The rows of a sheet are numbered; [newId i] and [now i] are the
    values of the calls made while row [i] is processed. *)
Fixpoint importRows (step : nat -> Result.t -> Row -> Result.t) (i : nat)
    (rows : list Row) (result : Result.t) : Result.t :=
  match rows with
  | [] => result
  | row :: rows' => importRows step (S i) rows' (step i result row)
  end.

(** A workbook as [importFromExcel] reads it: the sheets by name. *)
Abbreviation Workbook := (list (string * list Row)).

Fixpoint sheet (workbook : Workbook) (name : string) : option (list Row) :=
  match workbook with
  | [] => None
  | (n, rows) :: workbook' => if String.eqb n name then Some rows else sheet workbook' name
  end.

(** The body of [reader.onload], after [XLSX.read]. *)
Definition importWorkbook (bookId userId now : nat -> jsstring) (workbook : Workbook)
    : Result.t :=
  let result := {| Result.books := []; Result.users := []; Result.errors := [] |} in
  let result :=
    match sheet workbook "Books" with
    | Some booksData => importRows (fun i => importBookRow (bookId i)) 0 booksData result
    | None => {| Result.books := Result.books result;
                 Result.users := Result.users result;
                 Result.errors := Result.errors result ++ [BooksSheetNotFound] |}
    end in
  match sheet workbook "Users" with
  | Some usersData =>
      importRows (fun i => importUserRow (userId i) (now i)) 0 usersData result
  | None => {| Result.books := Result.books result;
               Result.users := Result.users result;
               Result.errors := Result.errors result ++ [UsersSheetNotFound] |}
  end.

(** The row [exportUsersToExcel] and [exportToExcel] write for a user. *)
Definition exportUserRow (user : User.t) : Row :=
  [ ("ID"%string, User.id user);
    ("Name"%string, User.name user);
    ("Email"%string, User.email user);
    ("Phone"%string, User.phone user);
    ("Registration Date"%string, User.registrationDate user);
    ("Borrowed Books Count"%string,
       Some (CNum (inject_Z (Z.of_nat (length (User.borrowedBooks user))))));
    ("Borrowed Book IDs"%string, Some (CStr (joinCommaSpace (User.borrowedBooks user)))) ].

(** The row [exportBooksToExcel] and [exportToExcel] write for a book. *)
Definition exportBookRow (book : Book.t) : Row :=
  [ ("ID"%string, Book.id book);
    ("Title"%string, Book.title book);
    ("Author"%string, Book.author book);
    ("Description"%string, orElse (Book.description book) (str ""));
    ("Image URL"%string, orElse (Book.imageUrl book) (str ""));
    ("ISBN"%string, orElse (Book.isbn book) (str ""));
    ("Published Date"%string, orElse (Book.publishedDate book) (str ""));
    ("Genre"%string, orElse (Book.genre book) (str ""));
    ("Is Available"%string, if Book.isAvailable book then str "Yes" else str "No");
    ("Borrowed By"%string, orElse (Book.borrowedBy book) (str ""));
    ("Borrowed Date"%string, orElse (Book.borrowedDate book) (str ""));
    ("Source URL"%string, orElse (Book.sourceUrl book) (str "")) ].

(** A cell [split] can be called on without throwing, or a falsy one on
    which it is not called. *)
Definition splittable (cell : Value) : bool :=
  negb (truthy cell) || match cell with Some (CStr _) => true | _ => false end.

Definition isString (v : Value) : Prop := exists s, v = Some (CStr s).

(** Two rows hold the same data when every property that is truthy in
    one is the same value in the other: what a spreadsheet keeps of a
    row (empty cells may come back as missing properties). *)
Definition sameCells (row row' : Row) : Prop :=
  forall key, orElse (get row' key) None = orElse (get row key) None.

End Excel.

(** The counts of the Summary sheet of [exportToExcel], in the order of
    its rows: total, available and borrowed books, total users, active
    borrowers (the export date is left out). *)
Definition summaryCounts (books : list Excel.Book.t) (users : list Excel.User.t)
    : list (string * nat) :=
  [ ("Total Books"%string, length books);
    ("Available Books"%string, length (List.filter Excel.Book.isAvailable books));
    ("Borrowed Books"%string,
       length (List.filter (fun b => negb (Excel.Book.isAvailable b)) books));
    ("Total Users"%string, length users);
    ("Active Borrowers"%string,
       length (List.filter (fun u => (0 <? length (Excel.User.borrowedBooks u))%nat) users)) ].

(** The number a metric has in the summary (0 when it is not there). *)
Fixpoint metric (counts : list (string * nat)) (name : string) : nat :=
  match counts with
  | [] => 0
  | (n, value) :: counts' => if String.eqb n name then value else metric counts' name
  end.

(** A user and a book as the application stores them. *)
Definition sampleUser : Excel.User.t :=
  {| Excel.User.id := Excel.str "user-1";
     Excel.User.name := Excel.str "Ada";
     Excel.User.email := Excel.str "ada@example.com";
     Excel.User.phone := Excel.str "";
     Excel.User.registrationDate := Excel.str "2024-01-01T00:00:00.000Z";
     Excel.User.borrowedBooks := [of_string "book-1"; of_string "book-3"] |}.

Definition sampleBook : Excel.Book.t :=
  {| Excel.Book.id := Excel.str "book-3";
     Excel.Book.title := Excel.str "1984";
     Excel.Book.author := Excel.str "George Orwell";
     Excel.Book.description := Excel.str "";
     Excel.Book.imageUrl := Excel.str "";
     Excel.Book.isbn := Excel.str "978-0-452-28423-4";
     Excel.Book.publishedDate := Excel.str "";
     Excel.Book.genre := Excel.str "Science Fiction";
     Excel.Book.isAvailable := false;
     Excel.Book.borrowedBy := Excel.str "user-1";
     Excel.Book.borrowedDate := None;
     Excel.Book.sourceUrl := None |}.

(** ** Facts about numbers *)

Lemma ltb_lt x y : Num.ltb x y = true <-> x < y.
Proof.
  unfold Num.ltb. rewrite negb_true_iff.
  destruct (Qle_bool y x) eqn:E.
  - apply Qle_bool_iff in E. split; [discriminate | intros H; lra].
  - split; [intros _ | reflexivity].
    destruct (Qlt_le_dec x y) as [H|H]; [exact H|].
    apply Qle_bool_iff in H. congruence.
Qed.

Lemma ltb_ge x y : Num.ltb x y = false <-> y <= x.
Proof. unfold Num.ltb. rewrite negb_false_iff. apply Qle_bool_iff. Qed.

Lemma gtb_gt x y : Num.gtb x y = true <-> y < x.
Proof. apply ltb_lt. Qed.

Lemma gtb_le x y : Num.gtb x y = false <-> x <= y.
Proof. apply ltb_ge. Qed.

Lemma ltb_compat x x' y y' : x == x' -> y == y' -> Num.ltb x y = Num.ltb x' y'.
Proof.
  intros Hx Hy. destruct (Num.ltb x' y') eqn:E.
  - apply ltb_lt in E. apply ltb_lt. lra.
  - apply ltb_ge in E. apply ltb_ge. lra.
Qed.

Lemma half_mul x : x / 2 == x * (1 # 2).
Proof. reflexivity. Qed.

Lemma average_between lo hi a b :
  lo <= a <= hi -> lo <= b <= hi -> lo <= (a + b) / 2 <= hi.
Proof. intros Ha Hb. rewrite half_mul. lra. Qed.

Lemma min_le_l x y : Num.min x y <= x.
Proof.
  unfold Num.min. destruct (Qle_bool x y) eqn:E; [lra|].
  apply ltb_ge. unfold Num.ltb. destruct (Qle_bool y x) eqn:E'; [reflexivity|].
  exfalso. destruct (Qlt_le_dec x y) as [H|H].
  - assert (x <= y) as H' by lra. apply Qle_bool_iff in H'. congruence.
  - apply Qle_bool_iff in H. congruence.
Qed.

Lemma min_le_r x y : Num.min x y <= y.
Proof.
  unfold Num.min. destruct (Qle_bool x y) eqn:E; [|lra].
  now apply Qle_bool_iff.
Qed.

Lemma max_ge_l x y : x <= Num.max x y.
Proof.
  unfold Num.max. destruct (Qle_bool x y) eqn:E; [|lra].
  now apply Qle_bool_iff.
Qed.

Lemma max_ge_r x y : y <= Num.max x y.
Proof.
  unfold Num.max. destruct (Qle_bool x y) eqn:E; [lra|].
  destruct (Qlt_le_dec x y) as [H|H]; [|exact H].
  assert (x <= y) as H' by lra. apply Qle_bool_iff in H'. congruence.
Qed.

Lemma abs_Qabs x : Num.abs x == Qabs x.
Proof.
  unfold Num.abs. destruct (Qle_bool 0 x) eqn:E.
  - apply Qle_bool_iff in E. now rewrite Qabs_pos.
  - assert (Num.ltb x 0 = true) as H by (unfold Num.ltb; now rewrite E).
    apply ltb_lt in H. rewrite Qabs_neg; [reflexivity | lra].
Qed.

Lemma sq_nonneg x : 0 <= Num.sq x.
Proof. unfold Num.sq. nra. Qed.

(** The rational test [sqrt_ltb] is the comparison of the real square
    root with the bound. *)
Lemma sqrt_ltb_real s t :
  0 <= s -> (Num.sqrt_ltb s t = true <-> (sqrt (Q2R s) < Q2R t)%R).
Proof.
  intros Hs. apply Qle_Rle in Hs. rewrite RMicromega.Q2R_0 in Hs.
  unfold Num.sqrt_ltb. rewrite andb_true_iff, !ltb_lt. split.
  - intros [Ht Hlt]. apply Qlt_Rlt in Ht, Hlt.
    rewrite RMicromega.Q2R_0 in Ht. rewrite Q2R_mult in Hlt.
    rewrite <- (sqrt_square (Q2R t)) by Lra.lra.
    apply sqrt_lt_1_alt. split; [exact Hs | exact Hlt].
  - intros H. pose proof (sqrt_pos (Q2R s)) as Hp.
    assert (0 < Q2R t)%R as Ht by Lra.lra.
    split.
    + apply Rlt_Qlt. rewrite RMicromega.Q2R_0. exact Ht.
    + apply Rlt_Qlt. rewrite Q2R_mult.
      rewrite <- (sqrt_sqrt (Q2R s)) at 1 by exact Hs.
      apply Rmult_le_0_lt_compat; assumption.
Qed.

(** ** Orientation *)

Lemma scoreWord_cases scores word :
  scoreWord scores word =
    if isWide word then (fst scores + Word.confidence word, snd scores)
    else if isTall word then (fst scores, snd scores + Word.confidence word)
    else scores.
Proof. reflexivity. Qed.

(** In a well-formed box the two aspect tests exclude each other, so the
    [else] of the source never hides a vertical score. *)
Lemma wide_not_tall word :
  wellFormed (Word.bbox word) -> isWide word = true -> isTall word = false.
Proof.
  intros [Hx Hy] Hw. apply gtb_gt in Hw. apply gtb_le.
  unfold width, height in *. lra.
Qed.

Lemma fold_scores words : forall h v,
  Forall (fun word => wellFormed (Word.bbox word)) words ->
  fst (fold_left scoreWord words (h, v)) == h + sumConfidence (List.filter isWide words) /\
  snd (fold_left scoreWord words (h, v)) == v + sumConfidence (List.filter isTall words).
Proof.
  induction words as [|word words IH]; intros h v Hwf; simpl.
  - split; lra.
  - inversion Hwf as [|? ? Hword Hrest]; subst.
    rewrite scoreWord_cases. simpl fst. simpl snd.
    destruct (isWide word) eqn:Ew.
    + rewrite (wide_not_tall word Hword Ew).
      destruct (IH (h + Word.confidence word) v Hrest) as [Hh Hv].
      rewrite Hh, Hv. simpl. split; lra.
    + destruct (isTall word) eqn:Et.
      * destruct (IH h (v + Word.confidence word) Hrest) as [Hh Hv].
        rewrite Hh, Hv. simpl. split; lra.
      * apply IH. exact Hrest.
Qed.

(** Zero-height boxes. *)

(** C9, as stated, fails: a word whose box has zero height and zero
    width (a zero-area point) adds to neither score, and alone it is
    classified vertical. *)
Lemma zero_height_point_is_vertical :
  y1 (Word.bbox pointWord) == y0 (Word.bbox pointWord) /\
  scoreWord (0, 0) pointWord = (0, 0) /\
  determineOrientation [pointWord] = vertical /\
  ~ (forall word : Word.t,
       y1 (Word.bbox word) == y0 (Word.bbox word) ->
       determineOrientation [word] = horizontal).
Proof.
  repeat split; try reflexivity.
  intros H. specialize (H pointWord (Qeq_refl _)). discriminate H.
Qed.

(** C9, amended.  A word whose box has zero height and positive width
    adds its confidence to the horizontal score and leaves the vertical
    one alone; a single such word of positive confidence is horizontal.
    A zero-height box of zero width adds to neither score.  The function
    is total: it only subtracts, multiplies by [1.5] and compares. *)
Theorem zero_height_scores_horizontal (word : Word.t) :
  y1 (Word.bbox word) == y0 (Word.bbox word) ->
  (x0 (Word.bbox word) < x1 (Word.bbox word) ->
     (forall scores, scoreWord scores word
                     = (fst scores + Word.confidence word, snd scores)) /\
     (0 < Word.confidence word -> determineOrientation [word] = horizontal)) /\
  (x0 (Word.bbox word) == x1 (Word.bbox word) ->
     forall scores, scoreWord scores word = scores).
Proof.
  intros Hy. split.
  - intros Hx.
    assert (isWide word = true) as Hw.
    { apply gtb_gt. unfold width, height. lra. }
    split.
    + intros scores. rewrite scoreWord_cases, Hw. reflexivity.
    + intros Hc. unfold determineOrientation. simpl.
      rewrite scoreWord_cases, Hw. simpl.
      assert (Num.gtb (0 + Word.confidence word) 0 = true) as ->
        by (apply gtb_gt; lra).
      reflexivity.
  - intros Hx scores. rewrite scoreWord_cases.
    assert (isWide word = false) as -> by (apply gtb_le; unfold width, height; lra).
    assert (isTall word = false) as -> by (apply gtb_le; unfold width, height; lra).
    reflexivity.
Qed.

Lemma zero_height_scores_horizontal_witness :
  determineOrientation [flatWord] = horizontal /\
  scoreWord (0, 0) pointWord = (0, 0).
Proof.
  split.
  - apply (zero_height_scores_horizontal flatWord).
    + reflexivity.
    + reflexivity.
    + reflexivity.
  - apply (zero_height_scores_horizontal pointWord); reflexivity.
Defined.

(** ** The scan and the loop *)

Lemma unused_below {A : Type} (rest : list A) : forall j used i,
  (i < j)%nat -> unused j rest ({[i]} ∪ used) = unused j rest used.
Proof.
  induction rest as [|b rest IH]; intros j used i Hi; simpl; [done|].
  rewrite (IH (S j) used i) by lia.
  case_bool_decide as H1; case_bool_decide as H2; try done.
  - exfalso. apply elem_of_union in H1 as [H1|H1]; [|done].
    apply elem_of_singleton in H1. lia.
  - exfalso. set_solver.
Qed.

Section ScanFacts.
Context {A T : Type}.
Variable close : A -> bool.
Variable absorb : T -> A -> T.

Lemma scan_mono rest : forall j used st,
  used ⊆ fst (scan close absorb j rest used st).
Proof.
  induction rest as [|a rest IH]; intros j used st; simpl; [set_solver|].
  case_bool_decide; [apply IH|].
  destruct (close a); [|apply IH].
  etransitivity; [|apply IH]. set_solver.
Qed.

(** A scan from [j] on marks no index below [j]. *)
Lemma scan_below rest : forall j used st k,
  (k < j)%nat -> k ∈ fst (scan close absorb j rest used st) -> k ∈ used.
Proof.
  induction rest as [|a rest IH]; intros j used st k Hk; simpl; [done|].
  case_bool_decide.
  - apply IH. lia.
  - destruct (close a).
    + intros Hin. apply IH in Hin; [|lia].
      apply elem_of_union in Hin as [Hin|Hin]; [|done].
      apply elem_of_singleton in Hin. lia.
    + apply IH. lia.
Qed.

(** The element at index [j + k], not consumed when the scan starts, is
    marked by the scan exactly when it is close to the seed. *)
Lemma scan_index rest : forall j used st k a,
  rest !! k = Some a -> (j + k)%nat ∉ used ->
  ((j + k)%nat ∈ fst (scan close absorb j rest used st) <-> close a = true).
Proof.
  induction rest as [|b rest IH]; intros j used st k a Hk Hfree; [done|].
  destruct k as [|k]; simpl in Hk.
  - injection Hk as ->. rewrite Nat.add_0_r in Hfree |- *. simpl.
    rewrite bool_decide_eq_false_2 by done.
    destruct (close a) eqn:E.
    + split; [done|]. intros _.
      apply (scan_mono rest (S j) ({[j]} ∪ used)).
      apply elem_of_union. left. by apply elem_of_singleton.
    + split; [|done]. intros Hin.
      apply scan_below in Hin; [done | lia].
  - replace (j + S k)%nat with (S j + k)%nat in * by lia. simpl scan.
    case_bool_decide.
    + by apply IH.
    + destruct (close b).
      * apply IH; [done|]. intros Hin.
        apply elem_of_union in Hin as [Hin|Hin]; [|done].
        apply elem_of_singleton in Hin. lia.
      * by apply IH.
Qed.

(** Marking an index below the start of a scan changes nothing in it. *)
Lemma picks_below rest : forall j used i,
  (i < j)%nat -> picks close j rest ({[i]} ∪ used) = picks close j rest used.
Proof.
  induction rest as [|b rest IH]; intros j used i Hi; simpl; [done|].
  rewrite (IH (S j) used i) by lia.
  case_bool_decide as H1; case_bool_decide as H2; try done.
  - exfalso. apply elem_of_union in H1 as [H1|H1]; [|done].
    apply elem_of_singleton in H1. lia.
  - exfalso. set_solver.
Qed.

(** The state after the scan: the merge step folded over the picks. *)
Lemma scan_state rest : forall j used st,
  snd (scan close absorb j rest used st)
  = fold_left absorb (picks close j rest used) st.
Proof.
  induction rest as [|a rest IH]; intros j used st; simpl; [done|].
  case_bool_decide; [apply IH|].
  destruct (close a); simpl; [|apply IH].
  rewrite IH, picks_below by lia. reflexivity.
Qed.

(** The picks and what the scan leaves unconsumed are, together, what
    was unconsumed before it. *)
Lemma scan_unused rest : forall j used st,
  Permutation
    (picks close j rest used ++ unused j rest (fst (scan close absorb j rest used st)))
    (unused j rest used).
Proof.
  induction rest as [|a rest IH]; intros j used st; simpl; [done|].
  case_bool_decide as Hj.
  - rewrite bool_decide_eq_true_2; [apply IH|].
    by apply (scan_mono rest (S j) used st).
  - destruct (close a) eqn:E.
    + rewrite bool_decide_eq_true_2.
      2:{ apply (scan_mono rest (S j) ({[j]} ∪ used)). set_solver. }
      simpl. apply perm_skip.
      rewrite <- (unused_below rest (S j) used j) by lia.
      rewrite <- (picks_below rest (S j) used j) by lia.
      apply IH.
    + rewrite bool_decide_eq_false_2.
      2:{ intros Hin. apply scan_below in Hin; [done | lia]. }
      rewrite <- Permutation_middle. apply perm_skip, IH.
Qed.

End ScanFacts.

Section LoopFacts.
Context {A T : Type}.
Variable close : A -> A -> bool.
Variable absorb : A -> T -> A -> T.
Variable seed : A -> T.
Variable finish : T -> T.

(** What the elements of the state are: the words of a region, the
    regions of a spine. *)
Variable members : T -> list A.
Hypothesis members_seed : forall a, members (seed a) = [a].
Hypothesis members_absorb : forall a st b, members (absorb a st b) = members st ++ [b].
Hypothesis members_finish : forall st, members (finish st) = members st.

Lemma members_fold a picked : forall st,
  members (fold_left (absorb a) picked st) = members st ++ picked.
Proof.
  induction picked as [|b picked IH]; intros st; simpl.
  - by rewrite app_nil_r.
  - rewrite IH, members_absorb, <- app_assoc. reflexivity.
Qed.

(** Partition: the members of the emitted states are the states emitted
    before together with the elements not consumed yet. *)
Lemma loop_partition rest : forall i used out,
  Permutation
    (concat (List.map members (loop close absorb seed finish i rest used out)))
    (concat (List.map members out) ++ unused i rest used).
Proof.
  induction rest as [|a rest IH]; intros i used out; simpl.
  - by rewrite app_nil_r.
  - case_bool_decide as Hi; [apply IH|].
    rewrite IH. rewrite List.map_app, concat_app. simpl.
    rewrite app_nil_r, members_finish, scan_state, members_fold, members_seed.
    rewrite <- !app_assoc. apply Permutation_app_head. simpl. apply perm_skip.
    rewrite scan_unused. rewrite (unused_below rest (S i) used i) by lia. reflexivity.
Qed.

(** An invariant of the states, relative to their seed, holds of every
    emitted state. *)
Lemma loop_invariant (P : A -> T -> Prop) (Q : T -> Prop) :
  (forall a, P a (seed a)) ->
  (forall a st b, P a st -> P a (absorb a st b)) ->
  (forall a st, P a st -> Q (finish st)) ->
  forall rest i used out,
  Forall Q out -> Forall Q (loop close absorb seed finish i rest used out).
Proof.
  intros Hseed Habsorb Hfinish.
  induction rest as [|a rest IH]; intros i used out Hout; simpl; [done|].
  case_bool_decide; [by apply IH|].
  apply IH. apply Forall_app. split; [done|].
  constructor; [|constructor].
  apply (Hfinish a). rewrite scan_state.
  generalize (picks (close a) (S i) rest ({[i]} ∪ used)) as picked.
  generalize (Hseed a). generalize (seed a) as st.
  intros st Hst picked. revert st Hst.
  induction picked as [|b picked IHp]; intros st Hst; simpl; [done|].
  apply IHp, Habsorb, Hst.
Qed.

End LoopFacts.

Lemma unused_empty {A : Type} (rest : list A) : forall j, unused j rest ∅ = rest.
Proof.
  induction rest as [|a rest IH]; intros j; simpl; [done|].
  rewrite bool_decide_eq_false_2 by set_solver. by rewrite IH.
Qed.

(** ** The loops of the source are instances of the shape *)

Lemma regionScan_scan word1 rest : forall j used region,
  regionScan word1 j rest used region
  = scan (wordsClose word1) absorbWord j rest used region.
Proof.
  induction rest as [|word2 rest IH]; intros j used region; simpl; [done|].
  by rewrite !IH.
Qed.

Lemma regionLoop_loop rest : forall i used regions,
  regionLoop i rest used regions
  = loop wordsClose (fun _ => absorbWord) seedRegion finishRegion i rest used regions.
Proof.
  induction rest as [|word rest IH]; intros i used regions; simpl; [done|].
  by rewrite !IH, regionScan_scan.
Qed.

Lemma groupWordsIntoRegions_loop words :
  groupWordsIntoRegions words
  = loop wordsClose (fun _ => absorbWord) seedRegion finishRegion 0 words ∅ [].
Proof.
  unfold groupWordsIntoRegions. rewrite regionLoop_loop. by destruct words.
Qed.

Lemma spineScan_scan region1 rest : forall j used spine,
  spineScan region1 j rest used spine
  = scan (sameSpine region1) (absorbRegion region1) j rest used spine.
Proof.
  induction rest as [|region2 rest IH]; intros j used spine; simpl; [done|].
  by rewrite !IH.
Qed.

Lemma candidateLoop_loop rest : forall i used spines,
  candidateLoop i rest used spines
  = loop sameSpine absorbRegion seedSpine (fun spine => spine) i rest used spines.
Proof.
  induction rest as [|region rest IH]; intros i used spines; simpl; [done|].
  by rewrite !IH, spineScan_scan.
Qed.

(** The spines the source pushes are the candidates, cleaned, that pass
    the acceptance test. *)
Lemma spineLoop_candidates rest : forall i used candidates,
  spineLoop i rest used (List.filter accepted (List.map cleanSpine candidates))
  = List.filter accepted (List.map cleanSpine (candidateLoop i rest used candidates)).
Proof.
  induction rest as [|region rest IH]; intros i used candidates; simpl; [done|].
  case_bool_decide; [apply IH|].
  rewrite <- IH. f_equal.
  rewrite List.map_app, List.filter_app. simpl.
  destruct (accepted (cleanSpine _)); [done | by rewrite app_nil_r].
Qed.

Lemma insertSpine_perm a sorted : Permutation (insertSpine a sorted) (a :: sorted).
Proof.
  induction sorted as [|b sorted IH]; simpl; [done|].
  destruct (Num.gtb _ _); [|done].
  rewrite IH. apply perm_swap.
Qed.

Lemma sortSpines_perm spines : Permutation (sortSpines spines) spines.
Proof.
  induction spines as [|a spines IH]; simpl; [done|].
  rewrite insertSpine_perm. by apply perm_skip.
Qed.

Lemma detectBookSpines_perm regions :
  Permutation (detectBookSpines regions)
    (List.filter accepted (List.map cleanSpine (spineCandidates regions))).
Proof.
  unfold detectBookSpines, spineCandidates.
  rewrite sortSpines_perm.
  by rewrite <- (spineLoop_candidates regions 0 ∅ []).
Qed.

Lemma regions_partition words :
  Permutation (concat (List.map Region.words (groupWordsIntoRegions words))) words.
Proof.
  rewrite groupWordsIntoRegions_loop.
  rewrite (loop_partition wordsClose (fun _ => absorbWord) seedRegion finishRegion
             Region.words); try done.
  simpl. by rewrite unused_empty.
Qed.

Lemma candidates_partition regions :
  Permutation (concat (List.map Spine.textRegions (spineCandidates regions))) regions.
Proof.
  unfold spineCandidates. rewrite candidateLoop_loop.
  rewrite (loop_partition sameSpine absorbRegion seedSpine (fun spine => spine)
             Spine.textRegions); try done.
  simpl. by rewrite unused_empty.
Qed.

(** C3. Partition: the word lists of the regions returned by
    [groupWordsIntoRegions], put end to end, are a permutation of the
    input words, so every word occurrence lies in exactly one region; the
    region lists of the spine candidates of [detectBookSpines] are a
    permutation of the input regions; and the spines returned are, up to
    the final sort, the candidates that pass the acceptance test, each
    with the region list of its candidate unchanged, so a region comes out
    inside the one spine of its candidate or not at all. *)
Theorem partition_invariant (words : list Word.t) (regions : list Region.t) :
  Permutation (concat (List.map Region.words (groupWordsIntoRegions words))) words /\
  Permutation (concat (List.map Spine.textRegions (spineCandidates regions))) regions /\
  Permutation (detectBookSpines regions)
    (List.filter accepted (List.map cleanSpine (spineCandidates regions))) /\
  List.map Spine.textRegions (List.map cleanSpine (spineCandidates regions))
  = List.map Spine.textRegions (spineCandidates regions).
Proof.
  split; [apply regions_partition|].
  split; [apply candidates_partition|].
  split; [apply detectBookSpines_perm|].
  rewrite List.map_map. reflexivity.
Qed.

(** ** The acceptance filter *)

Lemma accepted_spec spine :
  accepted spine = true <->
  (3 <= length (Spine.title spine))%nat /\ 30 < Spine.confidence spine.
Proof.
  unfold accepted. rewrite andb_true_iff, gtb_gt, Nat.leb_le. reflexivity.
Qed.

(** C5. A spine is in the result of [detectBookSpines] if and only if
    it is a candidate with its title cleaned, the cleaned title has at
    least 3 code units and the confidence is strictly above 30.  So no
    spine with a cleaned title of length 2 is returned, whatever its
    confidence, and none with confidence exactly 30. *)
Theorem acceptance_filter (regions : list Region.t) :
  (forall spine,
     In spine (detectBookSpines regions) <->
     In spine (List.map cleanSpine (spineCandidates regions)) /\
     (3 <= length (Spine.title spine))%nat /\ 30 < Spine.confidence spine) /\
  (forall spine,
     length (Spine.title spine) = 2%nat -> ~ In spine (detectBookSpines regions)) /\
  (forall spine,
     Spine.confidence spine == 30 -> ~ In spine (detectBookSpines regions)).
Proof.
  assert (forall spine,
     In spine (detectBookSpines regions) <->
     In spine (List.map cleanSpine (spineCandidates regions)) /\
     (3 <= length (Spine.title spine))%nat /\ 30 < Spine.confidence spine) as Hiff.
  { intros spine. rewrite <- accepted_spec, <- List.filter_In.
    split; apply Permutation_in;
      [|symmetry]; apply detectBookSpines_perm. }
  split; [exact Hiff|]. split.
  - intros spine Hlen Hin. apply Hiff in Hin as (_ & Hge & _). lia.
  - intros spine Hc Hin. apply Hiff in Hin as (_ & _ & Hgt). lra.
Qed.

Lemma acceptance_filter_witness :
  In (cleanSpine (hd (seedSpine (seedRegion harry)) (spineCandidates shelfRegions)))
     (detectBookSpines shelfRegions).
Proof.
  refine (proj2 (proj1 (acceptance_filter shelfRegions) _) _).
  split; [|split].
  - vm_compute. left. reflexivity.
  - apply Nat.leb_le. vm_compute. reflexivity.
  - apply ltb_lt. vm_compute. reflexivity.
Defined.

(** ** Confidence *)

Lemma fold_min_le_init l : forall c, fold_left Num.min l c <= c.
Proof.
  induction l as [|a l IH]; intros c; simpl; [lra|].
  pose proof (IH (Num.min c a)). pose proof (min_le_l c a). lra.
Qed.

Lemma fold_min_le_elem l : forall c x, In x l -> fold_left Num.min l c <= x.
Proof.
  induction l as [|a l IH]; intros c x; simpl; [done|].
  intros [->|Hin]; [|by apply IH].
  pose proof (fold_min_le_init l (Num.min c x)). pose proof (min_le_r c x). lra.
Qed.

Lemma fold_max_ge_init l : forall c, c <= fold_left Num.max l c.
Proof.
  induction l as [|a l IH]; intros c; simpl; [lra|].
  pose proof (IH (Num.max c a)). pose proof (max_ge_l c a). lra.
Qed.

Lemma fold_max_ge_elem l : forall c x, In x l -> x <= fold_left Num.max l c.
Proof.
  induction l as [|a l IH]; intros c x; simpl; [done|].
  intros [->|Hin]; [|by apply IH].
  pose proof (fold_max_ge_init l (Num.max c x)). pose proof (max_ge_r c x). lra.
Qed.

Lemma minimum_maximum l x : In x l -> minimum l <= x <= maximum l.
Proof.
  destruct l as [|c l]; [done|]. simpl.
  intros [->|Hin].
  - split; [apply fold_min_le_init | apply fold_max_ge_init].
  - split; [by apply fold_min_le_elem | by apply fold_max_ge_elem].
Qed.

Lemma averaged_seed {A : Type} (conf : A -> Q) a : averaged conf [a] (conf a).
Proof.
  split; [done|]. intros lo hi H. by inversion H.
Qed.

Lemma averaged_absorb {A : Type} (conf : A -> Q) members c b :
  averaged conf members c -> averaged conf (members ++ [b]) ((c + conf b) / 2).
Proof.
  intros [Hne Hc]. split; [by destruct members|].
  intros lo hi H. apply Forall_app in H as [Hm Hb].
  apply average_between; [by apply Hc | by inversion Hb].
Qed.

Lemma averaged_bounds {A : Type} (conf : A -> Q) members c :
  averaged conf members c ->
  minimum (List.map conf members) <= c <= maximum (List.map conf members).
Proof.
  intros [_ Hc]. apply Hc. apply List.Forall_forall. intros a Ha.
  apply minimum_maximum, List.in_map, Ha.
Qed.

Lemma regions_averaged words :
  Forall (fun region =>
            averaged Word.confidence (Region.words region) (Region.confidence region))
         (groupWordsIntoRegions words).
Proof.
  rewrite groupWordsIntoRegions_loop.
  apply (loop_invariant wordsClose (fun _ => absorbWord) seedRegion finishRegion
           (fun _ region =>
              averaged Word.confidence (Region.words region) (Region.confidence region))).
  - intros word. exact (averaged_seed Word.confidence word).
  - intros _ region word2 H. exact (averaged_absorb Word.confidence _ _ word2 H).
  - done.
  - constructor.
Qed.

Lemma candidates_averaged regions :
  Forall (fun spine =>
            averaged Region.confidence (Spine.textRegions spine) (Spine.confidence spine))
         (spineCandidates regions).
Proof.
  unfold spineCandidates. rewrite candidateLoop_loop.
  apply (loop_invariant sameSpine absorbRegion seedSpine (fun spine => spine)
           (fun _ spine =>
              averaged Region.confidence (Spine.textRegions spine) (Spine.confidence spine))).
  - intros region. exact (averaged_seed Region.confidence region).
  - intros region1 spine region2 H.
    exact (averaged_absorb Region.confidence _ _ region2 H).
  - done.
  - constructor.
Qed.

Lemma region_words_incl words region word :
  In region (groupWordsIntoRegions words) -> In word (Region.words region) -> In word words.
Proof.
  intros Hr Hw. apply (Permutation_in word (regions_partition words)).
  apply in_concat. exists (Region.words region). split; [|done].
  by apply List.in_map.
Qed.

Lemma spine_regions_incl regions spine region :
  In spine (spineCandidates regions) -> In region (Spine.textRegions spine) ->
  In region regions.
Proof.
  intros Hs Hr. apply (Permutation_in region (candidates_partition regions)).
  apply in_concat. exists (Spine.textRegions spine). split; [|done].
  by apply List.in_map.
Qed.

(** C10. When every word confidence lies in [[0, 100]], every region
    returned by [groupWordsIntoRegions] has a confidence between the
    smallest and the largest confidence of its words, and every spine
    candidate built by [detectBookSpines] from these regions has a
    confidence between the smallest and the largest confidence of its
    regions; all of them lie in [[0, 100]], and so do the confidences of
    the spines returned. *)
Theorem confidence_bounds (words : list Word.t) :
  Forall (fun word => 0 <= Word.confidence word <= 100) words ->
  Forall (fun region =>
            minimum (wordConfidences region) <= Region.confidence region
              <= maximum (wordConfidences region) /\
            0 <= Region.confidence region <= 100)
         (groupWordsIntoRegions words) /\
  Forall (fun spine =>
            minimum (regionConfidences spine) <= Spine.confidence spine
              <= maximum (regionConfidences spine) /\
            0 <= Spine.confidence spine <= 100)
         (spineCandidates (groupWordsIntoRegions words)) /\
  Forall (fun spine => 0 <= Spine.confidence spine <= 100)
         (detectBookSpines (groupWordsIntoRegions words)).
Proof.
  intros Hwords.
  assert (Forall (fun region => 0 <= Region.confidence region <= 100)
            (groupWordsIntoRegions words)) as Hregions.
  { apply List.Forall_forall. intros region Hin.
    pose proof (regions_averaged words) as Hav.
    rewrite List.Forall_forall in Hav. destruct (Hav region Hin) as [_ Hc].
    apply Hc. apply List.Forall_forall. intros word Hword.
    rewrite List.Forall_forall in Hwords. apply Hwords.
    by apply (region_words_incl words region). }
  assert (Forall (fun spine => 0 <= Spine.confidence spine <= 100)
            (spineCandidates (groupWordsIntoRegions words))) as Hspines.
  { apply List.Forall_forall. intros spine Hin.
    pose proof (candidates_averaged (groupWordsIntoRegions words)) as Hav.
    rewrite List.Forall_forall in Hav. destruct (Hav spine Hin) as [_ Hc].
    apply Hc. apply List.Forall_forall. intros region Hregion.
    rewrite List.Forall_forall in Hregions. apply Hregions.
    by apply (spine_regions_incl _ spine). }
  split; [|split].
  - apply List.Forall_forall. intros region Hin. split.
    + apply (averaged_bounds Word.confidence).
      pose proof (regions_averaged words) as Hav.
      rewrite List.Forall_forall in Hav. by apply Hav.
    + rewrite List.Forall_forall in Hregions. by apply Hregions.
  - apply List.Forall_forall. intros spine Hin. split.
    + apply (averaged_bounds Region.confidence).
      pose proof (candidates_averaged (groupWordsIntoRegions words)) as Hav.
      rewrite List.Forall_forall in Hav. by apply Hav.
    + rewrite List.Forall_forall in Hspines. by apply Hspines.
  - apply List.Forall_forall. intros spine Hin.
    apply (Permutation_in _ (detectBookSpines_perm _)) in Hin.
    apply List.filter_In in Hin as [Hin _].
    apply List.in_map_iff in Hin as (candidate & <- & Hin).
    rewrite List.Forall_forall in Hspines. by apply (Hspines candidate).
Qed.

Lemma confidence_bounds_witness :
  Forall (fun spine => 0 <= Spine.confidence spine <= 100)
         (detectBookSpines (groupWordsIntoRegions shelfWords)).
Proof.
  apply (confidence_bounds shelfWords).
  repeat constructor; simpl; unfold Qle; simpl; lia.
Defined.

(** ** The order of the texts in a title *)

Lemma join_cons sep t ts : ts <> [] -> join sep (t :: ts) = t ++ sep :: join sep ts.
Proof. by destruct ts. Qed.

Lemma join_snoc sep ts : forall t, ts <> [] -> join sep (ts ++ [t]) = join sep ts ++ sep :: t.
Proof.
  induction ts as [|a ts IH]; intros t Hne; [done|].
  destruct ts as [|b ts]; [done|].
  change (join sep ((a :: b :: ts) ++ [t]))
    with (a ++ sep :: join sep ((b :: ts) ++ [t])).
  rewrite IH by done.
  change (join sep (a :: b :: ts)) with (a ++ sep :: join sep (b :: ts)).
  by rewrite <- app_assoc.
Qed.

Lemma titleOrder_snoc seed merged region2 :
  titleOrder seed (merged ++ [region2])
  = if above seed region2 then region2 :: titleOrder seed merged
    else titleOrder seed merged ++ [region2].
Proof.
  unfold titleOrder. rewrite !List.filter_app. simpl.
  destruct (above seed region2); simpl.
  - rewrite rev_app_distr, app_nil_r. reflexivity.
  - rewrite !app_nil_r, <- app_assoc. reflexivity.
Qed.

Lemma titleOrder_nonempty seed merged : List.map Region.text (titleOrder seed merged) <> [].
Proof. unfold titleOrder. by destruct (rev _). Qed.

Lemma candidates_title regions :
  Forall (fun spine =>
            exists seed merged,
              Spine.textRegions spine = seed :: merged /\
              Spine.title spine
              = join space (List.map Region.text (titleOrder seed merged)))
         (spineCandidates regions).
Proof.
  unfold spineCandidates. rewrite candidateLoop_loop.
  apply (loop_invariant sameSpine absorbRegion seedSpine (fun spine => spine)
           (fun seed spine =>
              exists merged,
                Spine.textRegions spine = seed :: merged /\
                Spine.title spine
                = join space (List.map Region.text (titleOrder seed merged)))).
  - intros region. by exists [].
  - intros region1 spine region2 (merged & Hregions & Htitle).
    exists (merged ++ [region2]). simpl. rewrite Hregions. split; [done|].
    rewrite titleOrder_snoc, Htitle. fold (above region1 region2).
    destruct (above region1 region2).
    + simpl List.map. rewrite join_cons by apply titleOrder_nonempty. done.
    + rewrite List.map_app. simpl List.map.
      rewrite join_snoc by apply titleOrder_nonempty. done.
  - intros seed spine (merged & H). by exists seed, merged.
  - constructor.
Qed.

(** C1, as stated, fails.  The words [shelfWords] give three regions that
    [detectBookSpines] merges into one accepted spine; "Top" ([y0 = 20])
    is merged before "Middle" ([y0 = 35]), both are put in front, and the
    title reads "Middle Top Bottom". *)
Lemma title_not_top_to_bottom :
  spineCandidates shelfRegions = [shelfSpine] /\
  detectBookSpines shelfRegions = [cleanSpine shelfSpine] /\
  List.map Region.text (Spine.textRegions shelfSpine)
  = [of_string "Bottom"; of_string "Top"; of_string "Middle"] /\
  List.map (fun region => y0 (Region.bbox region)) (Spine.textRegions shelfSpine)
  = [100; 20; 35] /\
  Spine.title shelfSpine = of_string "Middle Top Bottom" /\
  ~ textsTopToBottom shelfSpine.
Proof.
  split; [by vm_compute|]. split; [by vm_compute|].
  split; [by vm_compute|]. split; [by vm_compute|].
  split; [by vm_compute|].
  intros (order & Hperm & Hsorted & Htitle).
  assert (Spine.textRegions shelfSpine
          = [finishRegion (seedRegion bottomWord); finishRegion (seedRegion topWord);
             finishRegion (seedRegion middleWord)]) as Hregions by (by vm_compute).
  rewrite Hregions in Hperm.
  pose proof (Permutation_length Hperm) as Hlen.
  destruct order as [|a [|b [|c [|]]]]; try discriminate Hlen.
  assert (In a [a; b; c]) as Ha by (simpl; tauto).
  assert (In b [a; b; c]) as Hb by (simpl; tauto).
  assert (In c [a; b; c]) as Hc by (simpl; tauto).
  apply (Permutation_in _ Hperm) in Ha, Hb, Hc.
  inversion Hsorted as [|? ? Hsorted' Hab]; subst.
  inversion Hab as [|? ? Hle]; subst.
  apply Qle_bool_iff in Hle.
  simpl in Ha, Hb, Hc.
  destruct Ha as [<-|[<-|[<-|[]]]]; destruct Hb as [<-|[<-|[<-|[]]]];
    destruct Hc as [<-|[<-|[<-|[]]]];
    first [ vm_compute in Htitle; discriminate Htitle
          | vm_compute in Hle; discriminate Hle ].
Qed.

(** C1, amended.  A merged region's text goes in front of the title
    when its top [y0] is strictly above the seed's and behind it
    otherwise; so the title of every spine candidate, before it is
    cleaned, is the texts of [titleOrder]: the merged regions that start
    above the seed in reverse merge order, the seed, then the other
    merged regions in merge order. *)
Theorem title_order (regions : list Region.t) :
  (forall region1 spine region2,
     Spine.title (absorbRegion region1 spine region2)
     = if Num.ltb (y0 (Region.bbox region2)) (y0 (Region.bbox region1))
       then Region.text region2 ++ space :: Spine.title spine
       else Spine.title spine ++ space :: Region.text region2) /\
  Forall (fun spine =>
            exists seed merged,
              Spine.textRegions spine = seed :: merged /\
              Spine.title spine
              = join space (List.map Region.text (titleOrder seed merged)))
         (spineCandidates regions).
Proof. split; [reflexivity | apply candidates_title]. Qed.

(** ** Title cleanup *)

Lemma dropWhile_Forall (P : N -> Prop) p s : Forall P s -> Forall P (dropWhile p s).
Proof.
  induction 1 as [|c s Hc Hs IH]; simpl; [constructor|].
  destruct (p c); [exact IH | by constructor].
Qed.

Lemma trim_Forall (P : N -> Prop) s : Forall P s -> Forall P (trim s).
Proof.
  intros H. unfold trim.
  apply List.Forall_rev, dropWhile_Forall, List.Forall_rev, dropWhile_Forall, H.
Qed.

Lemma stripLeadingNumber_Forall (P : N -> Prop) s :
  Forall P s -> Forall P (stripLeadingNumber s).
Proof.
  intros H. unfold stripLeadingNumber. destruct s as [|c s]; [constructor|].
  destruct (isDigit c); [|exact H]. by apply dropWhile_Forall, dropWhile_Forall.
Qed.

(** After the first replacement the only white character left is the
    space. *)
Lemma collapseFrom_white s : forall inRun,
  Forall (fun c => isWhite c = true -> c = space) (collapseFrom inRun s).
Proof.
  induction s as [|c s IH]; intros inRun; simpl; [constructor|].
  destruct (isWhite c) eqn:E.
  - destruct inRun; [apply IH|]. constructor; [done | apply IH].
  - constructor; [congruence | apply IH].
Qed.

Lemma split_nonempty sep s : split sep s <> [].
Proof.
  destruct s as [|c s]; simpl; [done|].
  destruct (c =? sep)%N; [done|]. by destruct (split sep s).
Qed.

(** The pieces of a split hold the characters of the string, and never
    the separator. *)
Lemma split_Forall (P : N -> Prop) sep s :
  Forall P s -> Forall (Forall (fun c => P c /\ c <> sep)) (split sep s).
Proof.
  induction 1 as [|c s Hc Hs IH]; simpl; [by repeat constructor|].
  destruct (c =? sep)%N eqn:E; [by constructor|].
  apply N.eqb_neq in E.
  destruct (split sep s) as [|t ts]; [by repeat constructor|].
  inversion IH; subst. constructor; [|done]. by constructor.
Qed.

Lemma join_Forall (P : N -> Prop) sep ts :
  P sep -> Forall (Forall P) ts -> Forall P (join sep ts).
Proof.
  intros Hsep. induction 1 as [|t ts Ht Hts IH]; [constructor|].
  destruct ts as [|t' ts]; [exact Ht|].
  change (join sep (t :: t' :: ts)) with (t ++ sep :: join sep (t' :: ts)).
  apply Forall_app. split; [exact Ht|]. by constructor.
Qed.

(** What [cleanBookTitle] returns: good tokens joined by single spaces. *)
Lemma cleanBookTitle_tokens s :
  exists tokens, cleanBookTitle s = join space tokens /\ Forall goodToken tokens.
Proof.
  eexists. split; [reflexivity|].
  apply List.Forall_forall. intros token Hin.
  apply List.filter_In in Hin as [Hin Hlen]. apply Nat.ltb_lt in Hlen.
  split; [exact Hlen|].
  set (P := fun c => keepChar c = true /\ (isWhite c = true -> c = space)).
  assert (Forall P (stripSpecial (collapseWhitespace s))) as HP.
  { apply List.Forall_forall. intros c Hc.
    apply List.filter_In in Hc as [Hc Hkeep]. split; [exact Hkeep|].
    pose proof (collapseFrom_white s false) as Hw.
    rewrite List.Forall_forall in Hw. by apply Hw. }
  apply stripLeadingNumber_Forall, trim_Forall in HP.
  apply (split_Forall P space) in HP.
  rewrite List.Forall_forall in HP. specialize (HP token Hin).
  eapply List.Forall_impl; [|exact HP].
  intros c [[Hkeep Hwhite] Hne]. split; [exact Hkeep|].
  destruct (isWhite c); [|done]. by destruct Hne; apply Hwhite.
Qed.

Lemma titleChar_kept c : keepChar c = true -> isWhite c = false -> titleChar c = true.
Proof.
  unfold keepChar, titleChar, listedChar, isWordChar. intros Hkeep Hwhite.
  rewrite Hwhite in Hkeep. revert Hkeep.
  destruct (between 65 90 c), (between 97 122 c), (isDigit c), (c =? 95)%N,
    (isTitlePunct c), (c =? space)%N; done.
Qed.

(** C7, as stated, fails: the underscore belongs to [\w] and is kept. *)
Lemma underscore_survives :
  cleanBookTitle (of_string "a_b") = of_string "a_b" /\
  ~ Forall (fun c => listedChar c = true) (cleanBookTitle (of_string "a_b")).
Proof.
  split; [reflexivity|]. intros H.
  change (cleanBookTitle (of_string "a_b")) with [97%N; 95%N; 98%N] in H.
  inversion H as [|? ? _ H']; subst. inversion H' as [|? ? Hu _]; subst.
  discriminate Hu.
Qed.

(** C7, amended.  Every character of the string [cleanBookTitle]
    returns is an ASCII letter, a digit, the underscore, a space, a
    hyphen, a colon, an ampersand, an apostrophe, a period or a comma. *)
Theorem cleanBookTitle_alphabet (s : jsstring) :
  Forall (fun c => titleChar c = true) (cleanBookTitle s).
Proof.
  destruct (cleanBookTitle_tokens s) as (tokens & -> & Htokens).
  apply join_Forall; [reflexivity|].
  eapply List.Forall_impl; [|exact Htokens].
  intros token [_ Hchars].
  eapply List.Forall_impl; [|exact Hchars].
  intros c [Hkeep Hwhite]. by apply titleChar_kept.
Qed.

(** *** A cleaned title that does not start with a digit is a fixed point *)

Lemma filter_all {A : Type} (f : A -> bool) l :
  Forall (fun a => f a = true) l -> List.filter f l = l.
Proof.
  induction 1 as [|a l Ha Hl IH]; simpl; [done|]. by rewrite Ha, IH.
Qed.

Lemma collapseFrom_prefix t : forall rest,
  Forall (fun c => isWhite c = false) t ->
  collapseFrom false (t ++ rest) = t ++ collapseFrom false rest.
Proof.
  intros rest. induction 1 as [|c t Hc Ht IH]; simpl; [done|].
  by rewrite Hc, IH.
Qed.

Lemma goodToken_head token :
  goodToken token -> exists c rest, token = c :: rest /\ isWhite c = false.
Proof.
  intros [Hlen Hchars]. destruct token as [|c rest]; [simpl in Hlen; lia|].
  exists c, rest. split; [done|]. inversion Hchars as [|? ? [_ Hw] _]. exact Hw.
Qed.

Lemma goodToken_nonwhite token :
  goodToken token -> Forall (fun c => isWhite c = false) token.
Proof.
  intros [_ Hchars]. eapply List.Forall_impl; [|exact Hchars]. by intros c [_ Hw].
Qed.

Lemma goodToken_nospace token :
  goodToken token -> Forall (fun c => c <> space) token.
Proof.
  intros [_ Hchars]. eapply List.Forall_impl; [|exact Hchars].
  intros c [_ Hw] ->. discriminate Hw.
Qed.

Lemma join_head sep c rest ts : exists tail, join sep ((c :: rest) :: ts) = c :: tail.
Proof. destruct ts; simpl; eauto. Qed.

Lemma collapse_join tokens :
  Forall goodToken tokens -> collapseWhitespace (join space tokens) = join space tokens.
Proof.
  unfold collapseWhitespace.
  induction 1 as [|t ts Ht Hts IH]; [done|].
  destruct ts as [|t2 ts].
  - simpl. rewrite <- (app_nil_r t) at 1.
    rewrite collapseFrom_prefix by (by apply goodToken_nonwhite).
    simpl. by rewrite app_nil_r.
  - change (join space (t :: t2 :: ts)) with (t ++ space :: join space (t2 :: ts)).
    rewrite collapseFrom_prefix by (by apply goodToken_nonwhite).
    f_equal.
    change (collapseFrom false (space :: join space (t2 :: ts)))
      with (space :: collapseFrom true (join space (t2 :: ts))).
    f_equal. rewrite <- IH at 2.
    inversion Hts as [|? ? Ht2 _]; subst.
    destruct (goodToken_head t2 Ht2) as (c & rest & -> & Hc).
    destruct (join_head space c rest ts) as [tail ->].
    simpl. by rewrite Hc.
Qed.

Lemma join_last tokens :
  Forall goodToken tokens -> tokens <> [] ->
  exists front c, join space tokens = front ++ [c] /\ isWhite c = false.
Proof.
  induction 1 as [|t ts Ht Hts IH]; intros Hne; [done|].
  destruct ts as [|t2 ts].
  - destruct (goodToken_head t Ht) as (c0 & rest & Heq & _).
    destruct (exists_last (l := t)) as (front & c & Hlast); [by rewrite Heq|].
    exists front, c. split; [exact Hlast|].
    pose proof (goodToken_nonwhite t Ht) as Hw. rewrite Hlast in Hw.
    apply Forall_app in Hw as [_ Hw]. by inversion Hw.
  - destruct IH as (front & c & Heq & Hc); [done|].
    exists (t ++ space :: front), c. split; [|exact Hc].
    change (join space (t :: t2 :: ts)) with (t ++ space :: join space (t2 :: ts)).
    rewrite Heq. by rewrite <- app_assoc.
Qed.

Lemma trim_join tokens :
  Forall goodToken tokens -> trim (join space tokens) = join space tokens.
Proof.
  intros Htokens. destruct tokens as [|t ts]; [done|].
  destruct (join_last (t :: ts) Htokens) as (front & c & Heq & Hc); [done|].
  inversion Htokens as [|? ? Ht _]; subst.
  destruct (goodToken_head t Ht) as (c0 & rest & -> & Hc0).
  destruct (join_head space c0 rest ts) as [tail Hhead].
  unfold trim. rewrite Hhead at 1. simpl dropWhile. rewrite Hc0.
  rewrite <- Hhead, Heq, rev_app_distr. simpl. rewrite Hc.
  change (c :: rev front) with (rev [c] ++ rev front).
  by rewrite <- rev_app_distr, rev_involutive.
Qed.

Lemma split_whole sep t : Forall (fun c => c <> sep) t -> split sep t = [t].
Proof.
  induction 1 as [|c t Hc Ht IH]; simpl; [done|].
  apply N.eqb_neq in Hc. by rewrite Hc, IH.
Qed.

Lemma split_app sep t rest :
  Forall (fun c => c <> sep) t -> split sep (t ++ sep :: rest) = t :: split sep rest.
Proof.
  induction 1 as [|c t Hc Ht IH]; simpl.
  - by rewrite N.eqb_refl.
  - apply N.eqb_neq in Hc. by rewrite Hc, IH.
Qed.

Lemma split_join tokens :
  Forall goodToken tokens -> tokens <> [] -> split space (join space tokens) = tokens.
Proof.
  induction 1 as [|t ts Ht Hts IH]; intros Hne; [done|].
  destruct ts as [|t2 ts].
  - simpl. by apply split_whole, goodToken_nospace.
  - change (join space (t :: t2 :: ts)) with (t ++ space :: join space (t2 :: ts)).
    rewrite split_app by (by apply goodToken_nospace).
    by rewrite IH.
Qed.

Lemma cleanBookTitle_join tokens :
  Forall goodToken tokens -> startsWithDigit (join space tokens) = false ->
  cleanBookTitle (join space tokens) = join space tokens.
Proof.
  intros Htokens Hdigit. unfold cleanBookTitle.
  rewrite collapse_join by done.
  unfold stripSpecial. rewrite (filter_all keepChar).
  2:{ apply join_Forall; [reflexivity|].
      eapply List.Forall_impl; [|exact Htokens].
      intros token [_ Hchars]. eapply List.Forall_impl; [|exact Hchars].
      by intros c [Hkeep _]. }
  assert (stripLeadingNumber (join space tokens) = join space tokens) as ->.
  { unfold stripLeadingNumber. destruct (join space tokens) as [|c x]; [done|].
    simpl in Hdigit. by rewrite Hdigit. }
  rewrite trim_join by done.
  destruct tokens as [|t ts]; [done|].
  rewrite split_join by done.
  rewrite filter_all; [done|].
  eapply List.Forall_impl; [|exact Htokens].
  intros token [Hlen _]. by apply Nat.ltb_lt.
Qed.

(** *** A cleaned title that starts with a digit gets shorter *)

Lemma join_split sep s : join sep (split sep s) = s.
Proof.
  induction s as [|c s IH]; simpl; [done|].
  destruct (c =? sep)%N eqn:E.
  - apply N.eqb_eq in E. subst c.
    pose proof (split_nonempty sep s) as Hne.
    destruct (split sep s) as [|t ts]; [done|]. simpl in *. by rewrite IH.
  - destruct (split sep s) as [|t ts]; [by rewrite <- IH|].
    rewrite <- IH. by destruct ts.
Qed.

Lemma join_length sep ts :
  length (join sep ts) = (list_sum (List.map length ts) + pred (length ts))%nat.
Proof.
  induction ts as [|t ts IH]; [done|].
  destruct ts as [|t2 ts]; [simpl; lia|].
  change (join sep (t :: t2 :: ts)) with (t ++ sep :: join sep (t2 :: ts)).
  rewrite length_app.
  change (length (sep :: join sep (t2 :: ts))) with (S (length (join sep (t2 :: ts)))).
  rewrite IH. simpl. lia.
Qed.

Lemma filter_join_length sep (f : list N -> bool) ts :
  (length (join sep (List.filter f ts)) <= length (join sep ts))%nat.
Proof.
  rewrite !join_length.
  assert (list_sum (List.map length (List.filter f ts))
          <= list_sum (List.map length ts))%nat as Hsum.
  { induction ts as [|t ts IH]; simpl; [lia|]. destruct (f t); simpl; lia. }
  pose proof (List.filter_length_le f ts). lia.
Qed.

Lemma dropWhile_length p s : (length (dropWhile p s) <= length s)%nat.
Proof.
  induction s as [|c s IH]; simpl; [lia|]. destruct (p c); simpl; lia.
Qed.

Lemma trim_length s : (length (trim s) <= length s)%nat.
Proof.
  unfold trim. rewrite length_rev.
  etransitivity; [apply dropWhile_length|]. rewrite length_rev.
  apply dropWhile_length.
Qed.

Lemma cleanBookTitle_join_shorter tokens :
  Forall goodToken tokens -> startsWithDigit (join space tokens) = true ->
  (length (cleanBookTitle (join space tokens)) < length (join space tokens))%nat.
Proof.
  intros Htokens Hdigit. unfold cleanBookTitle.
  rewrite collapse_join by done.
  unfold stripSpecial. rewrite (filter_all keepChar).
  2:{ apply join_Forall; [reflexivity|].
      eapply List.Forall_impl; [|exact Htokens].
      intros token [_ Hchars]. eapply List.Forall_impl; [|exact Hchars].
      by intros c [Hkeep _]. }
  destruct (join space tokens) as [|c x]; [discriminate Hdigit|].
  simpl in Hdigit. unfold stripLeadingNumber. rewrite Hdigit.
  simpl dropWhile. rewrite Hdigit.
  eapply Nat.le_lt_trans; [apply filter_join_length|].
  rewrite join_split.
  eapply Nat.le_lt_trans; [apply trim_length|].
  eapply Nat.le_lt_trans; [apply dropWhile_length|].
  eapply Nat.le_lt_trans; [apply dropWhile_length|].
  simpl. lia.
Qed.

(** C2, as stated, fails: the first pass uncovers a number that the
    second pass strips. *)
Lemma cleanBookTitle_not_idempotent :
  cleanBookTitle (of_string "1 22 ab") = of_string "22 ab" /\
  cleanBookTitle (cleanBookTitle (of_string "1 22 ab")) = of_string "ab" /\
  ~ (forall s, cleanBookTitle (cleanBookTitle s) = cleanBookTitle s).
Proof.
  split; [reflexivity|]. split; [reflexivity|].
  intros H. specialize (H (of_string "1 22 ab")). discriminate H.
Qed.

(** C2, amended.  [cleanBookTitle] leaves its own result unchanged
    exactly when that result does not begin with a digit. *)
Theorem cleanBookTitle_idempotent (s : jsstring) :
  cleanBookTitle (cleanBookTitle s) = cleanBookTitle s <->
  startsWithDigit (cleanBookTitle s) = false.
Proof.
  destruct (cleanBookTitle_tokens s) as (tokens & -> & Htokens).
  split.
  - intros Heq. destruct (startsWithDigit (join space tokens)) eqn:E; [|done].
    pose proof (cleanBookTitle_join_shorter tokens Htokens E) as Hlt.
    rewrite Heq in Hlt. lia.
  - by apply cleanBookTitle_join.
Qed.

Lemma cleanBookTitle_idempotent_witness :
  cleanBookTitle (cleanBookTitle (of_string "3   The Lord-of the Rings!!"))
  = cleanBookTitle (of_string "3   The Lord-of the Rings!!").
Proof.
  apply (cleanBookTitle_idempotent (of_string "3   The Lord-of the Rings!!")).
  reflexivity.
Defined.

(** * Further properties of the grouping passes *)

(** ** Groups *)

Section GroupFacts.
Context {A T : Type}.

Lemma scan_marks (close : A -> bool) (absorb : T -> A -> T) rest : forall j used st,
  fst (scan close absorb j rest used st) = marks close j rest used.
Proof.
  induction rest as [|a rest IH]; intros j used st; simpl; [done|].
  case_bool_decide; [apply IH|]. destruct (close a); apply IH.
Qed.

Lemma loop_groups (close : A -> A -> bool) (absorb : A -> T -> A -> T)
    (seed : A -> T) (finish : T -> T) rest : forall i used out,
  loop close absorb seed finish i rest used out
  = out ++ List.map (fun group => finish (fold_left (absorb (fst group)) (snd group)
                                            (seed (fst group))))
             (groups close i rest used).
Proof.
  induction rest as [|a rest IH]; intros i used out; simpl.
  - by rewrite app_nil_r.
  - case_bool_decide; [apply IH|].
    rewrite IH, scan_state, scan_marks, <- app_assoc. reflexivity.
Qed.

End GroupFacts.

Section GroupOrder.
Context {A : Type}.

Lemma marks_mono (close : A -> bool) rest j used : used ⊆ marks close j rest used.
Proof.
  rewrite <- (scan_marks close (fun (_ : unit) _ => tt) rest j used tt).
  apply scan_mono.
Qed.

Lemma marks_index (close : A -> bool) rest j used k a :
  rest !! k = Some a -> (j + k)%nat ∉ used ->
  ((j + k)%nat ∈ marks close j rest used <-> close a = true).
Proof.
  rewrite <- (scan_marks close (fun (_ : unit) _ => tt) rest j used tt).
  apply scan_index.
Qed.

Lemma picks_sublist (close : A -> bool) rest : forall j used,
  sublist (picks close j rest used) rest.
Proof.
  induction rest as [|a rest IH]; intros j used; simpl; [constructor|].
  case_bool_decide; [apply sublist_cons, IH|].
  destruct (close a); [apply sublist_skip | apply sublist_cons]; apply IH.
Qed.

Lemma picks_all_close (close : A -> bool) rest : forall j used,
  Forall (fun a => close a = true) (picks close j rest used).
Proof.
  induction rest as [|a rest IH]; intros j used; simpl; [constructor|].
  case_bool_decide; [apply IH|].
  destruct (close a) eqn:E; [constructor; [exact E|]|]; apply IH.
Qed.

Variable close : A -> A -> bool.

(** Each group is a seed with elements that come after it in the list,
    in list order, all of them close to the seed. *)
Lemma groups_after rest : forall i used,
  Forall (fun group =>
            exists front back,
              rest = front ++ fst group :: back /\
              sublist (snd group) back /\
              Forall (fun b => close (fst group) b = true) (snd group))
         (groups close i rest used).
Proof.
  induction rest as [|a rest IH]; intros i used; simpl; [constructor|].
  assert (forall j used',
            Forall (fun group =>
                      exists front back,
                        a :: rest = front ++ fst group :: back /\
                        sublist (snd group) back /\
                        Forall (fun b => close (fst group) b = true) (snd group))
                   (groups close j rest used')) as Htail.
  { intros j used'. eapply List.Forall_impl; [|apply (IH j used')].
    intros group (front & back & -> & Hsub & Hclose).
    by exists (a :: front), back. }
  case_bool_decide; [apply Htail|].
  constructor; [|apply Htail].
  exists [], rest. simpl. split; [done|].
  split; [apply picks_sublist | apply picks_all_close].
Qed.

(** The seeds are elements of the list, in list order. *)
Lemma groups_seeds_sublist rest : forall i used,
  sublist (List.map fst (groups close i rest used)) rest.
Proof.
  induction rest as [|a rest IH]; intros i used; simpl; [constructor|].
  case_bool_decide; [apply sublist_cons, IH|].
  simpl. apply sublist_skip, IH.
Qed.

(** A seed is an element that no scan has marked. *)
Lemma groups_seed_free rest : forall i used group,
  In group (groups close i rest used) ->
  exists k, rest !! k = Some (fst group) /\ (i + k)%nat ∉ used.
Proof.
  induction rest as [|a rest IH]; intros i used group; simpl; [done|].
  case_bool_decide as Hi.
  - intros Hin. destruct (IH _ _ _ Hin) as (k & Hk & Hfree).
    exists (S k). split; [done|]. by replace (i + S k)%nat with (S i + k)%nat by lia.
  - intros [<-|Hin].
    + exists 0%nat. split; [done|]. by rewrite Nat.add_0_r.
    + destruct (IH _ _ _ Hin) as (k & Hk & Hfree).
      exists (S k). split; [done|].
      replace (i + S k)%nat with (S i + k)%nat by lia.
      intros Hused. apply Hfree.
      apply (marks_mono (close a) rest (S i) ({[i]} ∪ used)).
      apply elem_of_union. by right.
Qed.

(** No seed is close to an earlier seed: it would have been merged. *)
Lemma groups_apart rest : forall i used,
  ForallOrdPairs (fun g h => close (fst g) (fst h) = false) (groups close i rest used).
Proof.
  induction rest as [|a rest IH]; intros i used; simpl; [constructor|].
  case_bool_decide as Hi; [apply IH|].
  constructor; [|apply IH].
  apply List.Forall_forall. intros group Hin. simpl.
  destruct (groups_seed_free _ _ _ _ Hin) as (k & Hk & Hfree).
  destruct (close a (fst group)) eqn:E; [|done].
  exfalso. apply Hfree.
  apply (marks_index (close a) rest (S i) ({[i]} ∪ used) k (fst group)); [done| |done].
  intros Hused. apply Hfree.
  by apply (marks_mono (close a) rest (S i) ({[i]} ∪ used)).
Qed.

End GroupOrder.

Lemma groupWordsIntoRegions_groups words :
  groupWordsIntoRegions words = List.map buildRegion (groups wordsClose 0 words ∅).
Proof. by rewrite groupWordsIntoRegions_loop, loop_groups. Qed.

Lemma spineCandidates_groups regions :
  spineCandidates regions = List.map buildSpine (groups sameSpine 0 regions ∅).
Proof. unfold spineCandidates. by rewrite candidateLoop_loop, loop_groups. Qed.

(** ** What a region and a spine candidate are made of *)

Lemma fold_absorbWord_words picked : forall region,
  Region.words (fold_left absorbWord picked region) = Region.words region ++ picked.
Proof.
  intros region.
  apply (members_fold (fun _ : Word.t => absorbWord) Region.words); [done|].
  exact (Word.mk [] 0 (box 0 0 0 0)).
Qed.

Lemma fold_absorbRegion_regions seed picked : forall spine,
  Spine.textRegions (fold_left (absorbRegion seed) picked spine)
  = Spine.textRegions spine ++ picked.
Proof.
  intros spine. by apply (members_fold absorbRegion Spine.textRegions).
Qed.

Lemma buildRegion_words group :
  Region.words (buildRegion group) = fst group :: snd group.
Proof. unfold buildRegion. simpl. by rewrite fold_absorbWord_words. Qed.

Lemma buildSpine_regions group :
  Spine.textRegions (buildSpine group) = fst group :: snd group.
Proof. unfold buildSpine. by rewrite fold_absorbRegion_regions. Qed.

Lemma fold_absorbWord_text picked : forall region,
  Region.text region = join space (List.map Word.text (Region.words region)) ->
  Region.words region <> [] ->
  Region.text (fold_left absorbWord picked region)
  = join space (List.map Word.text (Region.words region ++ picked)).
Proof.
  induction picked as [|word2 picked IH]; intros region Htext Hne; simpl.
  - by rewrite app_nil_r.
  - rewrite IH.
    + simpl. by rewrite <- app_assoc.
    + simpl. rewrite List.map_app. simpl.
      rewrite join_snoc by (by destruct (Region.words region)).
      unfold spaced. by rewrite Htext.
    + simpl. by destruct (Region.words region).
Qed.

Lemma fold_absorbWord_bbox picked : forall region,
  Region.bbox (fold_left absorbWord picked region)
  = {| x0 := fold_left Num.min (List.map x0 (List.map Word.bbox picked))
                (x0 (Region.bbox region));
       y0 := fold_left Num.min (List.map y0 (List.map Word.bbox picked))
                (y0 (Region.bbox region));
       x1 := fold_left Num.max (List.map x1 (List.map Word.bbox picked))
                (x1 (Region.bbox region));
       y1 := fold_left Num.max (List.map y1 (List.map Word.bbox picked))
                (y1 (Region.bbox region)) |}.
Proof.
  induction picked as [|word2 picked IH]; intros region; simpl.
  - by destruct (Region.bbox region).
  - by rewrite IH.
Qed.

Lemma fold_absorbRegion_bbox seed picked : forall spine,
  Spine.bbox (fold_left (absorbRegion seed) picked spine)
  = {| x0 := fold_left Num.min (List.map x0 (List.map Region.bbox picked))
                (x0 (Spine.bbox spine));
       y0 := fold_left Num.min (List.map y0 (List.map Region.bbox picked))
                (y0 (Spine.bbox spine));
       x1 := fold_left Num.max (List.map x1 (List.map Region.bbox picked))
                (x1 (Spine.bbox spine));
       y1 := fold_left Num.max (List.map y1 (List.map Region.bbox picked))
                (y1 (Spine.bbox spine)) |}.
Proof.
  induction picked as [|region2 picked IH]; intros spine; simpl.
  - by destruct (Spine.bbox spine).
  - by rewrite IH.
Qed.

Lemma fold_absorbRegion_orientation seed picked : forall spine,
  Spine.orientation (fold_left (absorbRegion seed) picked spine) = Spine.orientation spine.
Proof.
  induction picked as [|region2 picked IH]; intros spine; simpl; [done|].
  by rewrite IH.
Qed.

Lemma boundingBox_contains boxes b : In b boxes -> contains (boundingBox boxes) b.
Proof.
  intros Hin. unfold contains, boundingBox. simpl.
  pose proof (minimum_maximum (List.map x0 boxes) (x0 b) (List.in_map x0 _ _ Hin)).
  pose proof (minimum_maximum (List.map y0 boxes) (y0 b) (List.in_map y0 _ _ Hin)).
  pose proof (minimum_maximum (List.map x1 boxes) (x1 b) (List.in_map x1 _ _ Hin)).
  pose proof (minimum_maximum (List.map y1 boxes) (y1 b) (List.in_map y1 _ _ Hin)).
  tauto.
Qed.

(** A bounding box of well-formed boxes is well-formed. *)
Lemma boundingBox_wellFormed b boxes :
  wellFormed b -> wellFormed (boundingBox (b :: boxes)).
Proof.
  intros [Hx Hy]. unfold wellFormed, boundingBox. simpl.
  pose proof (fold_min_le_init (List.map x0 boxes) (x0 b)).
  pose proof (fold_min_le_init (List.map y0 boxes) (y0 b)).
  pose proof (fold_max_ge_init (List.map x1 boxes) (x1 b)).
  pose proof (fold_max_ge_init (List.map y1 boxes) (y1 b)).
  split; lra.
Qed.

Lemma buildRegion_bbox group :
  Region.bbox (buildRegion group)
  = boundingBox (List.map Word.bbox (fst group :: snd group)).
Proof. unfold buildRegion. simpl. by rewrite fold_absorbWord_bbox. Qed.

Lemma buildSpine_bbox group :
  Spine.bbox (buildSpine group)
  = boundingBox (List.map Region.bbox (fst group :: snd group)).
Proof. unfold buildSpine. by rewrite fold_absorbRegion_bbox. Qed.

Lemma buildRegion_text group :
  Region.text (buildRegion group)
  = join space (List.map Word.text (fst group :: snd group)).
Proof.
  unfold buildRegion. simpl.
  by rewrite (fold_absorbWord_text (snd group) (seedRegion (fst group))).
Qed.

Lemma region_in_groups words region :
  In region (groupWordsIntoRegions words) ->
  exists group, In group (groups wordsClose 0 words ∅) /\ region = buildRegion group.
Proof.
  rewrite groupWordsIntoRegions_groups. intros Hin.
  apply List.in_map_iff in Hin as (group & <- & Hin). eauto.
Qed.

Lemma candidate_in_groups regions spine :
  In spine (spineCandidates regions) ->
  exists group, In group (groups sameSpine 0 regions ∅) /\ spine = buildSpine group.
Proof.
  rewrite spineCandidates_groups. intros Hin.
  apply List.in_map_iff in Hin as (group & <- & Hin). eauto.
Qed.

(** Every spine returned is a candidate with its title cleaned. *)
Lemma spine_in_groups regions spine :
  In spine (detectBookSpines regions) ->
  exists group, In group (groups sameSpine 0 regions ∅) /\
                spine = cleanSpine (buildSpine group).
Proof.
  intros Hin. apply (Permutation_in _ (detectBookSpines_perm regions)) in Hin.
  apply List.filter_In in Hin as [Hin _].
  apply List.in_map_iff in Hin as (candidate & <- & Hin).
  apply candidate_in_groups in Hin as (group & Hin & ->). eauto.
Qed.

(** ** Regions *)

(** X1. Every region returned by [groupWordsIntoRegions] carries the texts of
    its words joined by single spaces, in the order of its word list, and
    the orientation [determineOrientation] gives for that word list (the
    value set from the seed alone is overwritten). *)
Theorem region_text_orientation (words : list Word.t) :
  Forall (fun region =>
            Region.text region
            = join space (List.map Word.text (Region.words region)) /\
            Region.orientation region = determineOrientation (Region.words region))
         (groupWordsIntoRegions words).
Proof.
  rewrite groupWordsIntoRegions_groups. apply List.Forall_map.
  apply List.Forall_forall. intros group _.
  split; [by rewrite buildRegion_text, buildRegion_words|].
  reflexivity.
Qed.

(** X2. The box of every region returned is the bounding box of the boxes of
    its words: each corner is the smallest (or largest) coordinate among
    them, so the box contains the box of each of its words. *)
Theorem region_bbox_bounds (words : list Word.t) :
  Forall (fun region =>
            Region.bbox region
            = boundingBox (List.map Word.bbox (Region.words region)) /\
            Forall (fun word => contains (Region.bbox region) (Word.bbox word))
                   (Region.words region))
         (groupWordsIntoRegions words).
Proof.
  rewrite groupWordsIntoRegions_groups. apply List.Forall_map.
  apply List.Forall_forall. intros group _.
  rewrite buildRegion_bbox, buildRegion_words. split; [done|].
  apply List.Forall_forall. intros word Hin.
  apply boundingBox_contains. by apply List.in_map.
Qed.

(** X3. The first word of a region is its seed; every other word of the
    region comes after the seed in the input, the words keep their input
    order, and each of them passes the distance test against the seed
    (not against the words merged before it). *)
Theorem region_words_near_seed (words : list Word.t) :
  Forall (fun region =>
            exists seed others front back,
              Region.words region = seed :: others /\
              words = front ++ seed :: back /\
              sublist others back /\
              Forall (fun word => wordsClose seed word = true) others)
         (groupWordsIntoRegions words).
Proof.
  rewrite groupWordsIntoRegions_groups. apply List.Forall_map.
  eapply List.Forall_impl; [|apply groups_after].
  intros group (front & back & Hwords & Hsub & Hclose).
  exists (fst group), (snd group), front, back.
  by rewrite buildRegion_words.
Qed.

(** X4. The seeds of the regions returned are words of the input in input
    order, one per region, and no seed passes the distance test against
    the seed of an earlier region. *)
Theorem region_seeds_apart (words : list Word.t) :
  exists seeds,
    List.map (fun region => head (Region.words region)) (groupWordsIntoRegions words)
    = List.map Some seeds /\
    sublist seeds words /\
    ForallOrdPairs (fun seed later => wordsClose seed later = false) seeds.
Proof.
  exists (List.map fst (groups wordsClose 0 words ∅)).
  split; [|split].
  - rewrite groupWordsIntoRegions_groups, !List.map_map.
    apply List.map_ext. intros group. by rewrite buildRegion_words.
  - apply groups_seeds_sublist.
  - generalize (groups_apart wordsClose words 0 ∅).
    induction 1 as [|group rest Hhead Htail IH]; simpl; constructor; [|done].
    by apply List.Forall_map.
Qed.

(** X5. A non-empty input gives at least one region and never more regions
    than words; every region has at least one word. *)
Theorem region_count (words : list Word.t) :
  (length (groupWordsIntoRegions words) <= length words)%nat /\
  (words <> [] -> groupWordsIntoRegions words <> []) /\
  Forall (fun region => Region.words region <> []) (groupWordsIntoRegions words).
Proof.
  split; [|split].
  - rewrite groupWordsIntoRegions_groups, length_map.
    rewrite <- (length_map fst).
    apply sublist_length, groups_seeds_sublist.
  - intros Hne. rewrite groupWordsIntoRegions_groups.
    destruct words as [|word words]; [done|]. simpl.
    rewrite bool_decide_eq_false_2 by set_solver. done.
  - rewrite groupWordsIntoRegions_groups. apply List.Forall_map.
    apply List.Forall_forall. intros group _. by rewrite buildRegion_words.
Qed.

Lemma region_count_witness : groupWordsIntoRegions [harry; potter] <> [].
Proof. apply (region_count [harry; potter]). discriminate. Defined.

(** X6. Well-formed boxes stay well-formed: when every word box has
    [x0 <= x1] and [y0 <= y1], so has the box of every region, and then
    the box of every spine candidate built from these regions. *)
Theorem boxes_stay_wellFormed (words : list Word.t) :
  Forall (fun word => wellFormed (Word.bbox word)) words ->
  Forall (fun region => wellFormed (Region.bbox region)) (groupWordsIntoRegions words) /\
  Forall (fun spine => wellFormed (Spine.bbox spine))
         (spineCandidates (groupWordsIntoRegions words)).
Proof.
  intros Hwords.
  assert (Forall (fun region => wellFormed (Region.bbox region))
            (groupWordsIntoRegions words)) as Hregions.
  { rewrite groupWordsIntoRegions_groups. apply List.Forall_map.
    eapply List.Forall_impl; [|apply groups_after].
    intros group (front & back & Heq & _ & _).
    rewrite buildRegion_bbox. apply boundingBox_wellFormed.
    rewrite List.Forall_forall in Hwords. apply Hwords.
    rewrite Heq. apply in_elt. }
  split; [exact Hregions|].
  rewrite spineCandidates_groups. apply List.Forall_map.
  eapply List.Forall_impl; [|apply groups_after].
  intros group (front & back & Heq & _ & _).
  rewrite buildSpine_bbox. apply boundingBox_wellFormed.
  rewrite List.Forall_forall in Hregions. apply Hregions.
  rewrite Heq. apply in_elt.
Qed.

Lemma boxes_stay_wellFormed_witness :
  Forall (fun region => wellFormed (Region.bbox region)) (groupWordsIntoRegions shelfWords).
Proof.
  apply (boxes_stay_wellFormed shelfWords).
  repeat constructor; simpl; unfold Qle; simpl; lia.
Defined.

(** ** Spines *)

Lemma group_after_seed {A : Type} (close : A -> A -> bool) rest group :
  In group (groups close 0 rest ∅) ->
  exists front back,
    rest = front ++ fst group :: back /\
    sublist (snd group) back /\
    Forall (fun b => close (fst group) b = true) (snd group).
Proof.
  intros Hin. pose proof (groups_after close rest 0 ∅) as H.
  rewrite List.Forall_forall in H. by apply H.
Qed.

(** X7. Every spine [detectBookSpines] returns starts its region list with
    its seed; every other region of it comes after the seed in the input,
    in input order, and passes the alignment and distance test against
    the seed.  The orientation of the spine is the orientation of the
    seed region, whatever the merged regions have. *)
Theorem spine_regions_aligned (regions : list Region.t) :
  Forall (fun spine =>
            exists seed others front back,
              Spine.textRegions spine = seed :: others /\
              regions = front ++ seed :: back /\
              sublist others back /\
              Forall (fun region => sameSpine seed region = true) others /\
              Spine.orientation spine = Region.orientation seed)
         (detectBookSpines regions).
Proof.
  apply List.Forall_forall. intros spine Hin.
  apply spine_in_groups in Hin as (group & Hin & ->).
  destruct (group_after_seed sameSpine regions group Hin)
    as (front & back & Hregions & Hsub & Hclose).
  exists (fst group), (snd group), front, back.
  simpl. rewrite buildSpine_regions.
  repeat split; try done.
  unfold buildSpine. by rewrite fold_absorbRegion_orientation.
Qed.

(** X8. The box of every spine returned is the bounding box of the boxes of
    its regions, and contains each of them. *)
Theorem spine_bbox_bounds (regions : list Region.t) :
  Forall (fun spine =>
            Spine.bbox spine
            = boundingBox (List.map Region.bbox (Spine.textRegions spine)) /\
            Forall (fun region => contains (Spine.bbox spine) (Region.bbox region))
                   (Spine.textRegions spine))
         (detectBookSpines regions).
Proof.
  apply List.Forall_forall. intros spine Hin.
  apply spine_in_groups in Hin as (group & Hin & ->).
  simpl. rewrite buildSpine_bbox, buildSpine_regions. split; [done|].
  apply List.Forall_forall. intros region Hregion.
  apply boundingBox_contains. by apply List.in_map.
Qed.

(** X9. The seeds of the spine candidates are regions of the input in input
    order, one per candidate, and no seed passes the alignment and
    distance test against the seed of an earlier candidate. *)
Theorem spine_seeds_apart (regions : list Region.t) :
  exists seeds,
    List.map (fun spine => head (Spine.textRegions spine)) (spineCandidates regions)
    = List.map Some seeds /\
    sublist seeds regions /\
    ForallOrdPairs (fun seed later => sameSpine seed later = false) seeds.
Proof.
  exists (List.map fst (groups sameSpine 0 regions ∅)).
  split; [|split].
  - rewrite spineCandidates_groups, !List.map_map.
    apply List.map_ext. intros group. by rewrite buildSpine_regions.
  - apply groups_seeds_sublist.
  - generalize (groups_apart sameSpine regions 0 ∅).
    induction 1 as [|group rest Hhead Htail IH]; simpl; constructor; [|done].
    by apply List.Forall_map.
Qed.

(** ** The order of the result *)

Lemma insertSpine_sorted a sorted :
  StronglySorted (fun s t => centerY (Spine.bbox s) <= centerY (Spine.bbox t)) sorted ->
  StronglySorted (fun s t => centerY (Spine.bbox s) <= centerY (Spine.bbox t))
                 (insertSpine a sorted).
Proof.
  induction 1 as [|b sorted Hsorted IH Hb]; simpl.
  - constructor; constructor.
  - destruct (Num.gtb _ _) eqn:E.
    + apply gtb_gt in E. constructor; [exact IH|].
      apply List.Forall_forall. intros s Hs.
      apply (Permutation_in _ (insertSpine_perm a sorted)) in Hs.
      destruct Hs as [<-|Hs]; [lra|].
      rewrite List.Forall_forall in Hb. by apply Hb.
    + apply gtb_le in E. constructor; [by constructor|].
      constructor; [lra|].
      eapply List.Forall_impl; [|exact Hb]. intros s Hs. simpl in Hs. lra.
Qed.

(** X10. The spines [detectBookSpines] returns are in non-decreasing order of
    the vertical centre [(y0 + y1) / 2] of their boxes. *)
Theorem detectBookSpines_sorted (regions : list Region.t) :
  StronglySorted (fun s t => centerY (Spine.bbox s) <= centerY (Spine.bbox t))
                 (detectBookSpines regions).
Proof.
  unfold detectBookSpines, sortSpines.
  induction (spineLoop 0 regions ∅ []) as [|a spines IH]; simpl.
  - constructor.
  - by apply insertSpine_sorted.
Qed.

Lemma insertSpine_filter (p : Spine.t -> bool) a sorted :
  (forall b, p a = true -> p b = true ->
             Num.gtb (centerY (Spine.bbox a) - centerY (Spine.bbox b)) 0 = false) ->
  List.filter p (insertSpine a sorted) = List.filter p (a :: sorted).
Proof.
  intros Hp. induction sorted as [|b sorted IH]; [done|].
  simpl insertSpine. destruct (Num.gtb _ _) eqn:E; [|done].
  simpl. simpl in IH. rewrite IH.
  destruct (p a) eqn:Ea, (p b) eqn:Eb; try done.
  by rewrite (Hp b eq_refl Eb) in E.
Qed.

(** X11. The sort is stable: the spines that share a vertical centre come out
    in the order in which the outer loop pushed them. *)
Theorem detectBookSpines_stable (regions : list Region.t) (key : Q) :
  List.filter (fun spine => Qeq_bool (centerY (Spine.bbox spine)) key)
              (detectBookSpines regions)
  = List.filter (fun spine => Qeq_bool (centerY (Spine.bbox spine)) key)
                (List.filter accepted (List.map cleanSpine (spineCandidates regions))).
Proof.
  unfold detectBookSpines, spineCandidates.
  rewrite <- (spineLoop_candidates regions 0 ∅ []). simpl.
  induction (spineLoop 0 regions ∅ []) as [|a spines IH]; [done|].
  simpl sortSpines. rewrite insertSpine_filter.
  - simpl. by rewrite IH.
  - intros b Ha Hb. apply Qeq_bool_iff in Ha, Hb. apply gtb_le. lra.
Qed.

(** ** Input given from top to bottom *)

Lemma sublist_all {A : Type} (P : A -> Prop) (l k : list A) :
  sublist l k -> Forall P k -> Forall P l.
Proof.
  induction 1 as [|x l k Hsub IH|x l k Hsub IH]; intros Hk.
  - constructor.
  - inversion Hk; subst. constructor; [done | by apply IH].
  - inversion Hk; subst. by apply IH.
Qed.

Lemma sublist_sorted {A : Type} (R : A -> A -> Prop) (l k : list A) :
  sublist l k -> StronglySorted R k -> StronglySorted R l.
Proof.
  induction 1 as [|x l k Hsub IH|x l k Hsub IH]; intros Hk.
  - constructor.
  - inversion Hk; subst. constructor; [by apply IH|].
    by apply (sublist_all _ l k).
  - inversion Hk; subst. by apply IH.
Qed.

Lemma sorted_back {A : Type} (R : A -> A -> Prop) (front : list A) a back :
  StronglySorted R (front ++ a :: back) -> StronglySorted R (a :: back).
Proof.
  induction front as [|b front IH]; simpl; [done|].
  intros H. inversion H; subst. by apply IH.
Qed.

Lemma y0_sorted_strongly {A : Type} (key : A -> Q) (l : list A) :
  Sorted (fun a b => key a <= key b) l ->
  StronglySorted (fun a b => key a <= key b) l.
Proof.
  apply Sorted_StronglySorted. intros a b c Hab Hbc. lra.
Qed.

Lemma fold_min_init l : forall c,
  Forall (fun x => c <= x) l -> fold_left Num.min l c = c.
Proof.
  induction l as [|x l IH]; intros c Hl; simpl; [done|].
  inversion Hl as [|? ? Hx Hl']; subst.
  assert (Num.min c x = c) as ->.
  { unfold Num.min. apply Qle_bool_iff in Hx. by rewrite Hx. }
  by apply IH.
Qed.

Lemma filter_none {A : Type} (f : A -> bool) l :
  Forall (fun a => f a = false) l -> List.filter f l = [].
Proof.
  induction 1 as [|a l Ha Hl IH]; simpl; [done|]. by rewrite Ha.
Qed.

Lemma titleOrder_below seed merged :
  Forall (fun region => y0 (Region.bbox seed) <= y0 (Region.bbox region)) merged ->
  titleOrder seed merged = seed :: merged.
Proof.
  intros Hbelow. unfold titleOrder.
  assert (Forall (fun region => above seed region = false) merged) as Hnot.
  { eapply List.Forall_impl; [|exact Hbelow]. intros region Hle. by apply ltb_ge. }
  rewrite (filter_none (above seed)) by done.
  rewrite filter_all; [done|].
  eapply List.Forall_impl; [|exact Hnot]. intros region Hregion. by rewrite Hregion.
Qed.

Lemma candidate_top_to_bottom (regions : list Region.t) (spine : Spine.t) :
  StronglySorted (fun a b => y0 (Region.bbox a) <= y0 (Region.bbox b)) regions ->
  In spine (spineCandidates regions) ->
  Spine.title spine = join space (List.map Region.text (Spine.textRegions spine)) /\
  StronglySorted (fun a b => y0 (Region.bbox a) <= y0 (Region.bbox b))
                 (Spine.textRegions spine).
Proof.
  intros Hsorted Hin.
  pose proof (candidates_title regions) as Htitle.
  rewrite List.Forall_forall in Htitle.
  destruct (Htitle spine Hin) as (seed & merged & Hregions & Hspine).
  apply candidate_in_groups in Hin as (group & Hin & ->).
  destruct (group_after_seed sameSpine regions group Hin)
    as (front & back & Heq & Hsub & _).
  rewrite buildSpine_regions in Hregions. injection Hregions as <- <-.
  rewrite Heq in Hsorted. apply sorted_back in Hsorted.
  assert (StronglySorted (fun a b => y0 (Region.bbox a) <= y0 (Region.bbox b))
            (fst group :: snd group)) as Hgroup.
  { apply (sublist_sorted _ _ (fst group :: back)); [|done]. by apply sublist_skip. }
  rewrite buildSpine_regions. split; [|exact Hgroup].
  rewrite Hspine, titleOrder_below; [done|]. by inversion Hgroup.
Qed.

(** X12. When the regions are given from top to bottom (their [y0] never
    decreases along the list), every spine candidate lists its regions
    from top to bottom and its title, before cleanup, is their texts
    joined in that order: every merge takes the appending branch. *)
Theorem titles_top_to_bottom (regions : list Region.t) :
  Sorted (fun a b => y0 (Region.bbox a) <= y0 (Region.bbox b)) regions ->
  Forall (fun spine =>
            Spine.title spine
            = join space (List.map Region.text (Spine.textRegions spine)) /\
            Sorted (fun a b => y0 (Region.bbox a) <= y0 (Region.bbox b))
                   (Spine.textRegions spine) /\
            textsTopToBottom spine)
         (spineCandidates regions).
Proof.
  intros Hsorted. apply y0_sorted_strongly in Hsorted.
  apply List.Forall_forall. intros spine Hin.
  destruct (candidate_top_to_bottom regions spine Hsorted Hin) as [Htitle Hregions].
  apply StronglySorted_Sorted in Hregions.
  split; [exact Htitle|]. split; [exact Hregions|].
  exists (Spine.textRegions spine). by split.
Qed.

Lemma titles_top_to_bottom_witness :
  Forall textsTopToBottom (spineCandidates [seedRegion harry; seedRegion potter]).
Proof.
  eapply List.Forall_impl;
    [|apply (titles_top_to_bottom [seedRegion harry; seedRegion potter])].
  - intros spine H. apply H.
  - repeat constructor. simpl. unfold Qle. simpl. lia.
Defined.

Lemma buildRegion_top group :
  Forall (fun word => y0 (Word.bbox (fst group)) <= y0 (Word.bbox word)) (snd group) ->
  y0 (Region.bbox (buildRegion group)) = y0 (Word.bbox (fst group)).
Proof.
  intros Hbelow. rewrite buildRegion_bbox. simpl.
  apply fold_min_init. rewrite List.map_map. by apply List.Forall_map.
Qed.

Lemma region_tops (words : list Word.t) :
  StronglySorted (fun a b => y0 (Word.bbox a) <= y0 (Word.bbox b)) words ->
  Forall (fun group =>
            y0 (Region.bbox (buildRegion group)) = y0 (Word.bbox (fst group)))
         (groups wordsClose 0 words ∅).
Proof.
  intros Hsorted. eapply List.Forall_impl; [|apply groups_after].
  intros group (front & back & Heq & Hsub & _).
  apply buildRegion_top. rewrite Heq in Hsorted. apply sorted_back in Hsorted.
  inversion Hsorted; subst. by apply (sublist_all _ _ back).
Qed.

Lemma regions_keep_order (words : list Word.t) :
  StronglySorted (fun a b => y0 (Word.bbox a) <= y0 (Word.bbox b)) words ->
  StronglySorted (fun a b => y0 (Region.bbox a) <= y0 (Region.bbox b))
                 (groupWordsIntoRegions words).
Proof.
  intros Hsorted. rewrite groupWordsIntoRegions_groups.
  pose proof (region_tops words Hsorted) as Htop.
  pose proof (sublist_sorted _ _ _ (groups_seeds_sublist wordsClose words 0 ∅) Hsorted)
    as Hseeds.
  revert Hseeds. generalize dependent (groups wordsClose 0 words ∅).
  intros gs Htop.
  induction Htop as [|group rest Hgroup Hrest IH]; intros Hseeds; [constructor|].
  simpl in Hseeds. inversion Hseeds as [|? ? Htail Hhead]; subst.
  simpl. constructor; [by apply IH|].
  apply List.Forall_map. rewrite Hgroup.
  rewrite List.Forall_forall in Hhead, Hrest. apply List.Forall_forall.
  intros later Hlater. rewrite (Hrest later Hlater).
  apply Hhead. by apply List.in_map.
Qed.

(** X13. [groupWordsIntoRegions] keeps the order: when the words are given
    from top to bottom, the top of every region is the top of its seed
    and the regions come out from top to bottom. *)
Theorem regions_top_to_bottom (words : list Word.t) :
  Sorted (fun a b => y0 (Word.bbox a) <= y0 (Word.bbox b)) words ->
  Forall (fun region =>
            exists seed, head (Region.words region) = Some seed /\
                         y0 (Region.bbox region) = y0 (Word.bbox seed))
         (groupWordsIntoRegions words) /\
  Sorted (fun a b => y0 (Region.bbox a) <= y0 (Region.bbox b))
         (groupWordsIntoRegions words).
Proof.
  intros Hsorted. apply y0_sorted_strongly in Hsorted. split.
  - rewrite groupWordsIntoRegions_groups. apply List.Forall_map.
    eapply List.Forall_impl; [|exact (region_tops words Hsorted)].
    intros group Hgroup. exists (fst group). by rewrite buildRegion_words.
  - by apply StronglySorted_Sorted, regions_keep_order.
Qed.

Lemma regions_top_to_bottom_witness :
  Sorted (fun a b => y0 (Region.bbox a) <= y0 (Region.bbox b))
         (groupWordsIntoRegions [harry; potter]).
Proof.
  apply (regions_top_to_bottom [harry; potter]).
  repeat constructor. simpl. unfold Qle. simpl. lia.
Defined.

(** ** The synthesized words *)

Lemma splitWhiteFrom_nonwhite s : forall inRun,
  Forall (Forall (fun c => isWhite c = false)) (splitWhiteFrom inRun s).
Proof.
  induction s as [|c s IH]; intros inRun; simpl; [by repeat constructor|].
  destruct (isWhite c) eqn:E.
  - destruct inRun; [apply IH|]. constructor; [constructor | apply IH].
  - specialize (IH false). destruct (splitWhiteFrom false s) as [|t ts].
    + by repeat constructor.
    + inversion IH; subst. constructor; [by constructor | done].
Qed.

Lemma pushLineWords_synthesized random lineIndex lineWords : forall wordIndex words,
  Forall (Forall (fun c => isWhite c = false)) lineWords ->
  Forall (synthesized random) words ->
  Forall (synthesized random) (pushLineWords random lineIndex wordIndex lineWords words).
Proof.
  induction lineWords as [|word lineWords IH]; intros wordIndex words Hline Hwords;
    simpl; [done|].
  inversion Hline; subst. apply IH; [done|].
  destruct (1 <? length word)%nat eqn:E; [|done].
  apply Forall_app. split; [done|]. constructor; [|constructor].
  split; [by exists lineIndex, wordIndex|].
  split; [by exists (length words)|].
  split; [by apply Nat.ltb_lt | done].
Qed.

Lemma pushLines_synthesized random lines : forall lineIndex words,
  Forall (synthesized random) words ->
  Forall (synthesized random) (pushLines random lineIndex lines words).
Proof.
  induction lines as [|line lines IH]; intros lineIndex words Hwords; simpl; [done|].
  apply IH, pushLineWords_synthesized; [apply splitWhiteFrom_nonwhite | done].
Qed.

Lemma mockWords_synthesized random text :
  Forall (synthesized random) (mockWords random text).
Proof. apply pushLines_synthesized. constructor. Qed.

Lemma num_S n : num (S n) == num n + 1.
Proof.
  unfold num. rewrite Nat2Z.inj_succ. unfold Z.succ. by rewrite inject_Z_plus.
Qed.

Lemma num_nonneg n : 0 <= num n.
Proof.
  unfold num. change 0 with (inject_Z 0). rewrite <- Zle_Qle. lia.
Qed.

Lemma inCell_wellFormed word line column :
  inCell word line column -> wellFormed (Word.bbox word).
Proof.
  unfold inCell, wellFormed. intros ->. simpl. split; lra.
Qed.

Lemma inCell_wide word line column : inCell word line column -> isWide word = true.
Proof.
  unfold inCell, isWide, width, height. intros ->. simpl. apply gtb_gt. lra.
Qed.

Lemma synthesized_confidence random word :
  synthesized random word -> 60 <= Word.confidence word.
Proof.
  intros (_ & (k & ->) & _). apply max_ge_l.
Qed.

Lemma sorted_snoc {A : Type} (R : A -> A -> Prop) l a :
  StronglySorted R l -> Forall (fun x => R x a) l -> StronglySorted R (l ++ [a]).
Proof.
  induction 1 as [|b l Hl IH Hb]; intros Ha; simpl.
  - constructor; constructor.
  - inversion Ha; subst. constructor; [by apply IH|].
    apply Forall_app. split; [done|]. by constructor.
Qed.

Lemma pushLineWords_order random lineIndex lineWords : forall wordIndex words,
  inLineOrder lineIndex words ->
  inLineOrder lineIndex (pushLineWords random lineIndex wordIndex lineWords words).
Proof.
  induction lineWords as [|word lineWords IH]; intros wordIndex words Hwords;
    simpl; [done|].
  apply IH. destruct (1 <? length word)%nat; [|done].
  destruct Hwords as [Hsorted Hbelow]. split.
  - by apply sorted_snoc.
  - apply Forall_app. split; [done|]. constructor; [simpl; lra | constructor].
Qed.

Lemma pushLines_order random lines : forall lineIndex words,
  inLineOrder lineIndex words ->
  inLineOrder (length lines + lineIndex) (pushLines random lineIndex lines words).
Proof.
  induction lines as [|line lines IH]; intros lineIndex words Hwords; simpl; [done|].
  replace (S (length lines + lineIndex)) with (length lines + S lineIndex)%nat by lia.
  apply IH.
  destruct (pushLineWords_order random lineIndex (splitWhite (trim line)) 0 words Hwords)
    as [Hsorted Hbelow].
  split; [done|].
  eapply List.Forall_impl; [|exact Hbelow].
  intros word Hword. simpl in Hword. rewrite num_S. lra.
Qed.

Lemma mockWords_sorted random text :
  Sorted (fun a b => y0 (Word.bbox a) <= y0 (Word.bbox b)) (mockWords random text).
Proof.
  apply StronglySorted_Sorted.
  apply (pushLines_order random (textLines text) 0 []).
  split; constructor.
Qed.

Lemma pushLineWords_cells random lineIndex lineWords : forall wordIndex words,
  pushLineWords random lineIndex wordIndex lineWords words
  = words ++ imap (fun k => cellWord random (length words + k))
               (List.filter (fun '(word, _, _) => (1 <? length word)%nat)
                  (imap (fun w word => (word, lineIndex, (wordIndex + w)%nat)) lineWords)).
Proof.
  induction lineWords as [|word lineWords IH]; intros wordIndex words; simpl.
  - by rewrite app_nil_r.
  - rewrite IH. rewrite Nat.add_0_r.
    rewrite (imap_ext ((fun w word0 => (word0, lineIndex, (wordIndex + w)%nat)) ∘ S)
               (fun w word0 => (word0, lineIndex, (S wordIndex + w)%nat)) lineWords)
      by (intros; simpl; f_equal; lia).
    destruct (1 <? length word)%nat; [|done].
    simpl. rewrite <- app_assoc. simpl. rewrite Nat.add_0_r. do 2 f_equal.
    apply imap_ext. intros k cell _. simpl. rewrite length_app. simpl.
    f_equal. lia.
Qed.

Lemma pushLines_cells random lines : forall lineIndex words,
  pushLines random lineIndex lines words
  = words ++ imap (fun k => cellWord random (length words + k))
               (concat (imap (fun l => lineCells (lineIndex + l)) lines)).
Proof.
  induction lines as [|line lines IH]; intros lineIndex words; simpl.
  - by rewrite app_nil_r.
  - rewrite IH, pushLineWords_cells. rewrite Nat.add_0_r.
    rewrite <- app_assoc. f_equal.
    rewrite imap_app. unfold lineCells at 2.
    rewrite (imap_ext (fun w word => (word, lineIndex, (0 + w)%nat))
               (fun w word => (word, lineIndex, w)) (splitWhite (trim line))) by done.
    f_equal.
    rewrite (imap_ext ((fun l => lineCells (lineIndex + l)) ∘ S)
               (fun l => lineCells (S lineIndex + l)) lines)
      by (intros; simpl; f_equal; lia).
    apply imap_ext. intros k cell _. simpl. rewrite length_app, length_imap.
    unfold lineCells. f_equal. lia.
Qed.

Lemma cells_tokens text :
  Forall (fun '(word, lineIndex, wordIndex) =>
            exists line,
              textLines text !! lineIndex = Some line /\
              splitWhite (trim line) !! wordIndex = Some word /\
              (1 < length word)%nat /\
              Forall (fun c => isWhite c = false) word)
         (cells text).
Proof.
  apply List.Forall_forall. intros [[word lineIndex] wordIndex] Hin.
  unfold cells in Hin. apply in_concat in Hin as (group & Hgroup & Hin).
  apply list_elem_of_In, elem_of_lookup_imap in Hgroup as (l & line & -> & Hline).
  unfold lineCells in Hin. apply List.filter_In in Hin as [Hin Hlen].
  apply list_elem_of_In, elem_of_lookup_imap in Hin as (w & word' & Heq & Hword).
  injection Heq as -> -> ->.
  exists line. split; [done|]. split; [done|]. split; [by apply Nat.ltb_lt|].
  pose proof (splitWhiteFrom_nonwhite (trim line) false) as Hwhite.
  rewrite List.Forall_forall in Hwhite. apply Hwhite.
  apply list_elem_of_In. eapply list_elem_of_lookup_2. exact Hword.
Qed.

(** X14. The words [processBookshelfImage] synthesizes are, in the order
    they are pushed, the tokens of more than one code unit of the lines
    that are not blank, one word for each.  The [k]-th word has the text
    of its token; its box is the grid cell 50 wide and 30 high whose
    column is the index of the token among the tokens of its line and
    whose row is the index of the line; its confidence is the larger of
    60 and the [k]-th number drawn.  A token has no white space.  So
    every box is well-formed and wider than 1.5 times its height, every
    confidence is at least 60, and the words are pushed from top to
    bottom. *)
Theorem mockWords_cells (random : nat -> Q) (text : jsstring) :
  mockWords random text = imap (cellWord random) (cells text) /\
  (forall k word lineIndex wordIndex,
     cells text !! k = Some (word, lineIndex, wordIndex) ->
     exists pushed,
       mockWords random text !! k = Some pushed /\
       Word.text pushed = word /\
       inCell pushed lineIndex wordIndex /\
       Word.confidence pushed = Num.max 60 (random k)) /\
  Forall (fun '(word, lineIndex, wordIndex) =>
            exists line,
              textLines text !! lineIndex = Some line /\
              splitWhite (trim line) !! wordIndex = Some word /\
              (1 < length word)%nat /\
              Forall (fun c => isWhite c = false) word)
         (cells text) /\
  Forall (fun word =>
            wellFormed (Word.bbox word) /\
            width (Word.bbox word) == 50 /\ height (Word.bbox word) == 30 /\
            isWide word = true /\
            60 <= Word.confidence word)
         (mockWords random text) /\
  Sorted (fun a b => y0 (Word.bbox a) <= y0 (Word.bbox b)) (mockWords random text).
Proof.
  assert (mockWords random text = imap (cellWord random) (cells text)) as Heq.
  { unfold mockWords. rewrite pushLines_cells. simpl. reflexivity. }
  split; [exact Heq|]. split; [|split; [|split]].
  - intros k word lineIndex wordIndex Hk.
    exists (mockWord (random k) word lineIndex wordIndex).
    split; [|done].
    rewrite Heq, list_lookup_imap, Hk. reflexivity.
  - apply cells_tokens.
  - eapply List.Forall_impl; [|apply mockWords_synthesized].
    intros word Hword.
    pose proof (synthesized_confidence random word Hword) as Hconf.
    destruct Hword as ((line & column & Hcell) & _ & Hlen & Hwhite).
    split; [by apply (inCell_wellFormed word line column)|].
    split; [unfold width; rewrite Hcell; simpl; lra|].
    split; [unfold height; rewrite Hcell; simpl; lra|].
    split; [by apply (inCell_wide word line column)|].
    done.
  - apply mockWords_sorted.
Qed.

(** ** The pipeline on synthesized words *)

Lemma sumConfidence_positive words :
  words <> [] -> Forall (fun word => 0 < Word.confidence word) words ->
  0 < sumConfidence words.
Proof.
  intros Hne Hpos. destruct words as [|word words]; [done|].
  inversion Hpos as [|? ? Hword Hrest]; subst. simpl.
  assert (0 <= sumConfidence words) as Hsum.
  { clear Hne Hpos Hword. induction Hrest as [|w l Hw Hl IH]; simpl; lra. }
  lra.
Qed.

Lemma all_wide_horizontal words :
  words <> [] ->
  Forall (fun word => wellFormed (Word.bbox word) /\ isWide word = true /\
                      0 < Word.confidence word) words ->
  determineOrientation words = horizontal.
Proof.
  intros Hne Hall.
  assert (Forall (fun word => wellFormed (Word.bbox word)) words) as Hwf
    by (eapply List.Forall_impl; [|exact Hall]; by intros word (H & _)).
  destruct (fold_scores words 0 0 Hwf) as [Hh Hv].
  rewrite (filter_all isWide) in Hh
    by (eapply List.Forall_impl; [|exact Hall]; by intros word (_ & H & _)).
  rewrite (filter_none isTall) in Hv.
  2:{ eapply List.Forall_impl; [|exact Hall].
      intros word (Hbox & Hwide & _). by apply wide_not_tall. }
  assert (0 < sumConfidence words) as Hpos.
  { apply sumConfidence_positive; [done|].
    eapply List.Forall_impl; [|exact Hall]. by intros word (_ & _ & H). }
  change (sumConfidence []) with 0 in Hv.
  unfold determineOrientation.
  assert (Num.gtb (fst (fold_left scoreWord words (0, 0)))
                  (snd (fold_left scoreWord words (0, 0))) = true) as ->
    by (apply gtb_gt; lra).
  by destruct words.
Qed.

Lemma averaged_floor {A : Type} (conf : A -> Q) members c lo :
  averaged conf members c -> Forall (fun a => lo <= conf a) members -> lo <= c.
Proof.
  intros [_ Hc] Hlo.
  apply (Hc lo (maximum (List.map conf members))).
  apply List.Forall_forall. intros a Ha.
  rewrite List.Forall_forall in Hlo. split; [by apply Hlo|].
  apply minimum_maximum. by apply List.in_map.
Qed.

Lemma pipeline_regions_floor random text :
  Forall (fun region => 60 <= Region.confidence region)
         (groupWordsIntoRegions (mockWords random text)).
Proof.
  apply List.Forall_forall. intros region Hin.
  pose proof (regions_averaged (mockWords random text)) as Hav.
  rewrite List.Forall_forall in Hav.
  apply (averaged_floor Word.confidence _ _ 60 (Hav region Hin)).
  apply List.Forall_forall. intros word Hword.
  apply (synthesized_confidence random).
  pose proof (mockWords_synthesized random text) as Hsyn.
  rewrite List.Forall_forall in Hsyn. apply Hsyn.
  by apply (region_words_incl _ region).
Qed.

Lemma pipeline_candidates_floor random text :
  Forall (fun spine => 60 <= Spine.confidence spine)
         (spineCandidates (groupWordsIntoRegions (mockWords random text))).
Proof.
  apply List.Forall_forall. intros spine Hin.
  pose proof (candidates_averaged (groupWordsIntoRegions (mockWords random text))) as Hav.
  rewrite List.Forall_forall in Hav.
  apply (averaged_floor Region.confidence _ _ 60 (Hav spine Hin)).
  apply List.Forall_forall. intros region Hregion.
  pose proof (pipeline_regions_floor random text) as Hfloor.
  rewrite List.Forall_forall in Hfloor. apply Hfloor.
  by apply (spine_regions_incl _ spine).
Qed.

(** X15. On the words [processBookshelfImage] synthesizes, every region and
    every spine candidate has a confidence of at least 60, so the test
    [confidence > 30] never rejects: the spines returned are, up to
    their order, the candidates whose cleaned title has at least 3 code
    units. *)
Theorem pipeline_confidence_gate (random : nat -> Q) (text : jsstring) :
  Forall (fun region => 60 <= Region.confidence region)
         (snd (processText random text)) /\
  Forall (fun spine => 60 <= Spine.confidence spine)
         (spineCandidates (snd (processText random text))) /\
  Permutation
    (fst (processText random text))
    (List.filter (fun spine => (3 <=? length (Spine.title spine))%nat)
       (List.map cleanSpine (spineCandidates (snd (processText random text))))).
Proof.
  simpl. split; [apply pipeline_regions_floor|].
  split; [apply pipeline_candidates_floor|].
  rewrite detectBookSpines_perm.
  assert (forall l,
            Forall (fun spine => 60 <= Spine.confidence spine) l ->
            List.filter accepted (List.map cleanSpine l)
            = List.filter (fun spine => (3 <=? length (Spine.title spine))%nat)
                (List.map cleanSpine l)) as Hfilter.
  { induction 1 as [|spine l Hspine Hl IH]; simpl; [done|].
    rewrite IH. unfold accepted at 1. simpl.
    assert (Num.gtb (Spine.confidence spine) 30 = true) as ->
      by (apply gtb_gt; lra).
    by rewrite andb_true_r. }
  rewrite Hfilter; [done | apply pipeline_candidates_floor].
Qed.

(** X16. On the words [processBookshelfImage] synthesizes, every region and
    every spine returned is classified horizontal: each cell is wider
    than 1.5 times its height and carries a positive confidence. *)
Theorem pipeline_always_horizontal (random : nat -> Q) (text : jsstring) :
  Forall (fun region => Region.orientation region = horizontal)
         (snd (processText random text)) /\
  Forall (fun spine => Spine.orientation spine = horizontal)
         (fst (processText random text)).
Proof.
  simpl.
  assert (Forall (fun region => Region.orientation region = horizontal)
            (groupWordsIntoRegions (mockWords random text))) as Hregions.
  { apply List.Forall_forall. intros region Hin.
    destruct (region_in_groups _ _ Hin) as (group & _ & Hbuild).
    assert (Region.orientation region = determineOrientation (Region.words region))
      as -> by (by rewrite Hbuild).
    apply all_wide_horizontal.
    - rewrite Hbuild, buildRegion_words. done.
    - apply List.Forall_forall. intros word Hword.
      pose proof (mockWords_synthesized random text) as Hsyn.
      rewrite List.Forall_forall in Hsyn.
      pose proof (Hsyn word (region_words_incl _ region word Hin Hword)) as Hword'.
      pose proof (synthesized_confidence random word Hword') as Hconf.
      destruct Hword' as ((line & column & Hcell) & _).
      split; [by apply (inCell_wellFormed word line column)|].
      split; [by apply (inCell_wide word line column) | lra]. }
  split; [exact Hregions|].
  apply List.Forall_forall. intros spine Hin.
  apply spine_in_groups in Hin as (group & Hin & ->).
  destruct (group_after_seed sameSpine _ group Hin) as (front & back & Heq & _).
  simpl. unfold buildSpine. rewrite fold_absorbRegion_orientation. simpl.
  rewrite List.Forall_forall in Hregions. apply Hregions.
  rewrite Heq. apply in_elt.
Qed.

(** X17. On the words [processBookshelfImage] synthesizes, the regions come
    out from top to bottom, and every spine returned lists its regions
    from top to bottom and has for title the cleaned join of their texts
    in that order. *)
Theorem pipeline_titles_top_to_bottom (random : nat -> Q) (text : jsstring) :
  Sorted (fun a b => y0 (Region.bbox a) <= y0 (Region.bbox b))
         (snd (processText random text)) /\
  Forall textsTopToBottom (spineCandidates (snd (processText random text))) /\
  Forall (fun spine =>
            Sorted (fun a b => y0 (Region.bbox a) <= y0 (Region.bbox b))
                   (Spine.textRegions spine) /\
            Spine.title spine
            = cleanBookTitle
                (join space (List.map Region.text (Spine.textRegions spine))))
         (fst (processText random text)).
Proof.
  simpl.
  pose proof (regions_keep_order (mockWords random text)
                (y0_sorted_strongly _ _ (mockWords_sorted random text))) as Hsorted.
  split; [by apply StronglySorted_Sorted|]. split.
  - apply List.Forall_forall. intros spine Hin.
    destruct (candidate_top_to_bottom _ spine Hsorted Hin) as [Htitle Hregions].
    exists (Spine.textRegions spine).
    split; [done|]. split; [by apply StronglySorted_Sorted | exact Htitle].
  - apply List.Forall_forall. intros spine Hin.
    apply (Permutation_in _ (detectBookSpines_perm _)) in Hin.
    apply List.filter_In in Hin as [Hin _].
    apply List.in_map_iff in Hin as (candidate & <- & Hin).
    destruct (candidate_top_to_bottom _ candidate Hsorted Hin) as [Htitle Hregions].
    simpl. rewrite Htitle. split; [by apply StronglySorted_Sorted | done].
Qed.

(** ** Neighbouring cells *)

Lemma num_add a k : num (a + k) == num a + num k.
Proof. unfold num. by rewrite Nat2Z.inj_add, inject_Z_plus. Qed.

Lemma num_le a b : (a <= b)%nat -> num a <= num b.
Proof. intros H. unfold num. rewrite <- Zle_Qle. lia. Qed.

(** Two indices are at least two apart, or their difference is -1, 0
    or 1. *)
Lemma num_gap a b :
  ((b + 2 <= a)%nat /\ num b - num a <= -2) \/
  ((b + 1)%nat = a /\ num b - num a == -1) \/
  (b = a /\ num b - num a == 0) \/
  (b = (a + 1)%nat /\ num b - num a == 1) \/
  ((a + 2 <= b)%nat /\ 2 <= num b - num a).
Proof.
  assert (num 1%nat == 1) as H1 by reflexivity.
  assert (num 2%nat == 2) as H2 by reflexivity.
  destruct (Nat.lt_trichotomy a b) as [Hlt|[->|Hgt]].
  - destruct (Nat.eq_dec b (a + 1)%nat) as [->|Hne].
    + right. right. right. left. split; [done|]. rewrite num_add. lra.
    + right. right. right. right. split; [lia|].
      assert (a + 2 <= b)%nat as Hle by lia.
      apply num_le in Hle. rewrite num_add in Hle. lra.
  - right. right. left. split; [done | lra].
  - destruct (Nat.eq_dec a (b + 1)%nat) as [->|Hne].
    + right. left. split; [done|]. rewrite num_add. lra.
    + left. split; [lia|].
      assert (b + 2 <= a)%nat as Hle by lia.
      apply num_le in Hle. rewrite num_add in Hle. lra.
Qed.

(** On the grid, the distance test holds exactly between a cell and the
    eight cells around it (and itself): one column apart is 50, one
    line apart 30, the diagonal about 58.3, all below 60; two lines apart
    is exactly 60, which the strict comparison refuses. *)
Lemma cells_close word1 word2 line1 column1 line2 column2 :
  inCell word1 line1 column1 -> inCell word2 line2 column2 ->
  (wordsClose word1 word2 = true <->
   (column1 <= column2 + 1 /\ column2 <= column1 + 1 /\
    line1 <= line2 + 1 /\ line2 <= line1 + 1)%nat).
Proof.
  unfold inCell. intros Hcell1 Hcell2.
  unfold wordsClose, Num.sqrt_ltb, centerDistSq, avgHeight, centerX, centerY,
    height, Num.sq.
  rewrite Hcell1, Hcell2. simpl. unfold Qdiv. change (/ 2) with (1 # 2).
  rewrite andb_true_iff, !ltb_lt.
  destruct (num_gap column1 column2) as [[Hc Hdc]|[[Hc Hdc]|[[Hc Hdc]|[[Hc Hdc]|[Hc Hdc]]]]];
    destruct (num_gap line1 line2) as [[Hl Hdl]|[[Hl Hdl]|[[Hl Hdl]|[[Hl Hdl]|[Hl Hdl]]]]];
    (split; [intros [_ Hlt] | intros Hnear]);
    first [ lia | split; nra | exfalso; nra ].
Qed.

(** X18. On the words [processBookshelfImage] synthesizes, a region never
    reaches further than the cells that touch the cell of its seed: every
    word of the region is at most one column and one line away from the
    seed. *)
Theorem pipeline_region_neighbourhood (random : nat -> Q) (text : jsstring) :
  Forall (fun region =>
            exists seed others line column,
              Region.words region = seed :: others /\
              inCell seed line column /\
              Forall (fun word =>
                        exists line' column',
                          inCell word line' column' /\
                          (column <= column' + 1 /\ column' <= column + 1 /\
                           line <= line' + 1 /\ line' <= line + 1)%nat)
                     others)
         (snd (processText random text)).
Proof.
  simpl. rewrite groupWordsIntoRegions_groups. apply List.Forall_map.
  pose proof (mockWords_synthesized random text) as Hsyn.
  rewrite List.Forall_forall in Hsyn.
  eapply List.Forall_impl; [|apply groups_after].
  intros group (front & back & Heq & Hsub & Hclose).
  assert (In (fst group) (mockWords random text)) as Hseed
    by (rewrite Heq; apply in_elt).
  destruct (Hsyn _ Hseed) as ((line & column & Hcell) & _).
  exists (fst group), (snd group), line, column.
  split; [apply buildRegion_words|]. split; [exact Hcell|].
  apply List.Forall_forall. intros word Hword.
  assert (In word (mockWords random text)) as Hin.
  { rewrite Heq. apply in_or_app. right. right.
    assert (Forall (fun w => In w back) (snd group)) as Hback.
    { apply (sublist_all _ _ back Hsub). by apply List.Forall_forall. }
    rewrite List.Forall_forall in Hback. by apply Hback. }
  destruct (Hsyn _ Hin) as ((line' & column' & Hcell') & _).
  exists line', column'. split; [exact Hcell'|].
  apply (cells_close (fst group) word line column line' column' Hcell Hcell').
  rewrite List.Forall_forall in Hclose. by apply Hclose.
Qed.

(** ** More on title cleanup *)

Lemma collapseFrom_length s : forall inRun,
  (length (collapseFrom inRun s) <= length s)%nat.
Proof.
  induction s as [|c s IH]; intros inRun; simpl; [lia|].
  destruct (isWhite c); [destruct inRun|]; simpl;
    first [ specialize (IH true); lia | specialize (IH false); lia ].
Qed.

Lemma collapseFrom_chars s : forall inRun,
  Forall (fun c => c = space \/ In c s) (collapseFrom inRun s).
Proof.
  induction s as [|c s IH]; intros inRun; simpl; [constructor|].
  assert (forall b, Forall (fun c' => c' = space \/ c = c' \/ In c' s)
                           (collapseFrom b s)) as Htail.
  { intros b. eapply List.Forall_impl; [|apply (IH b)]. intros c'. tauto. }
  destruct (isWhite c); [destruct inRun|]; try apply Htail.
  - constructor; [by left | apply Htail].
  - constructor; [right; by left | apply Htail].
Qed.

Lemma stripLeadingNumber_length s : (length (stripLeadingNumber s) <= length s)%nat.
Proof.
  unfold stripLeadingNumber. destruct s as [|c s]; [done|].
  destruct (isDigit c); [|done].
  etransitivity; [apply dropWhile_length|]. apply dropWhile_length.
Qed.

(** X19. The cleaned title is a list of words, each of two code units or more
    and free of white space, joined by single spaces: it has no space at
    either end and no two spaces in a row, and splitting it at the spaces
    gives the words back (the one empty piece when there is no word). *)
Theorem cleanBookTitle_words (s : jsstring) :
  exists tokens,
    cleanBookTitle s = join space tokens /\
    Forall (fun token => (2 <= length token)%nat /\
                         Forall (fun c => isWhite c = false) token) tokens /\
    split space (cleanBookTitle s)
    = match tokens with [] => [[]] | _ => tokens end.
Proof.
  destruct (cleanBookTitle_tokens s) as (tokens & Heq & Htokens).
  exists tokens. split; [exact Heq|]. split.
  - eapply List.Forall_impl; [|exact Htokens].
    intros token Htoken. split; [by destruct Htoken | by apply goodToken_nonwhite].
  - rewrite Heq. destruct tokens as [|token tokens]; [done|].
    by apply split_join.
Qed.

(** X20. Cleaning never lengthens a title and invents no character: every
    code unit of the result is a space or occurs in the input. *)
Theorem cleanBookTitle_shrinks (s : jsstring) :
  (length (cleanBookTitle s) <= length s)%nat /\
  Forall (fun c => c = space \/ In c s) (cleanBookTitle s).
Proof.
  split.
  - unfold cleanBookTitle.
    etransitivity; [apply filter_join_length|]. rewrite join_split.
    etransitivity; [apply trim_length|].
    etransitivity; [apply stripLeadingNumber_length|].
    etransitivity; [apply List.filter_length_le|].
    apply collapseFrom_length.
  - unfold cleanBookTitle.
    apply join_Forall; [by left|].
    apply List.Forall_forall. intros token Hin.
    apply List.filter_In in Hin as [Hin _].
    set (P := fun c => c = space \/ In c s).
    assert (Forall P (trim (stripLeadingNumber (stripSpecial (collapseWhitespace s)))))
      as HP.
    { apply trim_Forall, stripLeadingNumber_Forall.
      apply List.Forall_forall. intros c Hc.
      apply List.filter_In in Hc as [Hc _].
      pose proof (collapseFrom_chars s false) as Hchars.
      rewrite List.Forall_forall in Hchars. by apply Hchars. }
    apply (split_Forall P space) in HP.
    rewrite List.Forall_forall in HP. specialize (HP token Hin).
    eapply List.Forall_impl; [|exact HP]. by intros c [Hc _].
Qed.

(** * The decisions in binary64 *)

(** ** Comparisons *)

Lemma SFcompare_Eq_sym x y : SFcompare x y = Some Eq -> SFcompare y x = Some Eq.
Proof.
  destruct x as [sx|sx| |sx mx ex], y as [sy|sy| |sy my ey]; simpl; try done;
    try (by destruct sx); try (by destruct sy); try (by destruct sx, sy).
  assert (forall c, CompOpp c = Eq -> c = Eq) as Hopp by (by intros []).
  destruct sx, sy; try done;
    destruct (ex ?= ey)%Z eqn:He; try done;
    apply Z.compare_eq in He as ->; rewrite Z.compare_refl;
    intros H; injection H as H; try apply Hopp in H;
    apply Pos.compare_eq in H as ->; by rewrite Pos.compare_cont_refl.
Qed.

(** Two numbers that compare equal are not one below the other. *)
Lemma eqb_not_ltb x y :
  (x =? y)%float = true -> (x <? y)%float = false /\ (y <? x)%float = false.
Proof.
  rewrite FloatAxioms.eqb_spec, !FloatAxioms.ltb_spec. unfold SFeqb, SFltb.
  destruct (SFcompare (Prim2SF x) (Prim2SF y)) as [[]|] eqn:E; try done.
  intros _. by rewrite (SFcompare_Eq_sym _ _ E).
Qed.

(** ** Orientation *)

Lemma scoreWord64_cases scores word :
  B64.scoreWord scores word =
    if B64.isWide word
    then ((fst scores + B64.Word.confidence word)%float, snd scores)
    else if B64.isTall word
    then (fst scores, (snd scores + B64.Word.confidence word)%float)
    else scores.
Proof. reflexivity. Qed.

(** The loop keeps two running sums: of the wide words, and of the tall
    words among the others. *)
Lemma fold_scores64 words : forall h v,
  fold_left B64.scoreWord words (h, v)
  = (B64.addConfidences h (List.filter B64.isWide words),
     B64.addConfidences v
       (List.filter (fun word => negb (B64.isWide word) && B64.isTall word) words)).
Proof.
  induction words as [|word words IH]; intros h v; simpl; [done|].
  rewrite scoreWord64_cases.
  destruct (B64.isWide word); simpl; [apply IH|].
  destruct (B64.isTall word); simpl; apply IH.
Qed.

Lemma filter_ext_Forall {A : Type} (f g : A -> bool) l :
  Forall (fun a => f a = g a) l -> List.filter f l = List.filter g l.
Proof.
  induction 1 as [|a l Ha Hl IH]; simpl; [done|]. by rewrite Ha, IH.
Qed.

(** C8, as stated, fails: a box with negative width and height passes
    both aspect tests; the specification adds its confidence to both
    scores and answers vertical, the source adds it to the horizontal
    score only and answers horizontal.  The comparisons are those of the
    rounded numbers: [roundedWord] has width 1.8 and a height whose
    product by 1.5 rounds below 1.8, so the source counts it as wide,
    although the exact product is not below the width; and in
    [tiedWords] the two scores are sums of the same three confidences,
    yet the source finds the first greater. *)
Lemma orientation_both_tests :
  B64.isWide B64.malformedWord = true /\ B64.isTall B64.malformedWord = true /\
  B64.determineOrientation [B64.malformedWord] = horizontal /\
  B64.independentOrientation [B64.malformedWord] = vertical /\
  B64.determineOrientation [B64.roundedWord] = horizontal /\
  isWide (exactWord B64.roundedWord) = false /\
  B64.determineOrientation B64.tiedWords = horizontal /\
  sumConfidence (List.filter isWide (List.map exactWord B64.tiedWords))
  == sumConfidence (List.filter isTall (List.map exactWord B64.tiedWords)).
Proof. repeat split; vm_compute; reflexivity. Qed.

(** C8, amended.  [determineOrientation] is the reference definition in
    which the second test is applied to the words that fail the first:
    horizontal on the empty list; otherwise the confidences of the words
    with [width > height * 1.5] are added up, and those of the other
    words with [height > width * 1.5], each sum in the order of the list
    and every operation in binary64, and the answer is horizontal exactly
    when the first sum is strictly greater.  When no word passes both
    tests this is the definition of the specification.  Sums that compare
    equal give vertical on a non-empty list, as when no word passes a
    test. *)
Theorem determineOrientation_reference (words : list B64.Word.t) :
  B64.determineOrientation words = B64.referenceOrientation words /\
  (Forall (fun word => B64.isWide word && B64.isTall word = false) words ->
   B64.determineOrientation words = B64.independentOrientation words) /\
  (words <> [] ->
   (B64.determineOrientation words = horizontal <->
    B64.gtb (B64.addConfidences 0 (List.filter B64.isWide words))
            (B64.addConfidences 0
               (List.filter (fun word => negb (B64.isWide word) && B64.isTall word) words))
    = true) /\
   ((B64.addConfidences 0 (List.filter B64.isWide words)
     =? B64.addConfidences 0
          (List.filter (fun word => negb (B64.isWide word) && B64.isTall word) words))%float
    = true ->
    B64.determineOrientation words = vertical) /\
   (Forall (fun word => B64.isWide word = false /\ B64.isTall word = false) words ->
    B64.determineOrientation words = vertical)).
Proof.
  assert (B64.determineOrientation words = B64.referenceOrientation words) as Href.
  { destruct words as [|word words]; [reflexivity|].
    unfold B64.determineOrientation, B64.referenceOrientation.
    change (length (word :: words) =? 0)%nat with false. cbv iota.
    by rewrite fold_scores64. }
  split; [exact Href|]. split.
  - intros Hboth. rewrite Href.
    unfold B64.referenceOrientation, B64.independentOrientation.
    destruct words as [|word words]; [done|].
    rewrite (filter_ext_Forall (fun word => negb (B64.isWide word) && B64.isTall word)
               B64.isTall); [done|].
    eapply List.Forall_impl; [|exact Hboth].
    intros w Hw. simpl in Hw. by destruct (B64.isWide w), (B64.isTall w).
  - intros Hne. rewrite Href. unfold B64.referenceOrientation.
    destruct words as [|word words]; [done|].
    set (h := B64.addConfidences 0 (List.filter B64.isWide (word :: words))).
    set (v := B64.addConfidences 0 (List.filter _ (word :: words))).
    split; [|split].
    + by destruct (B64.gtb h v).
    + intros Heq. apply eqb_not_ltb in Heq as [_ Heq].
      unfold B64.gtb. by rewrite Heq.
    + intros Hnone. subst h v.
      rewrite (filter_none B64.isWide).
      2:{ eapply List.Forall_impl; [|exact Hnone]. by intros w [Hw _]. }
      rewrite (filter_none (fun word => negb (B64.isWide word) && B64.isTall word)).
      2:{ eapply List.Forall_impl; [|exact Hnone]. by intros w [-> ->]. }
      reflexivity.
Qed.

Lemma determineOrientation_reference_witness :
  B64.determineOrientation [B64.harry; B64.potter]
  = B64.independentOrientation [B64.harry; B64.potter] /\
  B64.determineOrientation [B64.squareWord] = vertical.
Proof.
  split.
  - apply (proj1 (proj2 (determineOrientation_reference [B64.harry; B64.potter]))).
    repeat constructor.
  - apply (proj2 (proj2 (proj2 (determineOrientation_reference [B64.squareWord]))
                   ltac:(discriminate))).
    repeat constructor.
Defined.

(** ** The merge decisions *)

Lemma regionScan64_scan word1 rest : forall j used region,
  B64.regionScan word1 j rest used region
  = scan (B64.wordsClose word1) B64.absorbWord j rest used region.
Proof.
  induction rest as [|word2 rest IH]; intros j used region; simpl; [done|].
  by rewrite !IH.
Qed.

Lemma spineScan64_scan region1 rest : forall j used spine,
  B64.spineScan region1 j rest used spine
  = scan (B64.sameSpine region1) (B64.absorbRegion region1) j rest used spine.
Proof.
  induction rest as [|region2 rest IH]; intros j used spine; simpl; [done|].
  by rewrite !IH.
Qed.

(** C4, as stated, fails at the threshold.  The y-centres of
    [upperRegion] and [lowerRegion] are exactly 3 times the mean of
    their heights apart, not less; the source rounds the distance to
    1.3499999999999999 and the bound to 1.3500000000000001 and merges
    the two regions.  And the region [j] has to be free: in
    [[leftRegion; rightRegion; centreRegion]] the last region passes
    both tests against [rightRegion], but the scan seeded at
    [leftRegion] has consumed it, and the scan seeded at [rightRegion]
    passes over it. *)
Lemma spine_threshold_rounds :
  Qabs (centerY (exactBox (B64.Region.bbox B64.lowerRegion))
        - centerY (exactBox (B64.Region.bbox B64.upperRegion)))
  == avgHeight (exactBox (B64.Region.bbox B64.upperRegion))
               (exactBox (B64.Region.bbox B64.lowerRegion)) * 3 /\
  Qabs (centerX (exactBox (B64.Region.bbox B64.upperRegion))
        - centerX (exactBox (B64.Region.bbox B64.lowerRegion))) < 50 /\
  B64.verticalDistance B64.upperRegion B64.lowerRegion = 1.3499999999999999%float /\
  (B64.avgHeight (B64.Region.bbox B64.upperRegion) (B64.Region.bbox B64.lowerRegion) * 3)%float
  = 1.3500000000000001%float /\
  List.map B64.Region.text
    (B64.Spine.textRegions
       (snd (B64.spineScan B64.upperRegion 1 [B64.lowerRegion] {[0%nat]}
               (B64.seedSpine B64.upperRegion))))
  = [of_string "Upper"; of_string "Lower"] /\
  B64.sameSpine B64.rightRegion B64.centreRegion = true /\
  (let scanned := B64.spineScan B64.leftRegion 1 [B64.rightRegion; B64.centreRegion]
                    {[0%nat]} (B64.seedSpine B64.leftRegion) in
   B64.Spine.textRegions (snd scanned) = [B64.leftRegion; B64.centreRegion] /\
   B64.Spine.textRegions
     (snd (B64.spineScan B64.rightRegion 2 [B64.centreRegion] ({[1%nat]} ∪ fst scanned)
             (B64.seedSpine B64.rightRegion)))
   = [B64.rightRegion]).
Proof. repeat split; vm_compute; reflexivity. Qed.

(** C4, amended.  In the inner loop of [detectBookSpines], a region at
    index [j + k] that is not consumed when the scan from [j] starts is
    merged into the spine seeded at [region1] (its index is marked) if
    and only if, with every operation in binary64, the x-centres differ
    by less than 50 and the y-centres by less than the mean of the two
    heights times 3; the regions appended to the spine are these, in scan
    order.  [isHorizontallyAligned] is not part of the condition: two
    regions are merged although it is false, and two regions with equal
    y-centres are kept apart by the x-centre test alone. *)
Theorem spine_merge_condition :
  (forall (region1 region2 : B64.Region.t) (rest : list B64.Region.t) (j k : nat)
          (used : gset nat) (spine : B64.Spine.t),
     rest !! k = Some region2 -> (j + k)%nat ∉ used ->
     ((j + k)%nat ∈ fst (B64.spineScan region1 j rest used spine) <->
      (PrimFloat.abs (B64.centerX (B64.Region.bbox region1) - B64.centerX (B64.Region.bbox region2))
       <? 50)%float = true /\
      (PrimFloat.abs (B64.centerY (B64.Region.bbox region2) - B64.centerY (B64.Region.bbox region1))
       <? B64.avgHeight (B64.Region.bbox region1) (B64.Region.bbox region2) * 3)%float
      = true)) /\
  (forall (region1 : B64.Region.t) (rest : list B64.Region.t) (j : nat)
          (used : gset nat) (spine : B64.Spine.t),
     B64.Spine.textRegions (snd (B64.spineScan region1 j rest used spine))
     = B64.Spine.textRegions spine ++ picks (B64.sameSpine region1) j rest used) /\
  (exists region1 region2,
     B64.isHorizontallyAligned region1 region2 = false /\
     B64.sameSpine region1 region2 = true) /\
  (exists region1 region2,
     B64.isHorizontallyAligned region1 region2 = true /\
     B64.sameSpine region1 region2 = false).
Proof.
  split; [|split; [|split]].
  - intros region1 region2 rest j k used spine Hk Hfree.
    rewrite spineScan64_scan, scan_index by eassumption.
    unfold B64.sameSpine, B64.isVerticallyAligned, B64.verticalDistance.
    apply andb_true_iff.
  - intros region1 rest j used spine.
    rewrite spineScan64_scan, scan_state.
    apply (members_fold B64.absorbRegion B64.Spine.textRegions). reflexivity.
  - exists B64.bottomRegion, B64.topRegion. split; reflexivity.
  - exists (B64.seedRegion B64.harry), (B64.seedRegion B64.potter). split; reflexivity.
Qed.

Lemma spine_merge_condition_witness :
  1%nat ∈ fst (B64.spineScan B64.bottomRegion 1 [B64.topRegion] ∅
                 (B64.seedSpine B64.bottomRegion)).
Proof.
  apply (proj1 spine_merge_condition B64.bottomRegion B64.topRegion
           [B64.topRegion] 1%nat 0%nat ∅ (B64.seedSpine B64.bottomRegion)).
  - reflexivity.
  - apply not_elem_of_empty.
  - split; reflexivity.
Defined.

(** ** The distance threshold of the region grouper *)

(** C6, as stated, fails.  On its example the centres of the two words
    are [(25, 10)] and [(82.5, 10)], so the distance the source computes
    is 57.5 and not 55.  The word [j] has to be free: in
    [[leftWord; rightWord; centreWord]] the last word is within the
    threshold of [rightWord], but the scan seeded at [leftWord] has
    consumed it.  And the comparison is that of the rounded numbers: the
    centres of [lowWord] and [lowNeighbour] are less than twice their
    mean height apart, but distance and bound both round to 3 and the
    words are kept apart; those of [cornerWord] and [farWord] are not,
    but the distance rounds to 3.4 and the bound to 3.4000000000000004
    and the words are merged. *)
Lemma region_threshold_rounds :
  B64.distance B64.harry B64.potter = 57.5%float /\
  (B64.distance B64.harry B64.potter =? 55)%float = false /\
  B64.wordsClose B64.rightWord B64.centreWord = true /\
  List.map B64.Region.words
    (B64.groupWordsIntoRegions [B64.leftWord; B64.rightWord; B64.centreWord])
  = [[B64.leftWord; B64.centreWord]; [B64.rightWord]] /\
  (centerDistSq (exactWord B64.lowWord) (exactWord B64.lowNeighbour)
   < Num.sq (avgHeight (Word.bbox (exactWord B64.lowWord))
                       (Word.bbox (exactWord B64.lowNeighbour)) * 2) /\
   B64.distance B64.lowWord B64.lowNeighbour = 3%float /\
   (B64.avgHeight (B64.Word.bbox B64.lowWord) (B64.Word.bbox B64.lowNeighbour) * 2)%float
   = 3%float /\
   List.map B64.Region.words (B64.groupWordsIntoRegions [B64.lowWord; B64.lowNeighbour])
   = [[B64.lowWord]; [B64.lowNeighbour]]) /\
  (Num.sq (avgHeight (Word.bbox (exactWord B64.cornerWord))
                     (Word.bbox (exactWord B64.farWord)) * 2)
   < centerDistSq (exactWord B64.cornerWord) (exactWord B64.farWord) /\
   B64.distance B64.cornerWord B64.farWord = 3.4%float /\
   (B64.avgHeight (B64.Word.bbox B64.cornerWord) (B64.Word.bbox B64.farWord) * 2)%float
   = 3.4000000000000004%float /\
   List.map B64.Region.words (B64.groupWordsIntoRegions [B64.cornerWord; B64.farWord])
   = [[B64.cornerWord; B64.farWord]]).
Proof. repeat split; vm_compute; reflexivity. Qed.

(** C6, amended.  In the inner loop of [groupWordsIntoRegions], a word
    at index [j + k] that is not consumed when the scan from [j] starts
    is merged into the region seeded at [word1] exactly when the distance
    of the two centres, as the source computes it in binary64, is
    strictly below the mean of the two heights times 2, computed
    likewise; when the two numbers compare equal the word is not merged.
    The words appended to the region are these, in scan order.  The
    words [harry] and [potter] (distance 57.5, threshold 40) give two
    regions. *)
Theorem region_merge_threshold :
  (forall (word1 word2 : B64.Word.t) (rest : list B64.Word.t) (j k : nat)
          (used : gset nat) (region : B64.Region.t),
     rest !! k = Some word2 -> (j + k)%nat ∉ used ->
     ((j + k)%nat ∈ fst (B64.regionScan word1 j rest used region) <->
      (B64.distance word1 word2
       <? B64.avgHeight (B64.Word.bbox word1) (B64.Word.bbox word2) * 2)%float = true) /\
     ((B64.distance word1 word2
       =? B64.avgHeight (B64.Word.bbox word1) (B64.Word.bbox word2) * 2)%float = true ->
      (j + k)%nat ∉ fst (B64.regionScan word1 j rest used region))) /\
  (forall (word1 : B64.Word.t) (rest : list B64.Word.t) (j : nat)
          (used : gset nat) (region : B64.Region.t),
     B64.Region.words (snd (B64.regionScan word1 j rest used region))
     = B64.Region.words region ++ picks (B64.wordsClose word1) j rest used) /\
  B64.distance B64.harry B64.potter = 57.5%float /\
  (B64.avgHeight (B64.Word.bbox B64.harry) (B64.Word.bbox B64.potter) * 2)%float
  = 40%float /\
  List.map B64.Region.words (B64.groupWordsIntoRegions [B64.harry; B64.potter])
  = [[B64.harry]; [B64.potter]] /\
  List.map B64.Region.text (B64.groupWordsIntoRegions [B64.harry; B64.potter])
  = [of_string "Harry"; of_string "Potter"].
Proof.
  split; [|split; [|repeat split; reflexivity]].
  2:{ intros word1 rest j used region.
      rewrite regionScan64_scan, scan_state.
      apply (members_fold (fun _ : B64.Word.t => B64.absorbWord) B64.Region.words);
        [reflexivity|].
      exact word1. }
  intros word1 word2 rest j k used region Hk Hfree.
  assert ((j + k)%nat ∈ fst (B64.regionScan word1 j rest used region) <->
          B64.wordsClose word1 word2 = true) as Hiff
    by (by rewrite regionScan64_scan, scan_index by eassumption).
  split; [exact Hiff|].
  intros Heq Hin. apply Hiff in Hin. apply eqb_not_ltb in Heq as [Heq _].
  unfold B64.wordsClose in Hin. congruence.
Qed.

Lemma region_merge_threshold_witness :
  1%nat ∈ fst (B64.regionScan B64.harry30 1 [B64.potter62] ∅ (B64.seedRegion B64.harry30)).
Proof.
  apply (proj1 region_merge_threshold B64.harry30 B64.potter62 [B64.potter62] 1%nat 0%nat ∅
           (B64.seedRegion B64.harry30)).
  - reflexivity.
  - apply not_elem_of_empty.
  - reflexivity.
Defined.

(** * Spreadsheet import *)

Lemma orElse_truthy a b : Excel.truthy b = true -> Excel.truthy (Excel.orElse a b) = true.
Proof. intros Hb. unfold Excel.orElse. by destruct (Excel.truthy a) eqn:E. Qed.

Lemma orElse_kept a b : Excel.truthy a = true -> Excel.orElse a b = a.
Proof. intros Ha. unfold Excel.orElse. by rewrite Ha. Qed.

Lemma importBookRow_pushes newId result row :
  Excel.importBookRow newId result row
  = {| Excel.Result.books := Excel.Result.books result ++ [Excel.bookOfRow newId row];
       Excel.Result.users := Excel.Result.users result;
       Excel.Result.errors := Excel.Result.errors result |}.
Proof.
  unfold Excel.importBookRow.
  assert (Excel.truthy (Excel.Book.title (Excel.bookOfRow newId row)) = true) as ->
    by (by apply orElse_truthy).
  assert (Excel.truthy (Excel.Book.author (Excel.bookOfRow newId row)) = true) as ->
    by (by apply orElse_truthy).
  reflexivity.
Qed.

Lemma importBookRows_all bookId rows : forall i result,
  Excel.importRows (fun k => Excel.importBookRow (bookId k)) i rows result
  = {| Excel.Result.books :=
         Excel.Result.books result
         ++ imap (fun k row => Excel.bookOfRow (bookId (i + k)%nat) row) rows;
       Excel.Result.users := Excel.Result.users result;
       Excel.Result.errors := Excel.Result.errors result |}.
Proof.
  induction rows as [|row rows IH]; intros i result; simpl.
  - rewrite app_nil_r. by destruct result.
  - rewrite IH, importBookRow_pushes. simpl. rewrite <- app_assoc. simpl.
    rewrite Nat.add_0_r. do 3 f_equal.
    apply imap_ext. intros k r _. simpl. f_equal. f_equal. lia.
Qed.

(** X21. No row of the Books sheet is ever rejected: the test for a missing
    title or author comes after the defaults "Unknown Title" and
    "Unknown Author" are filled in, so it cannot fail.  The loop returns
    one book per row, in row order, adds no error and leaves the users
    alone; every book it returns has a truthy title and author. *)
Theorem book_rows_never_rejected (bookId : nat -> jsstring) (rows : list Excel.Row)
    (result : Excel.Result.t) :
  let imported := Excel.importRows (fun k => Excel.importBookRow (bookId k)) 0 rows result in
  Excel.Result.books imported
  = Excel.Result.books result ++ imap (fun k row => Excel.bookOfRow (bookId k) row) rows /\
  Excel.Result.errors imported = Excel.Result.errors result /\
  Excel.Result.users imported = Excel.Result.users result /\
  Forall (fun row =>
            forall newId,
              Excel.truthy (Excel.Book.title (Excel.bookOfRow newId row)) = true /\
              Excel.truthy (Excel.Book.author (Excel.bookOfRow newId row)) = true)
         rows.
Proof.
  simpl. rewrite importBookRows_all. simpl. repeat split.
  apply List.Forall_forall. intros row _ newId.
  split; by apply orElse_truthy.
Qed.

Lemma borrowedBooksOf_splittable cell :
  Excel.splittable cell = true <-> exists ids, Excel.borrowedBooksOf cell = Some ids.
Proof.
  unfold Excel.splittable, Excel.borrowedBooksOf.
  destruct (Excel.truthy cell) eqn:E; simpl.
  - destruct cell as [[s|q|b]|]; split; try done; try (by intros [ids H]); eauto.
  - split; [eauto | done].
Qed.

Lemma borrowedBooksOf_notBlank cell ids :
  Excel.borrowedBooksOf cell = Some ids ->
  Forall (fun id => Excel.notBlank id = true) ids.
Proof.
  unfold Excel.borrowedBooksOf.
  destruct (Excel.truthy cell); [|by intros [= <-]].
  destruct cell as [[s|q|b]|]; try done. intros [= <-].
  apply List.Forall_forall. intros id Hin. by apply List.filter_In in Hin as [_ H].
Qed.

(** X22. What becomes of a row of the Users sheet.  If its "Borrowed Book
    IDs" cell is truthy and not a string, the row throws and an error is
    recorded; otherwise, if its "Email" cell is falsy, the row is
    rejected with an error; otherwise one user is added, with the row's
    e-mail and only non-blank borrowed ids.  A missing name never
    rejects a row (it becomes "Unknown User").  Each row adds exactly
    one user or one error, and never touches the books. *)
Theorem user_row_outcome (newId now : jsstring) (result : Excel.Result.t) (row : Excel.Row) :
  let imported := Excel.importUserRow newId now result row in
  Excel.Result.books imported = Excel.Result.books result /\
  (length (Excel.Result.users imported) + length (Excel.Result.errors imported)
   = S (length (Excel.Result.users result) + length (Excel.Result.errors result)))%nat /\
  match Excel.splittable (Excel.get row "Borrowed Book IDs"),
        Excel.truthy (Excel.get row "Email") with
  | false, _ =>
      Excel.Result.users imported = Excel.Result.users result /\
      Excel.Result.errors imported = Excel.Result.errors result ++ [Excel.UserRowThrew]
  | true, false =>
      Excel.Result.users imported = Excel.Result.users result /\
      Excel.Result.errors imported = Excel.Result.errors result ++ [Excel.InvalidUser]
  | true, true =>
      Excel.Result.errors imported = Excel.Result.errors result /\
      exists user,
        Excel.Result.users imported = Excel.Result.users result ++ [user] /\
        Excel.User.email user = Excel.get row "Email" /\
        Excel.truthy (Excel.User.name user) = true /\
        Forall (fun id => Excel.notBlank id = true) (Excel.User.borrowedBooks user)
  end.
Proof.
  simpl. unfold Excel.importUserRow, Excel.userOfRow.
  destruct (Excel.splittable (Excel.get row "Borrowed Book IDs")) eqn:Es.
  - apply borrowedBooksOf_splittable in Es as [ids Hids]. rewrite Hids. simpl.
    assert (Excel.truthy (Excel.orElse (Excel.get row "Name") (Excel.str "Unknown User"))
            = true) as -> by (by apply orElse_truthy).
    simpl. destruct (Excel.truthy (Excel.get row "Email")) eqn:Ee.
    + rewrite (orElse_kept _ _ Ee), Ee. simpl.
      split; [done|]. split; [rewrite length_app; simpl; lia|].
      split; [done|]. eexists. split; [reflexivity|]. simpl.
      split; [done|]. split; [by apply orElse_truthy|].
      by apply (borrowedBooksOf_notBlank (Excel.get row "Borrowed Book IDs")).
    + assert (Excel.truthy (Excel.orElse (Excel.get row "Email") (Excel.str "")) = false)
        as -> by (unfold Excel.orElse; by rewrite Ee).
      simpl. split; [done|]. split; [rewrite length_app; simpl; lia | done].
  - destruct (Excel.borrowedBooksOf (Excel.get row "Borrowed Book IDs")) as [ids|] eqn:Hids.
    + assert (Excel.splittable (Excel.get row "Borrowed Book IDs") = true) as Hs
        by (apply borrowedBooksOf_splittable; eauto).
      congruence.
    + simpl. split; [done|]. split; [rewrite length_app; simpl; lia | done].
Qed.

(** ** Borrowed ids through export and import *)

Lemma splitCommaSpace_whole id :
  ~ In 44%N id -> Excel.splitCommaSpace id = [id].
Proof.
  induction id as [|c id IH]; intros Hno; [done|].
  assert (c <> 44%N) as Hc by (intros ->; apply Hno; by left).
  assert (~ In 44%N id) as Hid by (intros H; apply Hno; by right).
  destruct id as [|d id]; [done|].
  change (Excel.splitCommaSpace (c :: d :: id))
    with (if ((c =? 44) && (d =? 32))%N then [] :: Excel.splitCommaSpace id
          else Excel.prepend c (Excel.splitCommaSpace (d :: id))).
  apply N.eqb_neq in Hc. rewrite Hc, andb_false_l, (IH Hid). reflexivity.
Qed.

Lemma splitCommaSpace_app id rest :
  ~ In 44%N id ->
  Excel.splitCommaSpace (id ++ 44%N :: 32%N :: rest) = id :: Excel.splitCommaSpace rest.
Proof.
  induction id as [|c id IH]; intros Hno; [done|].
  assert (c <> 44%N) as Hc by (intros ->; apply Hno; by left).
  assert (~ In 44%N id) as Hid by (intros H; apply Hno; by right).
  specialize (IH Hid).
  destruct (id ++ 44%N :: 32%N :: rest) as [|d tail] eqn:E;
    [by destruct id|].
  change (Excel.splitCommaSpace ((c :: id) ++ 44%N :: 32%N :: rest))
    with (Excel.splitCommaSpace (c :: id ++ 44%N :: 32%N :: rest)).
  rewrite E.
  change (Excel.splitCommaSpace (c :: d :: tail))
    with (if ((c =? 44) && (d =? 32))%N then [] :: Excel.splitCommaSpace tail
          else Excel.prepend c (Excel.splitCommaSpace (d :: tail))).
  apply N.eqb_neq in Hc. rewrite Hc, andb_false_l, IH. reflexivity.
Qed.

Lemma splitCommaSpace_join ids :
  ids <> [] -> Forall (fun id => ~ In 44%N id) ids ->
  Excel.splitCommaSpace (Excel.joinCommaSpace ids) = ids.
Proof.
  intros Hne Hids. induction Hids as [|id ids Hid Hrest IH]; [done|].
  destruct ids as [|id2 ids]; [by apply splitCommaSpace_whole|].
  change (Excel.joinCommaSpace (id :: id2 :: ids))
    with (id ++ 44%N :: 32%N :: Excel.joinCommaSpace (id2 :: ids)).
  rewrite splitCommaSpace_app by done. by rewrite IH.
Qed.

Lemma notBlank_nonempty id : Excel.notBlank id = true -> id <> [].
Proof. by intros H ->. Qed.

Lemma joinCommaSpace_truthy ids :
  ids <> [] -> Forall (fun id => Excel.notBlank id = true) ids ->
  Excel.truthy (Some (Excel.CStr (Excel.joinCommaSpace ids))) = true.
Proof.
  intros Hne Hids. destruct ids as [|id ids]; [done|].
  inversion Hids as [|? ? Hid _]; subst. apply notBlank_nonempty in Hid.
  simpl. destruct id as [|c id]; [done|]. by destruct ids.
Qed.

Lemma borrowedBooksOf_join ids :
  Forall (fun id => ~ In 44%N id /\ Excel.notBlank id = true) ids ->
  Excel.borrowedBooksOf (Some (Excel.CStr (Excel.joinCommaSpace ids))) = Some ids.
Proof.
  intros Hids. destruct ids as [|id ids]; [done|].
  unfold Excel.borrowedBooksOf. rewrite joinCommaSpace_truthy.
  - rewrite splitCommaSpace_join; [|done|].
    + rewrite filter_all; [done|].
      eapply List.Forall_impl; [|exact Hids]. by intros i [_ H].
    + eapply List.Forall_impl; [|exact Hids]. by intros i [H _].
  - done.
  - eapply List.Forall_impl; [|exact Hids]. by intros i [_ H].
Qed.

(** X23. The list of borrowed book ids survives the export ([join(', ')]) and
    the import ([split(', ')] and the blank filter) when no id holds a
    comma and none is blank; the empty list comes back empty. *)
Theorem borrowed_ids_round_trip (ids : list jsstring) :
  Forall (fun id => ~ In 44%N id /\ Excel.notBlank id = true) ids ->
  Excel.borrowedBooksOf (Some (Excel.CStr (Excel.joinCommaSpace ids))) = Some ids.
Proof. apply borrowedBooksOf_join. Qed.

Lemma borrowed_ids_round_trip_witness :
  Excel.borrowedBooksOf
    (Some (Excel.CStr (Excel.joinCommaSpace [of_string "book-1"; of_string "book-3"])))
  = Some [of_string "book-1"; of_string "book-3"].
Proof.
  apply (borrowed_ids_round_trip [of_string "book-1"; of_string "book-3"]).
  repeat constructor; try reflexivity; vm_compute; intuition discriminate.
Defined.

(** ** Rows through export and import *)

Lemma sameCells_kept row row' key :
  Excel.sameCells row row' -> Excel.truthy (Excel.get row key) = true ->
  Excel.get row' key = Excel.get row key.
Proof.
  intros Hsame Htruthy. specialize (Hsame key). unfold Excel.orElse in Hsame.
  rewrite Htruthy in Hsame.
  destruct (Excel.truthy (Excel.get row' key)) eqn:E; [done|].
  rewrite <- Hsame in Htruthy. done.
Qed.

Lemma sameCells_falsy row row' key :
  Excel.sameCells row row' -> Excel.truthy (Excel.get row key) = false ->
  Excel.truthy (Excel.get row' key) = false.
Proof.
  intros Hsame Hfalsy. specialize (Hsame key). unfold Excel.orElse in Hsame.
  rewrite Hfalsy in Hsame.
  destruct (Excel.truthy (Excel.get row' key)) eqn:E; [|done].
  rewrite Hsame in E. done.
Qed.

(** A required string field: what [cell || fallback] reads back when the
    exported value was truthy. *)
Lemma read_back_truthy row row' key value fallback :
  Excel.sameCells row row' -> Excel.get row key = value ->
  Excel.truthy value = true ->
  Excel.orElse (Excel.get row' key) fallback = value.
Proof.
  intros Hsame Hget Htruthy. rewrite <- Hget in Htruthy.
  rewrite (sameCells_kept row row' key Hsame Htruthy), Hget.
  apply orElse_kept. by rewrite <- Hget.
Qed.

(** A string field exported as [value || ''] and imported as
    [cell || '']. *)
Lemma read_back_string row row' key value :
  Excel.sameCells row row' ->
  Excel.get row key = Excel.orElse value (Excel.str "") ->
  Excel.isString value ->
  Excel.orElse (Excel.get row' key) (Excel.str "") = value.
Proof.
  intros Hsame Hget [s ->].
  destruct (Excel.truthy (Some (Excel.CStr s))) eqn:E.
  - apply (read_back_truthy row); [done| |done]. by rewrite Hget, orElse_kept.
  - assert (Excel.truthy (Excel.get row key) = false) as Hfalsy.
    { rewrite Hget. unfold Excel.orElse. by rewrite E. }
    unfold Excel.orElse at 1. rewrite (sameCells_falsy row row' key Hsame Hfalsy).
    destruct s; [done | discriminate E].
Qed.

(** An optional field exported as [value || ''] and imported as
    [cell || undefined]. *)
Lemma read_back_optional row row' key value :
  Excel.sameCells row row' ->
  Excel.get row key = Excel.orElse value (Excel.str "") ->
  value = None \/ Excel.truthy value = true ->
  Excel.orElse (Excel.get row' key) None = value.
Proof.
  intros Hsame Hget [->|Htruthy].
  - assert (Excel.truthy (Excel.get row key) = false) as Hfalsy by (by rewrite Hget).
    unfold Excel.orElse. by rewrite (sameCells_falsy row row' key Hsame Hfalsy).
  - apply (read_back_truthy row); [done| |done]. by rewrite Hget, orElse_kept.
Qed.

Lemma isYes_read_back row row' key :
  Excel.sameCells row row' ->
  Excel.isYes (Excel.get row' key) = Excel.isYes (Excel.get row key).
Proof.
  intros Hsame.
  assert (forall v, Excel.truthy v = false -> Excel.isYes v = false) as Hno.
  { intros [[s|q|b]|]; try done. simpl. destruct s; [done | discriminate]. }
  destruct (Excel.truthy (Excel.get row key)) eqn:E.
  - by rewrite (sameCells_kept row row' key Hsame E).
  - rewrite (Hno _ E). apply Hno. by apply (sameCells_falsy row).
Qed.

(** X24. A user written by the export and read back by the import is the
    same user, whatever the spreadsheet does to empty cells, provided
    its id, name, e-mail and registration date are not empty, its phone
    is a string, and no borrowed id is blank or holds a comma. *)
Theorem user_round_trip (user : Excel.User.t) (row : Excel.Row) (newId now : jsstring) :
  Excel.truthy (Excel.User.id user) = true ->
  Excel.truthy (Excel.User.name user) = true ->
  Excel.truthy (Excel.User.email user) = true ->
  Excel.truthy (Excel.User.registrationDate user) = true ->
  Excel.isString (Excel.User.phone user) ->
  Forall (fun id => ~ In 44%N id /\ Excel.notBlank id = true) (Excel.User.borrowedBooks user) ->
  Excel.sameCells (Excel.exportUserRow user) row ->
  Excel.userOfRow newId now row = Some user /\
  forall result,
    Excel.importUserRow newId now result row
    = {| Excel.Result.books := Excel.Result.books result;
         Excel.Result.users := Excel.Result.users result ++ [user];
         Excel.Result.errors := Excel.Result.errors result |}.
Proof.
  intros Hid Hname Hemail Hdate Hphone Hids Hsame.
  assert (Excel.userOfRow newId now row = Some user) as Huser.
  { unfold Excel.userOfRow.
    assert (Excel.borrowedBooksOf (Excel.get row "Borrowed Book IDs")
            = Some (Excel.User.borrowedBooks user)) as ->.
    { destruct (Excel.User.borrowedBooks user) as [|id ids] eqn:E.
      - unfold Excel.borrowedBooksOf.
        rewrite (sameCells_falsy (Excel.exportUserRow user) row); [done..|].
        simpl. by rewrite E.
      - rewrite (sameCells_kept (Excel.exportUserRow user) row); [|done|].
        + simpl. rewrite E. by apply borrowedBooksOf_join.
        + simpl. rewrite E. apply joinCommaSpace_truthy; [done|].
          eapply List.Forall_impl; [|exact Hids]. by intros i [_ H]. }
    rewrite (read_back_truthy (Excel.exportUserRow user) row "ID" (Excel.User.id user))
      by done.
    rewrite (read_back_truthy (Excel.exportUserRow user) row "Name" (Excel.User.name user))
      by done.
    rewrite (read_back_truthy (Excel.exportUserRow user) row "Email" (Excel.User.email user))
      by done.
    rewrite (read_back_truthy (Excel.exportUserRow user) row "Registration Date"
               (Excel.User.registrationDate user)) by done.
    rewrite (read_back_string (Excel.exportUserRow user) row "Phone" (Excel.User.phone user));
      [by destruct user|done| |done].
    simpl. destruct Hphone as [p Hp]. rewrite Hp.
    unfold Excel.orElse. by destruct (Excel.truthy (Some (Excel.CStr p))) eqn:E; destruct p. }
  split; [exact Huser|].
  intros result. unfold Excel.importUserRow. rewrite Huser, Hname, Hemail. reflexivity.
Qed.

Lemma sameCells_refl row : Excel.sameCells row row.
Proof. by intros key. Qed.

Lemma user_round_trip_witness :
  Excel.userOfRow [] [] (Excel.exportUserRow sampleUser) = Some sampleUser.
Proof.
  apply (user_round_trip sampleUser (Excel.exportUserRow sampleUser) [] []).
  - reflexivity.
  - reflexivity.
  - reflexivity.
  - reflexivity.
  - by exists [].
  - repeat constructor; try reflexivity; vm_compute; intuition discriminate.
  - apply sameCells_refl.
Defined.

(** X25. A book written by the export and read back by the import is the
    same book, whatever the spreadsheet does to empty cells, provided
    its id, title and author are not empty, its description, image URL,
    ISBN, publication date and genre are strings, and each of
    [borrowedBy], [borrowedDate] and [sourceUrl] is absent or not empty.
    The row is never rejected. *)
Theorem book_round_trip (book : Excel.Book.t) (row : Excel.Row) (newId : jsstring) :
  Excel.truthy (Excel.Book.id book) = true ->
  Excel.truthy (Excel.Book.title book) = true ->
  Excel.truthy (Excel.Book.author book) = true ->
  Excel.isString (Excel.Book.description book) ->
  Excel.isString (Excel.Book.imageUrl book) ->
  Excel.isString (Excel.Book.isbn book) ->
  Excel.isString (Excel.Book.publishedDate book) ->
  Excel.isString (Excel.Book.genre book) ->
  (Excel.Book.borrowedBy book = None \/ Excel.truthy (Excel.Book.borrowedBy book) = true) ->
  (Excel.Book.borrowedDate book = None \/ Excel.truthy (Excel.Book.borrowedDate book) = true) ->
  (Excel.Book.sourceUrl book = None \/ Excel.truthy (Excel.Book.sourceUrl book) = true) ->
  Excel.sameCells (Excel.exportBookRow book) row ->
  Excel.bookOfRow newId row = book /\
  forall result,
    Excel.importBookRow newId result row
    = {| Excel.Result.books := Excel.Result.books result ++ [book];
         Excel.Result.users := Excel.Result.users result;
         Excel.Result.errors := Excel.Result.errors result |}.
Proof.
  intros Hid Htitle Hauthor Hdesc Himage Hisbn Hdate Hgenre Hby Hwhen Hurl Hsame.
  assert (Excel.bookOfRow newId row = book) as Hbook.
  { unfold Excel.bookOfRow.
    rewrite (read_back_truthy (Excel.exportBookRow book) row "ID" (Excel.Book.id book))
      by done.
    rewrite (read_back_truthy (Excel.exportBookRow book) row "Title" (Excel.Book.title book))
      by done.
    rewrite (read_back_truthy (Excel.exportBookRow book) row "Author"
               (Excel.Book.author book)) by done.
    rewrite (read_back_string (Excel.exportBookRow book) row "Description"
               (Excel.Book.description book)) by done.
    rewrite (read_back_string (Excel.exportBookRow book) row "Image URL"
               (Excel.Book.imageUrl book)) by done.
    rewrite (read_back_string (Excel.exportBookRow book) row "ISBN"
               (Excel.Book.isbn book)) by done.
    rewrite (read_back_string (Excel.exportBookRow book) row "Published Date"
               (Excel.Book.publishedDate book)) by done.
    rewrite (read_back_string (Excel.exportBookRow book) row "Genre"
               (Excel.Book.genre book)) by done.
    rewrite (read_back_optional (Excel.exportBookRow book) row "Borrowed By"
               (Excel.Book.borrowedBy book)) by done.
    rewrite (read_back_optional (Excel.exportBookRow book) row "Borrowed Date"
               (Excel.Book.borrowedDate book)) by done.
    rewrite (read_back_optional (Excel.exportBookRow book) row "Source URL"
               (Excel.Book.sourceUrl book)) by done.
    rewrite (isYes_read_back (Excel.exportBookRow book) row) by done.
    destruct book as [? ? ? ? ? ? ? ? available ? ? ?]. simpl.
    by destruct available. }
  split; [exact Hbook|].
  intros result. by rewrite importBookRow_pushes, Hbook.
Qed.

Lemma book_round_trip_witness :
  Excel.bookOfRow [] (Excel.exportBookRow sampleBook) = sampleBook.
Proof.
  apply (book_round_trip sampleBook (Excel.exportBookRow sampleBook) []);
    try reflexivity; try (by eexists); try (by left); try (by right).
Defined.

(** ** The whole workbook *)

Lemma importUserRow_grows newId now result row :
  exists added errors,
    Excel.importUserRow newId now result row
    = {| Excel.Result.books := Excel.Result.books result;
         Excel.Result.users := Excel.Result.users result ++ added;
         Excel.Result.errors := Excel.Result.errors result ++ errors |} /\
    (length added + length errors = 1)%nat /\
    Forall (fun e => e = Excel.InvalidUser \/ e = Excel.UserRowThrew) errors.
Proof.
  unfold Excel.importUserRow.
  destruct (Excel.userOfRow newId now row) as [user|].
  - destruct (negb _ || negb _).
    + exists [], [Excel.InvalidUser]. rewrite app_nil_r.
      repeat split; auto.
    + exists [user], []. rewrite app_nil_r. repeat split; auto.
  - exists [], [Excel.UserRowThrew]. rewrite app_nil_r. repeat split; auto.
Qed.

Lemma importUserRows_grow userId now rows : forall i result,
  exists added errors,
    Excel.importRows (fun k => Excel.importUserRow (userId k) (now k)) i rows result
    = {| Excel.Result.books := Excel.Result.books result;
         Excel.Result.users := Excel.Result.users result ++ added;
         Excel.Result.errors := Excel.Result.errors result ++ errors |} /\
    (length added + length errors = length rows)%nat /\
    Forall (fun e => e = Excel.InvalidUser \/ e = Excel.UserRowThrew) errors.
Proof.
  induction rows as [|row rows IH]; intros i result; simpl.
  - exists [], []. rewrite !app_nil_r. split; [by destruct result | by split].
  - destruct (importUserRow_grows (userId i) (now i) result row)
      as (added1 & errors1 & -> & Hone & Hkind1).
    destruct (IH (S i) {| Excel.Result.books := Excel.Result.books result;
                          Excel.Result.users := Excel.Result.users result ++ added1;
                          Excel.Result.errors := Excel.Result.errors result ++ errors1 |})
      as (added & errors & -> & Hlen & Hkind).
    exists (added1 ++ added), (errors1 ++ errors). simpl.
    rewrite <- !app_assoc. split; [done|].
    split; [rewrite !length_app; lia | by apply Forall_app].
Qed.

(** X26. What [importFromExcel] returns for a workbook.  A missing sheet
    costs exactly one error and imports nothing from it.  A Books sheet
    gives one book per row, in row order, and no error.  Every row of a
    Users sheet gives one user or one error ("Invalid user data" or
    "Error processing user row"); the errors come in the order books,
    then users. *)
Theorem workbook_import (bookId userId now : nat -> jsstring) (workbook : Excel.Workbook) :
  let result := Excel.importWorkbook bookId userId now workbook in
  Excel.Result.books result
  = match Excel.sheet workbook "Books" with
    | Some rows => imap (fun k row => Excel.bookOfRow (bookId k) row) rows
    | None => []
    end /\
  exists userErrors,
    Excel.Result.errors result
    = match Excel.sheet workbook "Books" with
      | Some _ => []
      | None => [Excel.BooksSheetNotFound]
      end ++ userErrors /\
    match Excel.sheet workbook "Users" with
    | Some rows =>
        (length (Excel.Result.users result) + length userErrors = length rows)%nat /\
        Forall (fun e => e = Excel.InvalidUser \/ e = Excel.UserRowThrew) userErrors
    | None =>
        Excel.Result.users result = [] /\ userErrors = [Excel.UsersSheetNotFound]
    end.
Proof.
  simpl. unfold Excel.importWorkbook.
  destruct (Excel.sheet workbook "Books") as [bookRows|];
    destruct (Excel.sheet workbook "Users") as [userRows|].
  - rewrite importBookRows_all. simpl.
    destruct (importUserRows_grow userId now userRows 0
                {| Excel.Result.books := imap (fun k row => Excel.bookOfRow (bookId k) row)
                                              bookRows;
                   Excel.Result.users := [];
                   Excel.Result.errors := [] |})
      as (added & errors & -> & Hlen & Hkind).
    simpl. split; [done|]. by exists errors.
  - rewrite importBookRows_all. simpl. split; [done|].
    by exists [Excel.UsersSheetNotFound].
  - destruct (importUserRows_grow userId now userRows 0
                {| Excel.Result.books := [];
                   Excel.Result.users := [];
                   Excel.Result.errors := [Excel.BooksSheetNotFound] |})
      as (added & errors & Heq & Hlen & Hkind).
    simpl in *. rewrite Heq. simpl. split; [done|]. by exists errors.
  - simpl. split; [done|]. by exists [Excel.UsersSheetNotFound].
Qed.

(** * The colours of the visualization *)

Lemma hue_value index :
  hue index == inject_Z ((275 * Z.of_nat index) mod 720) * (1 # 2).
Proof.
  unfold hue, remainder, trunc, num.
  assert (Qnum (inject_Z (Z.of_nat index) * (275 # 2) / 360) = (Z.of_nat index * 275 * 1)%Z)
    as -> by reflexivity.
  assert (Qden (inject_Z (Z.of_nat index) * (275 # 2) / 360) = 720%positive)
    as -> by reflexivity.
  rewrite Z.quot_div_nonneg by lia.
  rewrite Z.mod_eq by lia.
  replace (Z.of_nat index * 275 * 1)%Z with (275 * Z.of_nat index)%Z by lia.
  set (q := (275 * Z.of_nat index / 720)%Z).
  unfold Z.sub. rewrite inject_Z_plus, inject_Z_opp, !inject_Z_mult.
  change (inject_Z 275) with 275. change (inject_Z 720) with 720.
  lra.
Qed.

(** X27. The hue of every spine lies in [[0, 360)], and two spines get the
    same hue exactly when their positions in the list differ by a
    multiple of 144: the first 144 spines all have different hues. *)
Theorem hue_distinct (i j : nat) :
  0 <= hue i < 360 /\
  (hue i == hue j <-> (i mod 144 = j mod 144)%nat).
Proof.
  split.
  - rewrite hue_value.
    pose proof (Z.mod_pos_bound (275 * Z.of_nat i) 720 eq_refl) as [Hlo Hhi].
    assert (inject_Z 0 <= inject_Z ((275 * Z.of_nat i) mod 720)) as Hlo'
      by (by rewrite <- Zle_Qle).
    assert (inject_Z ((275 * Z.of_nat i) mod 720) < inject_Z 720) as Hhi'
      by (by rewrite <- Zlt_Qlt).
    change (inject_Z 0) with 0 in Hlo'. change (inject_Z 720) with 720 in Hhi'.
    lra.
  - rewrite !hue_value.
    assert (inject_Z ((275 * Z.of_nat i) mod 720) * (1 # 2)
            == inject_Z ((275 * Z.of_nat j) mod 720) * (1 # 2)
            <-> ((275 * Z.of_nat i) mod 720 = (275 * Z.of_nat j) mod 720)%Z) as ->.
    { split.
      - intros H. apply inject_Z_injective. lra.
      - intros ->. reflexivity. }
    rewrite Z.cong_iff_ex.
    assert ((i mod 144 = j mod 144)%nat
            <-> (Z.of_nat i mod 144 = Z.of_nat j mod 144)%Z) as ->.
    { change 144%Z with (Z.of_nat 144). rewrite <- !Nat2Z.inj_mod.
      split; [by intros -> | apply Nat2Z.inj]. }
    rewrite Z.cong_iff_ex. split.
    + intros [n Hn].
      assert ((144 | 55 * (Z.of_nat i - Z.of_nat j)))%Z as Hdiv
        by (exists n; lia).
      apply Z.gauss in Hdiv; [|reflexivity].
      destruct Hdiv as [m Hm]. by exists m.
    + intros [m Hm]. exists (55 * m)%Z. lia.
Qed.

(** * The summary sheet *)

Lemma filter_split_length {A : Type} (f : A -> bool) l :
  (length (List.filter f l) + length (List.filter (fun a => negb (f a)) l)
   = length l)%nat.
Proof.
  induction l as [|a l IH]; simpl; [done|]. destruct (f a); simpl; lia.
Qed.

(** X28. The Summary sheet of [exportToExcel] adds up: available books plus
    borrowed books is the total number of books, and there are never
    more active borrowers than users. *)
Theorem summary_adds_up (books : list Excel.Book.t) (users : list Excel.User.t) :
  let counts := summaryCounts books users in
  (metric counts "Available Books" + metric counts "Borrowed Books"
   = metric counts "Total Books")%nat /\
  (metric counts "Active Borrowers" <= metric counts "Total Users")%nat.
Proof.
  simpl. split; [apply filter_split_length | apply List.filter_length_le].
Qed.
